(** * Last-Writer-Wins element set and directed graph (package [lww])

    A shallow embedding of [src/lww/element_set.go] (the [Set] type) and of
    the graph built on it ([src/unnamed/part_003], the revision of
    [graph.go] that has [List], [VertexWithEdges] and the recursive
    [findPath]).  The older revision [src/lww/graph.go] is embedded
    separately in [Module GraphRev0].

    Conventions of the embedding:
    - a Go [map[string]V] is a [gmap string V]; the comma-ok lookup
      [v, ok := m[k]] is [m !! k], with the zero value of [V] when absent;
    - [time.Time] is an integer instant [Z]; the zero [time.Time] is [0] and
      [t.After(u)] is [u < t].  [time.Now()] is an explicit argument [now];
    - the mutexes are not modelled: one operation runs at a time;
    - [range] over a map visits the entries in an unspecified order, which
      may differ from one [range] statement to the next: the order is given
      by an oracle [order n], a permutation for every tick [n], and every
      [Set.List] call consumes one tick;
    - a Go slice is a [slice]: either [SNil] (the nil slice) or [Slice l];
    - methods that mutate through a shared map return the new state. *)

From Stdlib Require Import ZArith String List Lia Permutation OrderedTypeEx.
From stdpp Require Import gmap strings list fin_maps sorting.

#[local] Set Warnings "-clear-no-such-hyp".

Open Scope Z_scope.

(** ** Errors, results and slices *)

Inductive error : Type :=
| ErrElementNotFound
| ErrVertexAlreadyExists
| ErrInvalidVertexType
| ErrVertexNotFound
| ErrPathNotFound.

#[global] Instance error_eq_dec : EqDecision error.
Proof. solve_decision. Defined.

(** A Go result pair [(x, err)]: [Ok x] is [(x, nil)], [Err e] is
    [(zero, e)]. *)
Inductive result (A : Type) : Type :=
| Ok (a : A)
| Err (e : error).
Arguments Ok {A} a.
Arguments Err {A} e.

Definition is_ok {A} (r : result A) : bool :=
  match r with Ok _ => true | Err _ => false end.

(** Go slices, with the nil slice kept apart from the empty one. *)
Inductive slice (A : Type) : Type :=
| SNil
| Slice (elems : list A).
Arguments SNil {A}.
Arguments Slice {A} elems.

Definition elems {A} (s : slice A) : list A :=
  match s with SNil => [] | Slice l => l end.

(** [append(s, x)]: appending to the nil slice allocates. *)
Definition append {A} (s : slice A) (x : A) : slice A :=
  Slice (elems s ++ [x]).

(** ** Time *)

Abbreviation Time := Z (only parsing).
Definition zeroTime : Time := 0.
(** [t.After(u)] *)
Definition After (t u : Time) : bool := u <? t.

(** ** Elements *)

Record Vertex : Type := mkVertex { Key : string; Value : string }.

#[global] Instance Vertex_eq_dec : EqDecision Vertex.
Proof. solve_decision. Defined.

(** The two implementations of the [Element] interface. *)
Inductive Element : Type :=
| IDElement (key : string)
| VertexElement (v : Vertex).

#[global] Instance Element_eq_dec : EqDecision Element.
Proof. solve_decision. Defined.

Definition GetKey (e : Element) : string :=
  match e with
  | IDElement key => key
  | VertexElement v => Key v
  end.

(** [addRecord]: an added element and the time of the addition. *)
Record addRecord : Type := mkAddRecord { Elem : Element; Timestamp : Time }.

#[global] Instance addRecord_eq_dec : EqDecision addRecord.
Proof. solve_decision. Defined.

(** ** The element set ([element_set.go]) *)

Module ElementSet.

Record t : Type := mk {
    additions : gmap string addRecord;
    removals : gmap string Time
  }.

Definition NewSet : t := {| additions := ∅; removals := ∅ |}.

Definition Add (now : Time) (e : Element) (s : t) : t :=
    {| additions := <[GetKey e := {| Elem := e; Timestamp := now |}]> (additions s);
       removals := removals s |}.

Definition Remove (now : Time) (key : string) (s : t) : t :=
    {| additions := additions s;
       removals := <[key := now]> (removals s) |}.

  (** One iteration of the first loop of [Replicate]. *)
Definition replicate_addition (local : gmap string addRecord)
      (entry : string * addRecord) : gmap string addRecord :=
    let '(key, remoteRecord) := entry in
    match local !! key with
    | None => <[key := remoteRecord]> local
    | Some localRecord =>
        if After (Timestamp remoteRecord) (Timestamp localRecord)
        then <[key := remoteRecord]> local
        else local
    end.

  (** One iteration of the second loop of [Replicate]. *)
Definition replicate_removal (local : gmap string Time)
      (entry : string * Time) : gmap string Time :=
    let '(key, remoteRemovedAt) := entry in
    match local !! key with
    | None => <[key := remoteRemovedAt]> local
    | Some localRemovedAt =>
        if After remoteRemovedAt localRemovedAt
        then <[key := remoteRemovedAt]> local
        else local
    end.

  (** [Replicate] with the two iteration orders given explicitly. *)
Definition Replicate_in (adds : list (string * addRecord))
      (rems : list (string * Time)) (s : t) : t :=
    {| additions := fold_left replicate_addition adds (additions s);
       removals := fold_left replicate_removal rems (removals s) |}.

  (** [Replicate]: the loops run over the entries of the remote maps. The
      result does not depend on the iteration order
      ([Replicate_in_order_irrelevant] below). *)
Definition Replicate (s remote : t) : t :=
    Replicate_in (map_to_list (additions remote))
                 (map_to_list (removals remote)) s.

  (** [removed]: the comma-ok lookup gives the zero time when the key has no
      removal. *)
Definition removed (s : t) (record : addRecord) : bool :=
    let found := removals s !! GetKey (Elem record) in
    let removedAt := default zeroTime found in
    let removed := bool_decide (is_Some found) in
    removed || After removedAt (Timestamp record).

Definition Contains (s : t) (key : string) : result Element :=
    match additions s !! key with
    | None => Err ErrElementNotFound
    | Some addRecord =>
        if removed s addRecord then Err ErrElementNotFound
        else Ok (Elem addRecord)
    end.

  (** The body of the loop of [List]. *)
Definition list_step (s : t) (list : slice Element)
      (entry : string * addRecord) : slice Element :=
    if removed s entry.2 then list else append list (Elem entry.2).

  (** [List], ranging over the additions in the order [entries]. *)
Definition List_in (entries : list (string * addRecord)) (s : t)
    : slice Element :=
    fold_left (list_step s) entries (Slice []).

  (** [List]: the [n]-th [range] statement of the run visits the additions
      in the order [order n]. *)
Definition List (order : nat -> list (string * addRecord) -> list (string * addRecord))
      (n : nat) (s : t) : slice Element :=
    List_in (order n (map_to_list (additions s))) s.

  (** The graph code calls [Contains] and [Replicate] under the names
      [Lookup] and [Merge]. *)
Definition Lookup := Contains.
Definition Merge := Replicate.

End ElementSet.

(** ** Sorting

    [sort.Slice] and [sort.Strings] are comparison sorts that are not
    stable; they are modelled by a merge sort.  For the orders used here a
    sorted permutation is unique whenever the keys are pairwise distinct
    ([sorted_by_key_unique]), so the choice of the algorithm is immaterial
    there. *)

Definition str_le (a b : string) : Prop := String.leb a b = true.

#[global] Instance str_le_dec : RelDecision str_le.
Proof. intros a b. unfold str_le. apply _. Defined.

(** [sort.Strings] *)
Definition sort_Strings (l : list string) : list string := merge_sort str_le l.

Definition key_le (a b : Element) : Prop := str_le (GetKey a) (GetKey b).

#[global] Instance key_le_dec : RelDecision key_le.
Proof. intros a b. unfold key_le. apply _. Defined.

(** [sort.Slice(l, func(i, j) bool { return l[i].GetKey() < l[j].GetKey() })] *)
Definition sort_by_key (l : list Element) : list Element := merge_sort key_le l.

(** ** The graph ([graph.go], revision with [List]) *)

Module LwwGraph.

Record VertexWithEdges : Type := mkVWE {
    vertex : Vertex;
    AdjacentKeys : slice string
  }.

Record Graph : Type := mkGraph {
    vertices : ElementSet.t;
    edges : gmap string ElementSet.t
  }.

Definition NewGraph : Graph :=
    {| vertices := ElementSet.NewSet; edges := ∅ |}.

Definition Lookup (g : Graph) (key : string) : result Vertex :=
    match ElementSet.Lookup (vertices g) key with
    | Err ErrElementNotFound => Err ErrVertexNotFound
    | Err e => Err e
    | Ok (VertexElement v) => Ok v
    | Ok _ => Err ErrInvalidVertexType
    end.

  (** [getAdjacent] creates the adjacency set on first access; the map
      [g.edges] is shared, so the new entry stays. *)
Definition getAdjacent (g : Graph) (vertexKey : string) : ElementSet.t * Graph :=
    match edges g !! vertexKey with
    | Some edges => (edges, g)
    | None =>
        (ElementSet.NewSet,
         {| vertices := vertices g;
            edges := <[vertexKey := ElementSet.NewSet]> (edges g) |})
    end.

  (** A mutation of the set stored under [vertexKey]: the [Set] value that
      [getAdjacent] returns shares its two maps with the stored one. *)
Definition set_adjacent (vertexKey : string) (s : ElementSet.t) (g : Graph) : Graph :=
    {| vertices := vertices g; edges := <[vertexKey := s]> (edges g) |}.

Definition set_vertices (s : ElementSet.t) (g : Graph) : Graph :=
    {| vertices := s; edges := edges g |}.

Definition AddVertex (now : Time) (v : Vertex) (g : Graph) : option error * Graph :=
    match Lookup g (Key v) with
    | Ok _ => (Some ErrVertexAlreadyExists, g)
    | Err ErrVertexNotFound =>
        (None, set_vertices (ElementSet.Add now (VertexElement v) (vertices g)) g)
    | Err e => (Some e, g)
    end.

Definition RemoveVertex (now : Time) (key : string) (g : Graph) : option error * Graph :=
    match Lookup g key with
    | Err e => (Some e, g)
    | Ok _ => (None, set_vertices (ElementSet.Remove now key (vertices g)) g)
    end.

Definition AddEdge (now : Time) (fromKey toKey : string) (g : Graph)
    : option error * Graph :=
    match Lookup g fromKey with
    | Err e => (Some e, g)
    | Ok _ =>
        match Lookup g toKey with
        | Err e => (Some e, g)
        | Ok _ =>
            let '(adjacent, g1) := getAdjacent g fromKey in
            (None, set_adjacent fromKey (ElementSet.Add now (IDElement toKey) adjacent) g1)
        end
    end.

Definition RemoveEdge (now : Time) (fromKey toKey : string) (g : Graph)
    : option error * Graph :=
    match Lookup g fromKey with
    | Err e => (Some e, g)
    | Ok _ =>
        match Lookup g toKey with
        | Err e => (Some e, g)
        | Ok _ =>
            let '(adjacent, g1) := getAdjacent g fromKey in
            (None, set_adjacent fromKey (ElementSet.Remove now toKey adjacent) g1)
        end
    end.

  (** One iteration of the loop of [Merge] over [remote.edges]. *)
Definition merge_adjacent (g : Graph) (entry : string * ElementSet.t) : Graph :=
    let '(vertexKey, remoteAdjacent) := entry in
    let '(localAdjacent, g1) := getAdjacent g vertexKey in
    set_adjacent vertexKey (ElementSet.Merge localAdjacent remoteAdjacent) g1.

Definition Merge_in (entries : list (string * ElementSet.t)) (g remote : Graph) : Graph :=
    fold_left merge_adjacent entries
      (set_vertices (ElementSet.Merge (vertices g) (vertices remote)) g).

Definition Merge (g remote : Graph) : Graph :=
    Merge_in (map_to_list (edges remote)) g remote.

  (** The state a traversal threads: the graph (whose [edges] map
      [getAdjacent] may extend) and the number of [range] statements run
      so far. *)
  Abbreviation state := (Graph * nat)%type.

  (** The state of the depth-first search: the traversal state and the
      shared [visited] map. *)
  Abbreviation dfs_state := (Graph * nat * gset string)%type.

  Section Traversal.

    (** The iteration order of the [n]-th [range] over a map. *)
    Variable order : nat -> list (string * addRecord) -> list (string * addRecord).

    (** [g.getAdjacent(key).List()] *)
Definition adjacent_list (st : state) (key : string) : list Element * state :=
      let '(g, n) := st in
      let '(adjacent, g1) := getAdjacent g key in
      (elems (ElementSet.List order n adjacent), (g1, S n)).

    (** *** FindConnected *)

    (** The variables of the breadth-first loop. *)
Record bfs_vars : Type := mkBfs {
      visited : gset string;
      connected : slice Vertex;
      queue : list Vertex
    }.

    (** The inner loop [for _, v := range adjacent.List()]. *)
Fixpoint connect_range (g : Graph) (adjacent : list Element) (vars : bfs_vars)
      : result bfs_vars :=
      match adjacent with
      | [] => Ok vars
      | v :: rest =>
          match Lookup g (GetKey v) with
          | Err ErrVertexNotFound => connect_range g rest vars
          | Err e => Err e
          | Ok vertex =>
              if decide (Key vertex ∈ visited vars) then connect_range g rest vars
              else connect_range g rest
                     {| visited := {[Key vertex]} ∪ visited vars;
                        connected := append (connected vars) vertex;
                        queue := queue vars ++ [vertex] |}
          end
      end.

    (** The outer loop [for { ... }]; [fuel] bounds the number of
        iterations. *)
Fixpoint bfs_loop (fuel : nat) (st : state) (vars : bfs_vars)
      : option (result (slice Vertex) * state) :=
      match fuel with
      | O => None
      | S fuel' =>
          match queue vars with
          | [] => Some (Ok (connected vars), st)
          | current :: queue' =>
              let '(adjacent, st1) := adjacent_list st (Key current) in
              match connect_range (fst st1) adjacent
                      {| visited := visited vars;
                         connected := connected vars;
                         queue := queue' |} with
              | Err e => Some (Err e, st1)
              | Ok vars' => bfs_loop fuel' st1 vars'
              end
          end
      end.

Definition FindConnected (fuel : nat) (st : state) (key : string)
      : option (result (slice Vertex) * state) :=
      match Lookup (fst st) key with
      | Err e => Some (Err e, st)
      | Ok start =>
          bfs_loop fuel st
            {| visited := ∅; connected := Slice []; queue := [start] |}
      end.

    (** *** FindPath *)

    (** The loop of [findPath] over the adjacent elements; [recurse] is the
        recursive call [g.findPath(vertex, searchKey, path, visited)]. *)
Fixpoint findPath_range
        (recurse : Vertex -> slice Vertex -> dfs_state ->
                   option (result (slice Vertex) * dfs_state))
        (searchKey : string) (currentPath : slice Vertex)
        (adjacent : list Element) (ds : dfs_state)
      : option (result (slice Vertex) * dfs_state) :=
      match adjacent with
      | [] => Some (Err ErrPathNotFound, ds)
      | v :: rest =>
          match Lookup (fst (fst ds)) (GetKey v) with
          | Err ErrVertexNotFound =>
              findPath_range recurse searchKey currentPath rest ds
          | Err e => Some (Err e, ds)
          | Ok vertex =>
              if decide (Key vertex = searchKey)
              then Some (Ok (append currentPath vertex), ds)
              else
                match recurse vertex (append currentPath vertex) ds with
                | None => None
                | Some (Err ErrPathNotFound, ds') =>
                    findPath_range recurse searchKey currentPath rest ds'
                | Some (r, ds') => Some (r, ds')
                end
          end
      end.

    (** [findPath]; [fuel] bounds the depth of the recursion. *)
Fixpoint findPath (fuel : nat) (searchKey : string) (start : Vertex)
        (currentPath : slice Vertex) (ds : dfs_state)
      : option (result (slice Vertex) * dfs_state) :=
      match fuel with
      | O => None
      | S fuel' =>
          let '(st, visited) := ds in
          if decide (Key start ∈ visited) then Some (Err ErrPathNotFound, ds)
          else
            let visited1 := {[Key start]} ∪ visited in
            let '(adjacent, st1) := adjacent_list st (Key start) in
            findPath_range (findPath fuel' searchKey) searchKey currentPath
              adjacent (st1, visited1)
      end.

Definition FindPath (fuel : nat) (st : state) (fromKey toKey : string)
      : option (result (slice Vertex) * state) :=
      match Lookup (fst st) fromKey with
      | Err e => Some (Err e, st)
      | Ok start =>
          match Lookup (fst st) toKey with
          | Err e => Some (Err e, st)
          | Ok _ =>
              match findPath fuel toKey start (Slice [start]) (st, ∅) with
              | None => None
              | Some (r, (st', _)) => Some (r, st')
              end
          end
      end.

    (** *** List *)

    (** The loop of [List] over the sorted vertices. *)
Fixpoint list_range (vertices : list Element) (st : state)
        (list : slice VertexWithEdges)
      : result (slice VertexWithEdges) * state :=
      match vertices with
      | [] => (Ok list, st)
      | element :: rest =>
          match Lookup (fst st) (GetKey element) with
          | Err e => (Err e, st)
          | Ok vertex =>
              let '(adjacent, st1) := adjacent_list st (Key vertex) in
              let keys := fold_left (fun ks adjacentKey => append ks (GetKey adjacentKey))
                            adjacent (Slice []) in
              let vwe := {| vertex := vertex;
                            AdjacentKeys := Slice (sort_Strings (elems keys)) |} in
              list_range rest st1 (append list vwe)
          end
      end.

Definition List (st : state) : result (slice VertexWithEdges) * state :=
      let '(g, n) := st in
      let vertices := sort_by_key (elems (ElementSet.List order n (vertices g))) in
      list_range vertices (g, S n) (Slice []).

  End Traversal.

End LwwGraph.

(** ** Mutations and the graphs of the test suite *)

Module Scenarios.
Import LwwGraph.

(** A mutation of a replica, with the time its clock shows. *)
Inductive op : Type :=
| OpAddVertex (now : Time) (v : Vertex)
| OpRemoveVertex (now : Time) (key : string)
| OpAddEdge (now : Time) (fromKey toKey : string)
| OpRemoveEdge (now : Time) (fromKey toKey : string).

Definition exec (o : op) (g : Graph) : option error * Graph :=
  match o with
  | OpAddVertex now v => AddVertex now v g
  | OpRemoveVertex now key => RemoveVertex now key g
  | OpAddEdge now fromKey toKey => AddEdge now fromKey toKey g
  | OpRemoveEdge now fromKey toKey => RemoveEdge now fromKey toKey g
  end.

(** A sequence of mutations on one replica. *)
Definition run (ops : list op) (g : Graph) : Graph :=
  fold_left (fun g o => (exec o g).2) ops g.

(** The [range] order that follows the enumeration of the map. *)
Definition idorder (n : nat) (l : list (string * addRecord)) : list (string * addRecord) := l.

Definition e1 : Element := IDElement "element1".

Definition v1 : Vertex := {| Key := "vertex1"; Value := "value1" |}.
Definition v2 : Vertex := {| Key := "vertex2"; Value := "value2" |}.
Definition v3 : Vertex := {| Key := "vertex3"; Value := "value3" |}.
Definition v4 : Vertex := {| Key := "vertex4"; Value := "value4" |}.
Definition v5 : Vertex := {| Key := "vertex5"; Value := "value5" |}.

(** "same element re-added after removal": [A.Add(e1); A.Remove(e1)],
    then [B.Add(e1)], then [replicateSets(A, B)]. *)
Definition setA0 : ElementSet.t :=
  ElementSet.Remove 2 "element1" (ElementSet.Add 1 e1 ElementSet.NewSet).
Definition setB0 : ElementSet.t := ElementSet.Add 3 e1 ElementSet.NewSet.
Definition setA : ElementSet.t := ElementSet.Merge setA0 setB0.
Definition setB : ElementSet.t := ElementSet.Merge setB0 setA.

(** "returns no deleted vertices when search connections and paths":
    v1->v2, v1->v3, v3->v5, v4->v3, then v3 is removed. *)
Definition g_tombstone : Graph :=
  run [OpAddVertex 1 v1; OpAddVertex 2 v2; OpAddVertex 3 v3; OpAddVertex 4 v4;
       OpAddVertex 5 v5;
       OpAddEdge 6 "vertex1" "vertex2"; OpAddEdge 7 "vertex1" "vertex3";
       OpAddEdge 8 "vertex3" "vertex5"; OpAddEdge 9 "vertex4" "vertex3";
       OpRemoveVertex 10 "vertex3"] NewGraph.

(** "returns a vertex which is connected to itself" *)
Definition g_selfloop : Graph :=
  run [OpAddVertex 1 v1; OpAddEdge 2 "vertex1" "vertex1"] NewGraph.

(** A single vertex and no edge. *)
Definition g_single : Graph := run [OpAddVertex 1 v1] NewGraph.

(** "resolves loops in the graph": v1<->v2, v1->v2->v3->v4->v1, v3->v3. *)
Definition g_loops : Graph :=
  run [OpAddVertex 1 v1; OpAddVertex 2 v2; OpAddVertex 3 v3; OpAddVertex 4 v4;
       OpAddEdge 5 "vertex1" "vertex2"; OpAddEdge 6 "vertex2" "vertex1";
       OpAddEdge 7 "vertex2" "vertex3"; OpAddEdge 8 "vertex3" "vertex3";
       OpAddEdge 9 "vertex3" "vertex4"; OpAddEdge 10 "vertex4" "vertex1"] NewGraph.

(** *** Replicas

    A system of replicas is the list of their graphs.  A merge step
    [(i, j)] is [replicas[i].Merge(replicas[j])]; a schedule is any list of
    merge steps ([replicateGraphs] of the tests runs one particular
    schedule). *)
Definition merge_step (gs : list Graph) (ij : nat * nat) : list Graph :=
  match gs !! ij.1, gs !! ij.2 with
  | Some gi, Some gj => <[ij.1 := Merge gi gj]> gs
  | _, _ => gs
  end.

Definition merge_all (sched : list (nat * nat)) (gs : list Graph) : list Graph :=
  fold_left merge_step sched gs.

(** [replicateGraphs(graphs...)]: every replica merges every other one. *)
Definition replicateGraphs (gs : list Graph) : list Graph :=
  merge_all
    (flat_map (fun i => (fun j => (i, j)) <$> filter (fun j => j <> i) (seq 0 (length gs)))
              (seq 0 (length gs)))
    gs.

(** Which initial states have flowed, directly or through other replicas,
    into each replica along a schedule. *)
Definition absorb_step (ab : list (list Graph)) (ij : nat * nat) : list (list Graph) :=
  match ab !! ij.1, ab !! ij.2 with
  | Some fi, Some fj => <[ij.1 := fi ++ fj]> ab
  | _, _ => ab
  end.

Definition absorbed (sched : list (nat * nat)) (gs : list Graph) : list (list Graph) :=
  fold_left absorb_step sched ((fun g => [g]) <$> gs).

(** Two replicas that added the same key at the same instant with
    different values. *)
Definition g_tieA : Graph := run [OpAddVertex 1 {| Key := "vertex1"; Value := "a" |}] NewGraph.
Definition g_tieB : Graph := run [OpAddVertex 1 {| Key := "vertex1"; Value := "b" |}] NewGraph.

(** "all actors converge to the same state after replication" *)
Definition g_convA : Graph := run [OpAddVertex 1 v1] NewGraph.
Definition g_convB : Graph :=
  run [OpAddVertex 2 v2; OpAddVertex 3 v3; OpAddEdge 4 "vertex2" "vertex3"] NewGraph.
Definition g_convC : Graph := run [OpAddVertex 5 v4] NewGraph.

End Scenarios.

(** ** Histories of calls *)

Module Histories.
Import LwwGraph.

(** A call on a set. *)
Inductive set_call : Type :=
| CallAdd (now : Time) (e : Element)
| CallRemove (now : Time) (key : string)
| CallReplicate (remote : ElementSet.t).

Definition set_exec (c : set_call) (s : ElementSet.t) : ElementSet.t :=
  match c with
  | CallAdd now e => ElementSet.Add now e s
  | CallRemove now key => ElementSet.Remove now key s
  | CallReplicate remote => ElementSet.Replicate s remote
  end.

Definition set_run (cs : list set_call) (s : ElementSet.t) : ElementSet.t :=
  fold_left (fun s c => set_exec c s) cs s.

(** A call that changes a graph: a mutation or a merge of a remote graph. *)
Inductive graph_call : Type :=
| CallOp (o : Scenarios.op)
| CallMerge (remote : Graph).

Definition graph_exec (c : graph_call) (g : Graph) : Graph :=
  match c with
  | CallOp o => (Scenarios.exec o g).2
  | CallMerge remote => Merge g remote
  end.

Definition graph_run (cs : list graph_call) (g : Graph) : Graph :=
  fold_left (fun g c => graph_exec c g) cs g.

(** The graphs that calls build from [NewGraph], merging graphs built the
    same way. *)
Inductive built : Graph -> Prop :=
| built_new : built NewGraph
| built_op o g : built g -> built (Scenarios.exec o g).2
| built_merge g remote : built g -> built remote -> built (Merge g remote).

End Histories.

(** ** The older revision of the graph ([src/lww/graph.go])

    This revision differs from the later one in [getAdjacent], in the two
    traversals and in [Merge]; [AddVertex], [RemoveVertex] and [lookup] read
    as in the later revision.

    Its [getAdjacent] declares a second variable [edges] inside the [if], so
    that on the first access of a key the new set is stored in the map while
    the zero [Set] is returned: a [Set] whose [mutex] is nil and whose maps
    are nil.  Every method of [Set] starts with [s.mutex.Lock()], which
    panics on the nil pointer; the entry stored in the map stays. *)

Module GraphRev0.
Import LwwGraph.

(** A call returns, or the goroutine panics. *)
Inductive outcome (A : Type) : Type :=
| Returns (a : A)
| Panics.
Arguments Returns {A} a.
Arguments Panics {A}.

(** The zero [Vertex], which [lookup] returns beside an error. *)
Definition zeroVertex : Vertex := {| Key := ""; Value := "" |}.

Definition lookup (g : Graph) (key : string) : result Vertex := Lookup g key.

(** [getAdjacent]: [None] is the zero [Set]. *)
Definition getAdjacent (g : Graph) (vertexKey : string) : option ElementSet.t * Graph :=
  match edges g !! vertexKey with
  | Some edges => (Some edges, g)
  | None =>
      (None,
       {| vertices := vertices g;
          edges := <[vertexKey := ElementSet.NewSet]> (edges g) |})
  end.

Definition AddEdge (now : Time) (fromKey toKey : string) (g : Graph)
  : outcome (option error) * Graph :=
  match lookup g fromKey with
  | Err e => (Returns (Some e), g)
  | Ok _ =>
      match lookup g toKey with
      | Err e => (Returns (Some e), g)
      | Ok _ =>
          let '(adjacent, g1) := getAdjacent g fromKey in
          match adjacent with
          | None => (Panics, g1)
          | Some adjacent =>
              (Returns None,
               set_adjacent fromKey (ElementSet.Add now (IDElement toKey) adjacent) g1)
          end
      end
  end.

Definition RemoveEdge (now : Time) (fromKey toKey : string) (g : Graph)
  : outcome (option error) * Graph :=
  match lookup g fromKey with
  | Err e => (Returns (Some e), g)
  | Ok _ =>
      match lookup g toKey with
      | Err e => (Returns (Some e), g)
      | Ok _ =>
          let '(adjacent, g1) := getAdjacent g fromKey in
          match adjacent with
          | None => (Panics, g1)
          | Some adjacent =>
              (Returns None,
               set_adjacent fromKey (ElementSet.Remove now toKey adjacent) g1)
          end
      end
  end.

(** The loop of [Merge] over [remote.edges], in the order [entries]. *)
Fixpoint merge_range (entries : list (string * ElementSet.t)) (g : Graph)
  : outcome unit * Graph :=
  match entries with
  | [] => (Returns tt, g)
  | (vertexKey, remoteAdjacent) :: rest =>
      let '(localAdjacent, g1) := getAdjacent g vertexKey in
      match localAdjacent with
      | None => (Panics, g1)
      | Some localAdjacent =>
          merge_range rest
            (set_adjacent vertexKey (ElementSet.Merge localAdjacent remoteAdjacent) g1)
      end
  end.

Definition Merge_in (entries : list (string * ElementSet.t)) (g remote : Graph)
  : outcome unit * Graph :=
  merge_range entries
    (set_vertices (ElementSet.Merge (vertices g) (vertices remote)) g).

Definition Merge (g remote : Graph) : outcome unit * Graph :=
  Merge_in (map_to_list (edges remote)) g remote.

Section Traversal.

Variable order : nat -> list (string * addRecord) -> list (string * addRecord).

(** *** FindConnected *)

(** The inner loop of [FindConnected].  A [lookup] that fails with
    [ErrVertexNotFound] ends the call; after any other error the loop goes
    on with the zero vertex that [lookup] returned. *)
Fixpoint connect_range (g : Graph) (adjacent : list Element) (vars : bfs_vars)
  : result bfs_vars :=
  match adjacent with
  | [] => Ok vars
  | v :: rest =>
      match lookup g (GetKey v) with
      | Err ErrVertexNotFound => Err ErrVertexNotFound
      | r =>
          let vertex := match r with Ok vertex => vertex | Err _ => zeroVertex end in
          if decide (Key vertex ∈ visited vars) then connect_range g rest vars
          else connect_range g rest
                 {| visited := {[Key vertex]} ∪ visited vars;
                    connected := append (connected vars) vertex;
                    queue := queue vars ++ [vertex] |}
      end
  end.

Fixpoint bfs_loop (fuel : nat) (st : state) (vars : bfs_vars)
  : option (outcome (result (slice Vertex)) * state) :=
  match fuel with
  | O => None
  | S fuel' =>
      match queue vars with
      | [] => Some (Returns (Ok (connected vars)), st)
      | current :: queue' =>
          let '(g, n) := st in
          let '(adjacent, g1) := getAdjacent g (Key current) in
          match adjacent with
          | None => Some (Panics, (g1, n))
          | Some adjacent =>
              match connect_range g1 (elems (ElementSet.List order n adjacent))
                      {| visited := visited vars;
                         connected := connected vars;
                         queue := queue' |} with
              | Err e => Some (Returns (Err e), (g1, S n))
              | Ok vars' => bfs_loop fuel' (g1, S n) vars'
              end
          end
      end
  end.

(** [connected] is the named result, nil until the first [append]. *)
Definition FindConnected (fuel : nat) (st : state) (key : string)
  : option (outcome (result (slice Vertex)) * state) :=
  match lookup (fst st) key with
  | Err e => Some (Returns (Err e), st)
  | Ok start =>
      bfs_loop fuel st
        {| visited := {[Key start]}; connected := SNil; queue := [start] |}
  end.

(** *** FindPath

    The body of the outer loop declares a second variable
    [stack := stack[:stackLength-1]]; the [append]s of the inner loop go to
    that variable, and the outer [stack], which the next iteration reads,
    is never assigned.  The two slices share one array: an [append] to the
    inner slice below the capacity writes into the array, and so into the
    outer slice; an [append] at the capacity moves the inner slice to a
    new array. *)

(** The variables of the inner loop: the [visited] map, the inner [stack]
    and the array behind the outer [stack]. *)
Record stack_vars : Type := mkStack {
  seen : gset string;
  stack : list Vertex;
  array : list Vertex
}.

(** [visited[vertex.Key] = nothing{}; stack = append(stack, vertex)] *)
Definition push (vars : stack_vars) (vertex : Vertex) : stack_vars :=
  {| seen := {[Key vertex]} ∪ seen vars;
     stack := stack vars ++ [vertex];
     array := if decide (length (stack vars) < length (array vars))%nat
              then <[length (stack vars) := vertex]> (array vars)
              else array vars |}.

(** The inner loop: [inl r] when it returns [r] from [FindPath], [inr vars]
    when the [range] ends. *)
Fixpoint path_range (g : Graph) (toKey : string) (adjacent : list Element)
    (vars : stack_vars) : result (slice Vertex) + stack_vars :=
  match adjacent with
  | [] => inr vars
  | v :: rest =>
      match lookup g (GetKey v) with
      | Err ErrVertexNotFound => inl (Err ErrVertexNotFound)
      | r =>
          let vertex := match r with Ok vertex => vertex | Err _ => zeroVertex end in
          if decide (Key vertex = toKey) then inl (Ok (Slice (stack vars)))
          else if decide (Key vertex ∈ seen vars) then path_range g toKey rest vars
          else path_range g toKey rest (push vars vertex)
      end
  end.

(** The outer loop; [outer] is the outer [stack]. *)
Fixpoint path_loop (fuel : nat) (st : state) (toKey : string)
    (visited : gset string) (outer : list Vertex)
  : option (outcome (result (slice Vertex)) * state) :=
  match fuel with
  | O => None
  | S fuel' =>
      let stackLength := length outer in
      match last outer with
      | None => Some (Returns (Err ErrPathNotFound), st)
      | Some current =>
          let '(g, n) := st in
          let '(adjacent, g1) := getAdjacent g (Key current) in
          match adjacent with
          | None => Some (Panics, (g1, n))
          | Some adjacent =>
              match path_range g1 toKey (elems (ElementSet.List order n adjacent))
                      {| seen := visited;
                         stack := take (stackLength - 1) outer;
                         array := outer |} with
              | inl r => Some (Returns r, (g1, S n))
              | inr vars => path_loop fuel' (g1, S n) toKey (seen vars) (array vars)
              end
          end
      end
  end.

Definition FindPath (fuel : nat) (st : state) (fromKey toKey : string)
  : option (outcome (result (slice Vertex)) * state) :=
  match lookup (fst st) fromKey with
  | Err e => Some (Returns (Err e), st)
  | Ok start => path_loop fuel st toKey {[Key start]} [start]
  end.

End Traversal.

End GraphRev0.

(** ** Liveness in the words of the specification

    The specification calls a key of a set live when it "has an AddRecord
    and either no removal exists or the add's timestamp is strictly after
    the removal's timestamp".  [spec_live] follows these words; the code
    decides with [removed], which [Contains] and [List] call. *)

Definition spec_live (s : ElementSet.t) (key : string) : bool :=
  match ElementSet.additions s !! key with
  | None => false
  | Some addRecord =>
      match ElementSet.removals s !! key with
      | None => true
      | Some removedAt => removedAt <? Timestamp addRecord
      end
  end.

(** Graphs in which a vertex was added again after its removal. *)
Module Readded.
Import LwwGraph Scenarios.

(** [v1] added, removed and added again. *)
Definition g_again : Graph :=
  run [OpAddVertex 1 v1; OpRemoveVertex 2 "vertex1"; OpAddVertex 3 v1] NewGraph.






(** The test "edge for a removed vertex re-appears if the vertex was
    re-added in another replica": A adds v1; A and B replicate; A removes
    v1; B adds v2 and the edge v1->v2; C adds v1; A, B and C replicate. *)
Definition intention_AB : list Graph :=
  replicateGraphs [run [OpAddVertex 1 v1] NewGraph; NewGraph].

Definition intention_ABC : list Graph :=
  replicateGraphs
    [run [OpRemoveVertex 2 "vertex1"] (default NewGraph (intention_AB !! 0%nat));
     run [OpAddVertex 3 v2; OpAddEdge 4 "vertex1" "vertex2"]
         (default NewGraph (intention_AB !! 1%nat));
     run [OpAddVertex 5 v1] NewGraph].

End Readded.

(* ===================================================================== *)
(** * Properties *)
(* ===================================================================== *)

(** ** Registers

    Both loops of [Replicate] fold the same step over a map of timestamped
    values; [ts] reads the timestamp of a value. *)

Section Registers.
  Context {V : Type} (ts : V -> Z).

Definition reg_step (local : gmap string V) (entry : string * V) : gmap string V :=
    match local !! entry.1 with
    | None => <[entry.1 := entry.2]> local
    | Some l => if After (ts entry.2) (ts l) then <[entry.1 := entry.2]> local else local
    end.

  (** What one key holds after the loop, from what it held locally and
      remotely. *)
Definition reg_join (l r : option V) : option V :=
    match r with
    | None => l
    | Some rv =>
        match l with
        | None => Some rv
        | Some lv => if After (ts rv) (ts lv) then Some rv else Some lv
        end
    end.

Lemma reg_step_lookup_eq local k v :
    reg_step local (k, v) !! k = reg_join (local !! k) (Some v).
  Proof.
    unfold reg_step, reg_join; simpl.
    destruct (local !! k) as [l|] eqn:E.
    - destruct (After (ts v) (ts l)); [apply lookup_insert_eq | exact E].
    - apply lookup_insert_eq.
  Qed.

Lemma reg_step_lookup_ne local k k' v :
    k' <> k -> reg_step local (k', v) !! k = local !! k.
  Proof.
    intros Hne. unfold reg_step; simpl.
    destruct (local !! k') as [l|].
    - destruct (After (ts v) (ts l)); [by rewrite lookup_insert_ne | done].
    - by rewrite lookup_insert_ne.
  Qed.

Lemma fold_reg_step_lookup entries local k :
    NoDup entries.*1 ->
    fold_left reg_step entries local !! k
    = reg_join (local !! k) ((list_to_map entries : gmap string V) !! k).
  Proof.
    revert local. induction entries as [|[k' v] rest IH]; intros local Hnd.
    - simpl. rewrite lookup_empty. reflexivity.
    - simpl in *. apply NoDup_cons in Hnd as [Hnotin Hnd].
      rewrite IH by exact Hnd.
      destruct (decide (k' = k)) as [->|Hne].
      + rewrite lookup_insert_eq, reg_step_lookup_eq.
        rewrite (not_elem_of_list_to_map_1 rest k Hnotin). reflexivity.
      + rewrite lookup_insert_ne by exact Hne.
        rewrite reg_step_lookup_ne by exact Hne. reflexivity.
  Qed.

  (** The loop over any enumeration of the remote map. *)
Lemma fold_reg_step_perm entries (remote local : gmap string V) k :
    entries ≡ₚ map_to_list remote ->
    fold_left reg_step entries local !! k = reg_join (local !! k) (remote !! k).
  Proof.
    intros Hp.
    assert (Hnd : NoDup entries.*1).
    { rewrite Hp. apply NoDup_fst_map_to_list. }
    rewrite fold_reg_step_lookup by exact Hnd.
    rewrite (list_to_map_proper _ _ Hnd Hp), list_to_map_to_list. reflexivity.
  Qed.

Lemma reg_join_is_Some l r : is_Some l -> is_Some (reg_join l r).
  Proof.
    intros [lv ->]. destruct r as [rv|]; simpl; [|eauto].
    destruct (After (ts rv) (ts lv)); eauto.
  Qed.

Lemma reg_join_None_r l : reg_join l None = l.
  Proof. reflexivity. Qed.

Lemma reg_join_idem l : reg_join l l = l.
  Proof.
    destruct l as [v|]; simpl; [|done].
    unfold After. rewrite Z.ltb_irrefl. done.
  Qed.

End Registers.

Module SetFacts.
  Import ElementSet.

Lemma replicate_addition_step local entry :
    replicate_addition local entry = reg_step Timestamp local entry.
  Proof. destruct entry as [k r]. reflexivity. Qed.

Lemma replicate_removal_step local entry :
    replicate_removal local entry = reg_step (fun t : Z => t) local entry.
  Proof. destruct entry as [k r]. reflexivity. Qed.

Lemma fold_replicate_addition entries local :
    fold_left replicate_addition entries local
    = fold_left (reg_step Timestamp) entries local.
  Proof.
    revert local. induction entries as [|e rest IH]; intros local; simpl; [done|].
    by rewrite IH, replicate_addition_step.
  Qed.

Lemma fold_replicate_removal entries local :
    fold_left replicate_removal entries local
    = fold_left (reg_step (fun t : Z => t)) entries local.
  Proof.
    revert local. induction entries as [|e rest IH]; intros local; simpl; [done|].
    by rewrite IH, replicate_removal_step.
  Qed.

Lemma Replicate_in_additions adds rems s remote k :
    adds ≡ₚ map_to_list (additions remote) ->
    additions (Replicate_in adds rems s) !! k
    = reg_join Timestamp (additions s !! k) (additions remote !! k).
  Proof.
    intros Hp. simpl. rewrite fold_replicate_addition.
    by apply fold_reg_step_perm.
  Qed.

Lemma Replicate_in_removals adds rems s remote k :
    rems ≡ₚ map_to_list (removals remote) ->
    removals (Replicate_in adds rems s) !! k
    = reg_join (fun t : Z => t) (removals s !! k) (removals remote !! k).
  Proof.
    intros Hp. simpl. rewrite fold_replicate_removal.
    by apply fold_reg_step_perm.
  Qed.

Lemma t_eq (s s' : t) :
    additions s = additions s' -> removals s = removals s' -> s = s'.
  Proof. destruct s, s'; simpl; congruence. Qed.

  (** The iteration order of the two loops of [Replicate] is immaterial. *)
Lemma Replicate_in_order_irrelevant adds rems s remote :
    adds ≡ₚ map_to_list (additions remote) ->
    rems ≡ₚ map_to_list (removals remote) ->
    Replicate_in adds rems s = Replicate s remote.
  Proof.
    intros Ha Hr. apply t_eq; apply map_eq; intros k.
    - rewrite (Replicate_in_additions _ _ _ remote) by exact Ha.
      unfold Replicate. by rewrite (Replicate_in_additions _ _ _ remote).
    - rewrite (Replicate_in_removals _ _ _ remote) by exact Hr.
      unfold Replicate. by rewrite (Replicate_in_removals _ _ _ remote).
  Qed.

Lemma Replicate_additions s remote k :
    additions (Replicate s remote) !! k
    = reg_join Timestamp (additions s !! k) (additions remote !! k).
  Proof. unfold Replicate. by apply Replicate_in_additions. Qed.

Lemma Replicate_removals s remote k :
    removals (Replicate s remote) !! k
    = reg_join (fun t : Z => t) (removals s !! k) (removals remote !! k).
  Proof. unfold Replicate. by apply Replicate_in_removals. Qed.

Lemma Replicate_NewSet s : Replicate s NewSet = s.
  Proof. destruct s; reflexivity. Qed.

Lemma Replicate_idem s : Replicate s s = s.
  Proof.
    apply t_eq; apply map_eq; intros k.
    - rewrite Replicate_additions. apply reg_join_idem.
    - rewrite Replicate_removals. apply reg_join_idem.
  Qed.

  (** *** [removed], [Contains] and [List] *)

Lemma removed_false s r :
    removed s r = false <->
    removals s !! GetKey (Elem r) = None /\ 0 <= Timestamp r.
  Proof.
    unfold removed, After, zeroTime.
    destruct (removals s !! GetKey (Elem r)) as [at_|] eqn:E; simpl.
    - split; [discriminate | intros [? _]; discriminate].
    - rewrite Z.ltb_ge. split; [intros H; split; [done|lia] | intros [_ H]; lia].
  Qed.

Lemma removed_true_of_removal s r at_ :
    removals s !! GetKey (Elem r) = Some at_ -> removed s r = true.
  Proof. intros E. unfold removed. rewrite E. reflexivity. Qed.

Lemma Contains_Ok s k e :
    Contains s k = Ok e <->
    exists r, additions s !! k = Some r /\ Elem r = e /\ removed s r = false.
  Proof.
    unfold Contains. destruct (additions s !! k) as [r|] eqn:E.
    - destruct (removed s r) eqn:R.
      + split; [discriminate | intros (r' & [= <-] & _ & ?); congruence].
      + split; [intros [= <-]; eauto | intros (r' & [= <-] & <- & _); done].
    - split; [discriminate | intros (r' & ? & _); discriminate].
  Qed.

Lemma Contains_Err s k e : Contains s k = Err e -> e = ErrElementNotFound.
  Proof.
    unfold Contains. destruct (additions s !! k) as [r|]; [|congruence].
    destruct (removed s r); congruence.
  Qed.

Lemma fold_list_step s entries l :
    fold_left (list_step s) entries (Slice l)
    = Slice (l ++ ((fun en => Elem en.2) <$>
                    (filter (fun en => removed s en.2 = false) entries))).
  Proof.
    revert l. induction entries as [|en rest IH]; intros l; simpl.
    - by rewrite app_nil_r.
    - unfold list_step at 2. rewrite filter_cons.
      destruct (removed s en.2) eqn:R; simpl.
      + rewrite IH. destruct (decide (true = false)); [discriminate|done].
      + unfold append; simpl. rewrite IH.
        destruct (decide (false = false)); [|done].
        simpl. by rewrite <- app_assoc.
  Qed.

Lemma List_in_eq entries s :
    List_in entries s
    = Slice ((fun en => Elem en.2) <$>
               (filter (fun en => removed s en.2 = false) entries)).
  Proof. unfold List_in. by rewrite fold_list_step. Qed.

  (** Every stored record sits under the key of its element: [Add] stores
      under [e.GetKey()] and [Replicate] copies entries key by key. *)
Definition set_wf (s : t) : Prop :=
    forall k r, additions s !! k = Some r -> GetKey (Elem r) = k.

Lemma set_wf_NewSet : set_wf NewSet.
  Proof. intros k r. simpl. by rewrite lookup_empty. Qed.

Lemma set_wf_Add now e s : set_wf s -> set_wf (Add now e s).
  Proof.
    intros Hwf k r. simpl. rewrite lookup_insert.
    case_decide; [intros [= <-]; simpl; congruence | apply Hwf].
  Qed.

Lemma set_wf_Remove now key s : set_wf s -> set_wf (Remove now key s).
  Proof. intros Hwf k r. simpl. apply Hwf. Qed.

Lemma reg_join_cases {V} (ts : V -> Z) l r v :
    reg_join ts l r = Some v -> l = Some v \/ r = Some v.
  Proof.
    destruct r as [rv|], l as [lv|]; simpl; auto.
    destruct (After (ts rv) (ts lv)); auto.
  Qed.

Lemma set_wf_Replicate s remote :
    set_wf s -> set_wf remote -> set_wf (Replicate s remote).
  Proof.
    intros Hs Hr k r. rewrite Replicate_additions. intros H.
    apply reg_join_cases in H as [H|H]; [by apply Hs | by apply Hr].
  Qed.

Lemma Contains_wf s k e : set_wf s -> Contains s k = Ok e -> GetKey e = k.
  Proof.
    intros Hwf H. apply Contains_Ok in H as (r & Hr & <- & _). by apply Hwf.
  Qed.

  Section Order.
    Variable order : nat -> list (string * addRecord) -> list (string * addRecord).
    Hypothesis order_perm : forall n l, order n l ≡ₚ l.

Lemma List_is_Slice n s : exists l, List order n s = Slice l.
    Proof. unfold List. rewrite List_in_eq. eauto. Qed.

Lemma List_elems n s :
      elems (List order n s)
      = (fun en => Elem en.2) <$>
          filter (fun en => removed s en.2 = false)
            (order n (map_to_list (additions s))).
    Proof. unfold List. by rewrite List_in_eq. Qed.

Lemma List_perm n s :
      elems (List order n s)
      ≡ₚ (fun en => Elem en.2) <$>
           filter (fun en => removed s en.2 = false) (map_to_list (additions s)).
    Proof. rewrite List_elems. by rewrite order_perm. Qed.

Lemma elem_of_List n s e :
      e ∈ elems (List order n s) <->
      exists k r, additions s !! k = Some r /\ removed s r = false /\ Elem r = e.
    Proof.
      rewrite List_perm, list_elem_of_fmap. split.
      - intros ([k r] & -> & Hin). apply list_elem_of_filter in Hin as [Hrm Hin].
        apply elem_of_map_to_list in Hin. simpl in *. eauto.
      - intros (k & r & Hk & Hrm & <-). exists (k, r). split; [done|].
        apply list_elem_of_filter. split; [done|]. by apply elem_of_map_to_list.
    Qed.

Lemma elem_of_List_wf n s e :
      set_wf s -> e ∈ elems (List order n s) <-> Contains s (GetKey e) = Ok e.
    Proof.
      intros Hwf. rewrite elem_of_List, Contains_Ok. split.
      - intros (k & r & Hk & Hrm & <-). exists r.
        rewrite (Hwf _ _ Hk). done.
      - intros (r & Hk & <- & Hrm). eauto.
    Qed.

Lemma List_keys_NoDup n s :
      set_wf s -> NoDup (GetKey <$> elems (List order n s)).
    Proof.
      intros Hwf. rewrite List_perm.
      assert (Hfst : forall l : list (string * addRecord),
                 Forall (fun en => additions s !! en.1 = Some en.2) l ->
                 GetKey <$> ((fun en => Elem en.2) <$> l) = l.*1).
      { induction 1 as [|[k r] l Hk _ IH]; [done|].
        rewrite !fmap_cons, IH. simpl in *. f_equal. by apply Hwf. }
      rewrite Hfst.
      - eapply sublist_NoDup; [apply (NoDup_fst_map_to_list (additions s))|].
        apply fmap_sublist, sublist_filter.
      - apply Forall_forall. intros [k r] Hin.
        apply list_elem_of_filter in Hin as [_ Hin].
        by apply elem_of_map_to_list in Hin.
    Qed.

Lemma List_nothing_live n s :
      (forall k, is_ok (Contains s k) = false) -> List order n s = Slice [].
    Proof.
      intros Hnone. destruct (List_is_Slice n s) as [l Hl]. rewrite Hl.
      destruct l as [|e l]; [done|]. exfalso.
      assert (He : e ∈ elems (List order n s)) by (rewrite Hl; simpl; left).
      apply elem_of_List in He as (k & r & Hk & Hrm & <-).
      specialize (Hnone k). unfold Contains in Hnone. by rewrite Hk, Hrm in Hnone.
    Qed.

  End Order.

End SetFacts.

(** ** The graph: basic facts *)

Module GraphFacts.
  Import ElementSet SetFacts LwwGraph.

  (** The adjacency set of a key, whether or not it was created yet. *)
Definition adj (g : Graph) (k : string) : ElementSet.t :=
    default NewSet (edges g !! k).

  (** The invariant of the states that the operations build from
      [NewGraph]: records sit under the key of their element, [vertices]
      holds [Vertex] values and the adjacency sets hold [IDElement]s. *)
Definition graph_wf (g : Graph) : Prop :=
    set_wf (vertices g)
    /\ (forall k r, additions (vertices g) !! k = Some r ->
                    exists v, Elem r = VertexElement v)
    /\ (forall k s key r, edges g !! k = Some s -> additions s !! key = Some r ->
                          Elem r = IDElement key).

  (** Two graphs that no operation tells apart: [getAdjacent] reads a
      missing adjacency set as an empty one. *)
Definition graph_equiv (g g' : Graph) : Prop :=
    vertices g = vertices g' /\ forall k, adj g k = adj g' k.

Lemma graph_equiv_refl g : graph_equiv g g.
  Proof. split; reflexivity. Qed.

Lemma graph_equiv_sym g g' : graph_equiv g g' -> graph_equiv g' g.
  Proof. intros [H1 H2]. split; [done|]. intros k. by rewrite H2. Qed.

Lemma graph_equiv_trans g1 g2 g3 :
    graph_equiv g1 g2 -> graph_equiv g2 g3 -> graph_equiv g1 g3.
  Proof.
    intros [H1 H2] [H3 H4]. split; [congruence|]. intros k. by rewrite H2, H4.
  Qed.

Lemma adj_wf g k : graph_wf g -> set_wf (adj g k).
  Proof.
    intros (_ & _ & He) key r. unfold adj.
    destruct (edges g !! k) as [s|] eqn:E; simpl.
    - intros Hr. by rewrite (He _ _ _ _ E Hr).
    - by rewrite lookup_empty.
  Qed.

Lemma adj_typed g k key r :
    graph_wf g -> additions (adj g k) !! key = Some r -> Elem r = IDElement key.
  Proof.
    intros (_ & _ & He). unfold adj.
    destruct (edges g !! k) as [s|] eqn:E; simpl.
    - by apply (He k).
    - by rewrite lookup_empty.
  Qed.

  (** *** [getAdjacent] *)

Lemma getAdjacent_fst g k : (getAdjacent g k).1 = adj g k.
  Proof. unfold getAdjacent, adj. by destruct (edges g !! k). Qed.

Lemma getAdjacent_vertices g k : vertices (getAdjacent g k).2 = vertices g.
  Proof. unfold getAdjacent. by destruct (edges g !! k). Qed.

Lemma getAdjacent_adj g k k' : adj (getAdjacent g k).2 k' = adj g k'.
  Proof.
    unfold getAdjacent, adj. destruct (edges g !! k) as [s|] eqn:E; simpl; [done|].
    rewrite lookup_insert. case_decide; [subst; by rewrite E | done].
  Qed.

Lemma getAdjacent_equiv g k : graph_equiv (getAdjacent g k).2 g.
  Proof. split; [apply getAdjacent_vertices | intros k'; apply getAdjacent_adj]. Qed.

Lemma getAdjacent_edges_Some g k : edges (getAdjacent g k).2 !! k = Some (adj g k).
  Proof.
    unfold getAdjacent, adj. destruct (edges g !! k) as [s|] eqn:E; simpl; [done|].
    by rewrite lookup_insert_eq.
  Qed.

Lemma getAdjacent_wf g k : graph_wf g -> graph_wf (getAdjacent g k).2.
  Proof.
    intros Hwf. pose proof Hwf as (Hv & Ht & He).
    unfold getAdjacent. destruct (edges g !! k) as [s|] eqn:E; simpl; [done|].
    split; [done|]. split; [done|]. simpl. intros k' s' key r.
    rewrite lookup_insert. case_decide.
    - intros [= <-]. simpl. by rewrite lookup_empty.
    - apply He.
  Qed.

Lemma adj_set_adjacent k s g k' :
    adj (set_adjacent k s g) k' = if decide (k = k') then s else adj g k'.
  Proof.
    unfold adj, set_adjacent; simpl. rewrite lookup_insert.
    by case_decide.
  Qed.

  (** *** [Lookup] *)

Lemma Lookup_Ok g k v :
    Lookup g k = Ok v <-> Contains (vertices g) k = Ok (VertexElement v).
  Proof.
    unfold Lookup, ElementSet.Lookup.
    destruct (Contains (vertices g) k) as [[key|v']|e] eqn:E.
    - split; discriminate.
    - split; congruence.
    - apply Contains_Err in E as ->. split; discriminate.
  Qed.

Lemma Lookup_ext g g' k : vertices g = vertices g' -> Lookup g k = Lookup g' k.
  Proof. unfold Lookup. by intros ->. Qed.

Lemma Lookup_Err_wf g k e : graph_wf g -> Lookup g k = Err e -> e = ErrVertexNotFound.
  Proof.
    intros (_ & Ht & _). unfold Lookup, ElementSet.Lookup.
    destruct (Contains (vertices g) k) as [[key|v']|e'] eqn:E.
    - apply Contains_Ok in E as (r & Hr & He & _).
      destruct (Ht _ _ Hr) as [v Hv]. congruence.
    - discriminate.
    - apply Contains_Err in E as ->. congruence.
  Qed.

Lemma Lookup_Err_not_live g k :
    is_ok (Contains (vertices g) k) = false -> Lookup g k = Err ErrVertexNotFound.
  Proof.
    unfold Lookup, ElementSet.Lookup.
    destruct (Contains (vertices g) k) as [a|e] eqn:E; [discriminate|].
    apply Contains_Err in E as ->. done.
  Qed.

Lemma Lookup_Key g k v : graph_wf g -> Lookup g k = Ok v -> Key v = k.
  Proof.
    intros (Hv & _) H. apply Lookup_Ok in H.
    by apply (Contains_wf _ _ _ Hv) in H.
  Qed.

Lemma Lookup_Key_self g k v : graph_wf g -> Lookup g k = Ok v -> Lookup g (Key v) = Ok v.
  Proof. intros Hwf H. by rewrite (Lookup_Key _ _ _ Hwf H). Qed.

  (** *** The invariant is kept *)

Lemma graph_wf_NewGraph : graph_wf NewGraph.
  Proof.
    split; [apply set_wf_NewSet|]. split; simpl; intros *; by rewrite lookup_empty.
  Qed.

Lemma graph_wf_AddVertex now v g : graph_wf g -> graph_wf (AddVertex now v g).2.
  Proof.
    intros Hwf. pose proof Hwf as (Hv & Ht & He). unfold AddVertex.
    destruct (Lookup g (Key v)) as [?|[]]; simpl; try done.
    split; [by apply set_wf_Add|]. split; [|done].
    simpl. intros k r. rewrite lookup_insert.
    case_decide; [intros [= <-]; simpl; eauto | apply Ht].
  Qed.

Lemma graph_wf_RemoveVertex now k g : graph_wf g -> graph_wf (RemoveVertex now k g).2.
  Proof.
    intros Hwf. unfold RemoveVertex. by destruct (Lookup g k).
  Qed.

Lemma graph_wf_set_adjacent k s g :
    graph_wf g -> (forall key r, additions s !! key = Some r -> Elem r = IDElement key) ->
    graph_wf (set_adjacent k s g).
  Proof.
    intros (Hv & Ht & He) Hs. split; [done|]. split; [done|].
    simpl. intros k' s' key r. rewrite lookup_insert.
    case_decide; [intros [= <-]; apply Hs | apply He].
  Qed.

Lemma graph_wf_AddEdge now f t g : graph_wf g -> graph_wf (AddEdge now f t g).2.
  Proof.
    intros Hwf. unfold AddEdge.
    destruct (Lookup g f) as [vf|]; [|done]. destruct (Lookup g t) as [vt|]; [|done].
    destruct (getAdjacent g f) as [a g1] eqn:E. simpl.
    assert (Ha : a = adj g f) by (by rewrite <- getAdjacent_fst, E).
    assert (Hg1 : g1 = (getAdjacent g f).2) by (by rewrite E).
    apply graph_wf_set_adjacent; [subst g1; by apply getAdjacent_wf|].
    intros key r. simpl. rewrite lookup_insert. simpl.
    case_decide; [intros [= <-]; simpl; congruence|].
    subst a. by apply adj_typed.
  Qed.

Lemma graph_wf_RemoveEdge now f t g : graph_wf g -> graph_wf (RemoveEdge now f t g).2.
  Proof.
    intros Hwf. unfold RemoveEdge.
    destruct (Lookup g f) as [vf|]; [|done]. destruct (Lookup g t) as [vt|]; [|done].
    destruct (getAdjacent g f) as [a g1] eqn:E. simpl.
    assert (Ha : a = adj g f) by (by rewrite <- getAdjacent_fst, E).
    assert (Hg1 : g1 = (getAdjacent g f).2) by (by rewrite E).
    apply graph_wf_set_adjacent; [subst g1; by apply getAdjacent_wf|].
    intros key r. simpl. subst a. by apply adj_typed.
  Qed.

  (** *** [Merge] *)

Lemma merge_adjacent_vertices g entry : vertices (merge_adjacent g entry) = vertices g.
  Proof.
    destruct entry as [k ra]. unfold merge_adjacent.
    destruct (getAdjacent g k) as [a g1] eqn:E. simpl.
    change g1 with (a, g1).2. rewrite <- E. apply getAdjacent_vertices.
  Qed.

Lemma merge_adjacent_edges g k ra k' :
    edges (merge_adjacent g (k, ra)) !! k'
    = if decide (k = k') then Some (Replicate (adj g k) ra) else edges g !! k'.
  Proof.
    unfold merge_adjacent, ElementSet.Merge. destruct (getAdjacent g k) as [a g1] eqn:E. simpl.
    assert (Ha : a = adj g k) by (by rewrite <- getAdjacent_fst, E).
    rewrite lookup_insert. case_decide; [by subst|].
    change g1 with (a, g1).2. rewrite <- E.
    unfold getAdjacent. destruct (edges g !! k); simpl; [done|].
    by rewrite lookup_insert_ne.
  Qed.

Lemma fold_merge_adjacent_vertices entries g :
    vertices (fold_left merge_adjacent entries g) = vertices g.
  Proof.
    revert g. induction entries as [|en rest IH]; intros g; simpl; [done|].
    by rewrite IH, merge_adjacent_vertices.
  Qed.

Lemma fold_merge_adjacent_edges entries g k :
    NoDup entries.*1 ->
    edges (fold_left merge_adjacent entries g) !! k
    = match (list_to_map entries : gmap string ElementSet.t) !! k with
      | Some ra => Some (Replicate (adj g k) ra)
      | None => edges g !! k
      end.
  Proof.
    revert g. induction entries as [|[k' ra] rest IH]; intros g Hnd.
    - simpl. by rewrite lookup_empty.
    - rewrite fmap_cons in Hnd. apply NoDup_cons in Hnd as [Hnotin Hnd].
      cbn [fold_left]. rewrite IH by exact Hnd. rewrite list_to_map_cons.
      destruct (decide (k' = k)) as [->|Hne].
      + rewrite lookup_insert_eq.
        rewrite (not_elem_of_list_to_map_1 rest k Hnotin).
        rewrite merge_adjacent_edges. by rewrite decide_True.
      + rewrite lookup_insert_ne by exact Hne.
        destruct (list_to_map rest !! k) as [ra'|] eqn:E.
        * do 2 f_equal. unfold adj. rewrite merge_adjacent_edges.
          by rewrite decide_False.
        * rewrite merge_adjacent_edges. by rewrite decide_False.
  Qed.

Lemma Merge_in_vertices entries g remote :
    vertices (Merge_in entries g remote) = Replicate (vertices g) (vertices remote).
  Proof. unfold Merge_in. by rewrite fold_merge_adjacent_vertices. Qed.

Lemma Merge_in_edges entries g remote k :
    entries ≡ₚ map_to_list (edges remote) ->
    edges (Merge_in entries g remote) !! k
    = match edges remote !! k with
      | Some ra => Some (Replicate (adj g k) ra)
      | None => edges g !! k
      end.
  Proof.
    intros Hp. unfold Merge_in.
    assert (Hnd : NoDup entries.*1).
    { rewrite Hp. apply NoDup_fst_map_to_list. }
    rewrite fold_merge_adjacent_edges by exact Hnd.
    rewrite (list_to_map_proper _ _ Hnd Hp), list_to_map_to_list.
    reflexivity.
  Qed.

Lemma Graph_eq (g g' : Graph) :
    vertices g = vertices g' -> edges g = edges g' -> g = g'.
  Proof. destruct g, g'; simpl; congruence. Qed.

  (** The iteration order over [remote.edges] is immaterial. *)
Lemma Merge_in_order_irrelevant entries g remote :
    entries ≡ₚ map_to_list (edges remote) -> Merge_in entries g remote = Merge g remote.
  Proof.
    intros Hp. apply Graph_eq.
    - unfold Merge. by rewrite !Merge_in_vertices.
    - apply map_eq. intros k. unfold Merge.
      rewrite Merge_in_edges by exact Hp. by rewrite Merge_in_edges.
  Qed.

Lemma Merge_vertices g remote :
    vertices (Merge g remote) = Replicate (vertices g) (vertices remote).
  Proof. apply Merge_in_vertices. Qed.

Lemma Merge_edges g remote k :
    edges (Merge g remote) !! k
    = match edges remote !! k with
      | Some ra => Some (Replicate (adj g k) ra)
      | None => edges g !! k
      end.
  Proof. by apply Merge_in_edges. Qed.

Lemma Merge_adj g remote k :
    adj (Merge g remote) k = Replicate (adj g k) (adj remote k).
  Proof.
    unfold adj at 1 3. rewrite Merge_edges.
    destruct (edges remote !! k) as [ra|]; simpl; [done|].
    by rewrite Replicate_NewSet.
  Qed.

Lemma graph_wf_Merge g remote : graph_wf g -> graph_wf remote -> graph_wf (Merge g remote).
  Proof.
    intros Hg Hr. pose proof Hg as (Hv & Ht & He). pose proof Hr as (Hv' & Ht' & He').
    split; [|split].
    - rewrite Merge_vertices. by apply set_wf_Replicate.
    - intros k r. rewrite Merge_vertices, Replicate_additions. intros H.
      apply reg_join_cases in H as [H|H]; eauto.
    - intros k s key r. rewrite Merge_edges.
      destruct (edges remote !! k) as [ra|] eqn:E.
      + intros [= <-]. rewrite Replicate_additions. intros H.
        apply reg_join_cases in H as [H|H]; [by apply (adj_typed g k)|by apply (He' k ra)].
      + apply He.
  Qed.

Lemma Merge_equiv g1 g1' g2 g2' :
    graph_equiv g1 g1' -> graph_equiv g2 g2' ->
    graph_equiv (Merge g1 g2) (Merge g1' g2').
  Proof.
    intros [Hv1 Ha1] [Hv2 Ha2]. split.
    - rewrite !Merge_vertices. congruence.
    - intros k. rewrite !Merge_adj. by rewrite Ha1, Ha2.
  Qed.

End GraphFacts.

(** ** The traversals *)

Module TraversalFacts.
  Import ElementSet SetFacts LwwGraph GraphFacts.

  (** The keys of the elements stored in [vertices]: every vertex that
      [Lookup] returns has its key here. *)
Definition keyset (g : Graph) : gset string :=
    list_to_set ((fun en => GetKey (Elem en.2)) <$> map_to_list (additions (vertices g))).

Lemma size_list_to_set_le (l : list string) :
    (size (list_to_set l : gset string) <= length l)%nat.
  Proof.
    induction l as [|a l IH].
    - rewrite list_to_set_nil, size_empty. simpl. lia.
    - rewrite list_to_set_cons, size_union_alt, size_singleton. simpl.
      assert (size (list_to_set l ∖ {[a]} : gset string)
              <= size (list_to_set l : gset string))%nat
        by (apply subseteq_size; set_solver).
      lia.
  Qed.

Lemma keyset_size g : (size (keyset g) <= size (additions (vertices g)))%nat.
  Proof.
    unfold keyset. etrans; [apply size_list_to_set_le|].
    by rewrite length_fmap, length_map_to_list.
  Qed.

Lemma Lookup_keyset g k v : Lookup g k = Ok v -> Key v ∈ keyset g.
  Proof.
    intros H%Lookup_Ok. apply Contains_Ok in H as (r & Hr & He & _).
    unfold keyset. apply elem_of_list_to_set, list_elem_of_fmap.
    exists (k, r). split; [simpl; by rewrite He|]. by apply elem_of_map_to_list.
  Qed.

Lemma keyset_ext g g' : vertices g = vertices g' -> keyset g = keyset g'.
  Proof. unfold keyset. by intros ->. Qed.

Lemma size_difference_insert (K V : gset string) x :
    x ∈ K -> x ∉ V -> size (K ∖ V) = S (size (K ∖ ({[x]} ∪ V))).
  Proof.
    intros HK HV.
    assert (HE : K ∖ V = {[x]} ∪ K ∖ ({[x]} ∪ V)).
    { apply set_eq. intros y. rewrite elem_of_union, !elem_of_difference,
        elem_of_union, elem_of_singleton.
      destruct (decide (y = x)) as [->|]; naive_solver. }
    rewrite HE, size_union by set_solver. by rewrite size_singleton.
  Qed.

  Section Order.
    Variable order : nat -> list (string * addRecord) -> list (string * addRecord).

Lemma adjacent_list_eq (g : Graph) (n : nat) (k : string) :
      adjacent_list order (g, n) k
      = (elems (ElementSet.List order n (adj g k)), ((getAdjacent g k).2, S n)).
    Proof.
      unfold adjacent_list. rewrite <- getAdjacent_fst.
      by destruct (getAdjacent g k).
    Qed.

    (** *** Termination of the breadth-first loop *)

Lemma connect_range_measure g K adjl : forall vars vars',
      (forall k v, Lookup g k = Ok v -> Key v ∈ K) ->
      connect_range g adjl vars = Ok vars' ->
      visited vars ⊆ K ->
      visited vars' ⊆ K
      /\ (length (queue vars') + size (K ∖ visited vars')
          = length (queue vars) + size (K ∖ visited vars))%nat.
    Proof.
      induction adjl as [|e rest IH]; intros vars vars' HK Hrun Hsub; simpl in Hrun.
      - injection Hrun as <-. done.
      - destruct (Lookup g (GetKey e)) as [vertex|err] eqn:EL.
        + destruct (decide (Key vertex ∈ visited vars)) as [Hin|Hnin].
          * by apply IH.
          * assert (HinK : Key vertex ∈ K) by (by eapply HK).
            apply IH in Hrun; [|done|simpl; set_solver].
            destruct Hrun as [Hs Hm]. split; [done|]. rewrite Hm. simpl.
            rewrite length_app. simpl.
            rewrite (size_difference_insert K (visited vars) (Key vertex)) by done.
            lia.
        + destruct err; try discriminate. by apply IH.
    Qed.

Lemma bfs_loop_terminates fuel : forall (g : Graph) (n : nat) vars,
      visited vars ⊆ keyset g ->
      (length (queue vars) + size (keyset g ∖ visited vars) < fuel)%nat ->
      exists r st', bfs_loop order fuel (g, n) vars = Some (r, st').
    Proof.
      induction fuel as [|fuel IH]; intros g n vars Hsub Hm; [lia|].
      cbn [bfs_loop]. destruct (queue vars) as [|current queue'] eqn:EQ; [eauto|].
      rewrite adjacent_list_eq. cbn [fst].
      set (g1 := (getAdjacent g (Key current)).2).
      assert (Hv : vertices g1 = vertices g) by apply getAdjacent_vertices.
      match goal with |- context [connect_range g1 ?l ?v] =>
        destruct (connect_range g1 l v) as [vars'|e] eqn:EC end; [|eauto].
      apply (connect_range_measure g1 (keyset g)) in EC as [Hs' Hm'];
        [| intros k v Hl; rewrite <- (keyset_ext g1 g Hv); by eapply Lookup_keyset
         | done].
      simpl in Hm'. simpl in Hm.
      apply IH; rewrite (keyset_ext g1 g Hv); [done|lia].
    Qed.

Lemma bfs_loop_mono fuel : forall fuel' st vars x,
      bfs_loop order fuel st vars = Some x -> (fuel <= fuel')%nat ->
      bfs_loop order fuel' st vars = Some x.
    Proof.
      induction fuel as [|fuel IH]; intros fuel' st vars x H Hle; [discriminate|].
      destruct fuel' as [|fuel']; [lia|]. cbn [bfs_loop] in *.
      destruct (queue vars) as [|current queue']; [done|].
      destruct (adjacent_list order st (Key current)) as [adjacent st1].
      match goal with |- context [connect_range ?g ?l ?v] =>
        destruct (connect_range g l v) as [vars'|e] end; [|done].
      apply IH; [done|lia].
    Qed.

Lemma FindConnected_terminates fuel (g : Graph) (n : nat) key :
      (size (additions (vertices g)) + 2 <= fuel)%nat ->
      exists r st', FindConnected order fuel (g, n) key = Some (r, st').
    Proof.
      intros Hf. unfold FindConnected. cbn [fst].
      destruct (Lookup g key) as [start|e]; [|eauto].
      apply bfs_loop_terminates; simpl; [set_solver|].
      pose proof (keyset_size g).
      assert (size (keyset g ∖ ∅) <= size (keyset g))%nat
        by (apply subseteq_size; set_solver).
      lia.
    Qed.

Lemma FindConnected_mono fuel fuel' st key x :
      FindConnected order fuel st key = Some x -> (fuel <= fuel')%nat ->
      FindConnected order fuel' st key = Some x.
    Proof.
      unfold FindConnected. destruct st as [g n]. cbn [fst].
      destruct (Lookup g key); [|done].
      apply bfs_loop_mono.
    Qed.

    (** *** Termination of the depth-first search *)

    Section Dfs.
      Variable g0 : Graph.

      (** What a call leaves behind: [visited] grew inside the key set and
          the vertices are the same. *)
Definition dfs_post (ds ds' : dfs_state) : Prop :=
        ds.2 ⊆ ds'.2 /\ ds'.2 ⊆ keyset g0 /\ vertices ds'.1.1 = vertices g0.

Lemma dfs_post_refl ds :
        ds.2 ⊆ keyset g0 -> vertices ds.1.1 = vertices g0 -> dfs_post ds ds.
      Proof. intros H1 H2. split; [reflexivity|]. by split. Qed.

Lemma findPath_range_terminates recurse searchKey (V1 : gset string) :
        (forall v p (ds : dfs_state), Key v ∈ keyset g0 -> V1 ⊆ ds.2 -> ds.2 ⊆ keyset g0 ->
                        vertices ds.1.1 = vertices g0 ->
                        exists r ds', recurse v p ds = Some (r, ds') /\ dfs_post ds ds') ->
        forall adjl cp (ds : dfs_state),
          V1 ⊆ ds.2 -> ds.2 ⊆ keyset g0 -> vertices ds.1.1 = vertices g0 ->
          exists r ds', findPath_range recurse searchKey cp adjl ds = Some (r, ds')
                        /\ dfs_post ds ds'.
      Proof.
        intros Hrec. induction adjl as [|e rest IH]; intros cp [[g n] vis] HV HK Hvs.
        - exists (Err ErrPathNotFound), (g, n, vis). split; [done|by apply dfs_post_refl].
        - cbn [findPath_range fst]. cbn [fst snd] in HV, HK, Hvs.
          destruct (Lookup g (GetKey e)) as [vertex|err] eqn:EL.
          + destruct (decide (Key vertex = searchKey)).
            { eexists _, (g, n, vis). split; [done|by apply dfs_post_refl]. }
            assert (HinK : Key vertex ∈ keyset g0).
            { rewrite <- (keyset_ext g g0 Hvs). by eapply Lookup_keyset. }
            destruct (Hrec vertex (append cp vertex) (g, n, vis) HinK HV HK Hvs)
              as (r & ds' & -> & Hs1 & Hs2 & Hs3).
            assert (Hdone : exists r0 ds0, Some (r, ds') = Some (r0, ds0)
                                           /\ dfs_post (g, n, vis) ds0)
              by (eexists _, _; split; [done|by split]).
            destruct r as [path|err]; [exact Hdone|].
            destruct err; try exact Hdone.
            destruct (IH cp ds') as (r' & ds'' & -> & Ht1 & Ht2 & Ht3);
              [set_solver|done|done|].
            eexists _, _. split; [done|]. split; [set_solver|by split].
          + destruct err; try (eexists _, (g, n, vis); split; [done|by apply dfs_post_refl]).
            by apply IH.
      Qed.

Lemma findPath_terminates searchKey fuel : forall start cp ds,
        Key start ∈ keyset g0 -> ds.2 ⊆ keyset g0 -> vertices ds.1.1 = vertices g0 ->
        (size (keyset g0 ∖ ds.2) < fuel)%nat ->
        exists r ds', findPath order fuel searchKey start cp ds = Some (r, ds')
                      /\ dfs_post ds ds'.
      Proof.
        induction fuel as [|fuel IH]; intros start cp [[g n] vis] HinK HK Hvs Hm; [lia|].
        cbn [findPath]. simpl in HK, Hvs, Hm.
        destruct (decide (Key start ∈ vis)) as [Hin|Hnin].
        { eexists _, _. split; [done|]. by apply dfs_post_refl. }
        rewrite adjacent_list_eq.
        rewrite (size_difference_insert _ _ _ HinK Hnin) in Hm.
        destruct (findPath_range_terminates (findPath order fuel searchKey) searchKey
                     ({[Key start]} ∪ vis)) with
          (adjl := elems (ElementSet.List order n (adj g (Key start))))
          (cp := cp)
          (ds := ((getAdjacent g (Key start)).2, S n, {[Key start]} ∪ vis))
          as (r & ds' & Hrun & Hp1 & Hp2 & Hp3).
        - intros v p ds Hv HV HK' Hvs'. apply IH; [done..|].
          assert (size (keyset g0 ∖ ds.2) <= size (keyset g0 ∖ ({[Key start]} ∪ vis)))%nat
            by (apply subseteq_size; set_solver).
          lia.
        - simpl. reflexivity.
        - simpl. set_solver.
        - simpl. by rewrite getAdjacent_vertices.
        - rewrite Hrun. eexists _, _. split; [done|].
          simpl in *. split; [set_solver|by split].
      Qed.

    End Dfs.

Lemma findPath_range_mono recurse recurse' searchKey :
      (forall v p ds x, recurse v p ds = Some x -> recurse' v p ds = Some x) ->
      forall adjl cp ds x,
        findPath_range recurse searchKey cp adjl ds = Some x ->
        findPath_range recurse' searchKey cp adjl ds = Some x.
    Proof.
      intros Hrec. induction adjl as [|e rest IH]; intros cp [[g n] vis] x; [done|].
      cbn [findPath_range fst].
      destruct (Lookup g (GetKey e)) as [vertex|err].
      - destruct (decide (Key vertex = searchKey)); [done|].
        destruct (recurse vertex (append cp vertex) (g, n, vis)) as [[r ds']|] eqn:ER;
          [|done].
        rewrite (Hrec _ _ _ _ ER).
        destruct r as [path|err]; [done|]. destruct err; try done. apply IH.
      - destruct err; try done. apply IH.
    Qed.

Lemma findPath_mono searchKey fuel : forall fuel' start cp ds x,
      findPath order fuel searchKey start cp ds = Some x -> (fuel <= fuel')%nat ->
      findPath order fuel' searchKey start cp ds = Some x.
    Proof.
      induction fuel as [|fuel IH]; intros fuel' start cp [st vis] x H Hle; [discriminate|].
      destruct fuel' as [|fuel']; [lia|]. cbn [findPath] in *.
      destruct (decide (Key start ∈ vis)); [done|].
      destruct (adjacent_list order st (Key start)) as [adjacent st1].
      eapply findPath_range_mono; [|exact H].
      intros v p ds y Hy. apply IH; [done|lia].
    Qed.

Lemma FindPath_terminates fuel (g : Graph) (n : nat) fromKey toKey :
      (size (additions (vertices g)) + 2 <= fuel)%nat ->
      exists r st', FindPath order fuel (g, n) fromKey toKey = Some (r, st').
    Proof.
      intros Hf. unfold FindPath. cbn [fst].
      destruct (Lookup g fromKey) as [start|e] eqn:EL; [|eauto].
      destruct (Lookup g toKey) as [target|e]; [|eauto].
      destruct (findPath_terminates g toKey fuel start (Slice [start]) ((g, n), ∅))
        as (r & [st' vis'] & -> & _); simpl; [by eapply Lookup_keyset|set_solver|done| |eauto].
      pose proof (keyset_size g).
      assert (size (keyset g ∖ ∅) <= size (keyset g))%nat
        by (apply subseteq_size; set_solver).
      lia.
    Qed.

Lemma FindPath_mono fuel fuel' st fromKey toKey x :
      FindPath order fuel st fromKey toKey = Some x -> (fuel <= fuel')%nat ->
      FindPath order fuel' st fromKey toKey = Some x.
    Proof.
      unfold FindPath. destruct st as [g n]. cbn [fst].
      destruct (Lookup g fromKey) as [start|]; [|done].
      destruct (Lookup g toKey); [|done].
      destruct (findPath order fuel toKey start (Slice [start]) (g, n, ∅)) as [y|] eqn:E;
        [|done].
      intros H Hle. by rewrite (findPath_mono _ _ _ _ _ _ _ E Hle).
    Qed.

  End Order.
End TraversalFacts.

(** ** The order on keys *)

Module KeyOrder.

Definition str_lt (a b : string) : Prop := String.ltb a b = true.

Lemma str_le_cases a b : str_le a b <-> String.compare a b = Lt \/ a = b.
Proof.
  unfold str_le, String.leb. split.
  - destruct (String.compare a b) eqn:E; [|by left|discriminate].
    intros _. right. by apply String.compare_eq_iff.
  - intros [->| ->]; [done|].
    assert (E : String.compare b b = Eq) by (by apply String_as_OT.cmp_eq).
    by rewrite E.
Qed.

Lemma str_lt_compare a b : str_lt a b <-> String.compare a b = Lt.
Proof.
  unfold str_lt, String.ltb. destruct (String.compare a b); split; congruence.
Qed.

Lemma compare_Lt_trans a b c :
  String.compare a b = Lt -> String.compare b c = Lt -> String.compare a c = Lt.
Proof.
  intros H1 H2. apply String_as_OT.cmp_lt.
  eapply String_as_OT.lt_trans; apply String_as_OT.cmp_lt; eassumption.
Qed.

#[global] Instance str_le_trans : Transitive str_le.
Proof.
  intros a b c Hab Hbc. apply str_le_cases in Hab, Hbc. apply str_le_cases.
  destruct Hab as [Hab| ->], Hbc as [Hbc| ->]; eauto using compare_Lt_trans.
Qed.

#[global] Instance str_le_total : Total str_le.
Proof. intros a b. apply String.leb_total. Qed.

#[global] Instance str_le_antisym : AntiSymm (=) str_le.
Proof. intros a b. apply String.leb_antisym. Qed.

#[global] Instance key_le_trans : Transitive key_le.
Proof. intros a b c. unfold key_le. apply str_le_trans. Qed.

#[global] Instance key_le_total : Total key_le.
Proof. intros a b. unfold key_le. apply str_le_total. Qed.


Lemma str_lt_irrefl a : ~ str_lt a a.
Proof.
  intros H%str_lt_compare.
  assert (E : String.compare a a = Eq) by (by apply String_as_OT.cmp_eq).
  congruence.
Qed.

(** Sorting two lists with the same entries gives the same list. *)
Lemma sort_Strings_perm l l' : l ≡ₚ l' -> sort_Strings l = sort_Strings l'.
Proof.
  intros Hp. unfold sort_Strings. apply (Sorted_unique str_le).
  - apply Sorted_merge_sort; apply _.
  - apply Sorted_merge_sort; apply _.
  - by rewrite !merge_sort_Permutation.
Qed.



(** Elements with pairwise distinct keys have one sorted arrangement. *)
Lemma sorted_by_key_unique l l' :
  l ≡ₚ l' -> NoDup (GetKey <$> l) -> sort_by_key l = sort_by_key l'.
Proof.
  intros Hp Hnd. unfold sort_by_key.
  apply (StronglySorted_unique_strong key_le).
  - intros x1 x2 H1 H2 Hle1 Hle2.
    assert (Hk : GetKey x1 = GetKey x2) by (by apply (anti_symm str_le)).
    rewrite merge_sort_Permutation in H1. rewrite merge_sort_Permutation, <- Hp in H2.
    apply list_elem_of_lookup in H1 as [i Hi], H2 as [j Hj].
    assert (i = j).
    { eapply NoDup_lookup; [exact Hnd| |]; rewrite list_lookup_fmap.
      - by rewrite Hi.
      - rewrite Hj. simpl. by rewrite Hk. }
    congruence.
  - apply StronglySorted_merge_sort; apply _.
  - apply StronglySorted_merge_sort; apply _.
  - by rewrite !merge_sort_Permutation.
Qed.


End KeyOrder.

(** ** [Graph.List] *)

Module ListFacts.
Import ElementSet SetFacts LwwGraph GraphFacts TraversalFacts KeyOrder.

(** The elements a set lists, in the enumeration order of the map. *)
Definition live_elements (s : ElementSet.t) : list Element :=
  elems (List_in (map_to_list (additions s)) s).

(** The sorted keys of the elements a set lists. *)
Definition adjacent_keys (s : ElementSet.t) : list string :=
  sort_Strings (GetKey <$> live_elements s).

(** The entry of [List] for a listed element of the vertices set. *)
Definition vertex_entry (g : Graph) (e : Element) : option VertexWithEdges :=
  match e with
  | VertexElement v =>
      Some {| vertex := v; AdjacentKeys := Slice (adjacent_keys (adj g (Key v))) |}
  | IDElement _ => None
  end.

(** The value of [List], computed from the two maps alone. *)
Definition snapshot (g : Graph) : list VertexWithEdges :=
  omap (vertex_entry g) (sort_by_key (live_elements (vertices g))).

Lemma live_elements_eq s :
  live_elements s
  = (fun en => Elem en.2) <$>
      filter (fun en => removed s en.2 = false) (map_to_list (additions s)).
Proof. unfold live_elements. by rewrite List_in_eq. Qed.

Lemma elem_of_live_elements s e :
  e ∈ live_elements s <->
  exists k r, additions s !! k = Some r /\ removed s r = false /\ Elem r = e.
Proof.
  rewrite live_elements_eq, list_elem_of_fmap. split.
  - intros ([k r] & -> & Hin). apply list_elem_of_filter in Hin as [Hrm Hin].
    apply elem_of_map_to_list in Hin. simpl in *. eauto.
  - intros (k & r & Hk & Hrm & <-). exists (k, r). split; [done|].
    apply list_elem_of_filter. split; [done|]. by apply elem_of_map_to_list.
Qed.

Lemma elem_of_live_elements_wf s e :
  set_wf s -> e ∈ live_elements s <-> Contains s (GetKey e) = Ok e.
Proof.
  intros Hwf. rewrite elem_of_live_elements, Contains_Ok. split.
  - intros (k & r & Hk & Hrm & <-). exists r. by rewrite (Hwf _ _ Hk).
  - intros (r & Hk & <- & Hrm). eauto.
Qed.


Lemma fold_append_keys (l : list Element) (acc : list string) :
  fold_left (fun ks adjacentKey => append ks (GetKey adjacentKey)) l (Slice acc)
  = Slice (acc ++ (GetKey <$> l)).
Proof.
  revert acc. induction l as [|e l IH]; intros acc; simpl.
  - by rewrite app_nil_r.
  - unfold append at 2. simpl. rewrite IH. by rewrite <- app_assoc.
Qed.

Section Order.
Variable order : nat -> list (string * addRecord) -> list (string * addRecord).
Hypothesis order_perm : forall n l, order n l ≡ₚ l.

Lemma List_live_elements n s : elems (ElementSet.List order n s) ≡ₚ live_elements s.
Proof. rewrite live_elements_eq. by apply List_perm. Qed.

Lemma list_range_spec g0 :
  graph_wf g0 ->
  forall vs (g : Graph) (n : nat) acc,
    graph_equiv g g0 ->
    (forall e, e ∈ vs -> Contains (vertices g0) (GetKey e) = Ok e) ->
    exists g' n',
      list_range order vs (g, n) (Slice acc)
      = (Ok (Slice (acc ++ omap (vertex_entry g0) vs)), (g', n'))
      /\ graph_equiv g' g0.
Proof.
  intros Hwf. pose proof Hwf as (Hv & Ht & _).
  induction vs as [|e vs IH]; intros g n acc Heq Hlive.
  - simpl. rewrite app_nil_r. eauto.
  - assert (He : Contains (vertices g0) (GetKey e) = Ok e) by (apply Hlive; left).
    pose proof He as He'. apply Contains_Ok in He' as (r & Hr & Hre & _).
    destruct (Ht _ _ Hr) as [v Hvx].
    assert (Hev : e = VertexElement v) by congruence.
    clear r Hr Hre Hvx. subst e.
    cbn [list_range fst]. destruct Heq as [Hvs Hadj].
    assert (HL : Lookup g (Key v) = Ok v).
    { apply Lookup_Ok. rewrite Hvs. exact He. }
    simpl GetKey. rewrite HL, adjacent_list_eq.
    rewrite fold_append_keys. cbn [app elems].
    rewrite Hadj.
    rewrite (sort_Strings_perm _ (GetKey <$> live_elements (adj g0 (Key v))))
      by (apply fmap_Permutation, List_live_elements).
    unfold append at 1. cbn [elems].
    destruct (IH (getAdjacent g (Key v)).2 (S n)
                 (acc ++ [{| vertex := v; AdjacentKeys := Slice (adjacent_keys (adj g0 (Key v))) |}]))
      as (g' & n' & Hrun & Heq').
    + eapply graph_equiv_trans; [apply getAdjacent_equiv|]. by split.
    + intros e' He'. apply Hlive. by right.
    + exists g', n'. split; [|done].
      unfold adjacent_keys in *. simpl elems in Hrun. rewrite Hrun.
      simpl omap. by rewrite <- app_assoc.
Qed.

Lemma List_snapshot (g : Graph) (n : nat) :
  graph_wf g ->
  exists g' n',
    LwwGraph.List order (g, n) = (Ok (Slice (snapshot g)), (g', n'))
    /\ graph_equiv g' g.
Proof.
  intros Hwf. pose proof Hwf as (Hv & _). unfold LwwGraph.List.
  rewrite (sorted_by_key_unique _ (live_elements (vertices g)));
    [|apply List_live_elements|by apply List_keys_NoDup].
  destruct (list_range_spec g Hwf (sort_by_key (live_elements (vertices g))) g (S n) [])
    as (g' & n' & Hrun & Heq).
  - apply graph_equiv_refl.
  - intros e He. unfold sort_by_key in He. rewrite merge_sort_Permutation in He.
    by apply elem_of_live_elements_wf.
  - exists g', n'. by rewrite Hrun.
Qed.

Lemma List_no_live_vertex (g : Graph) (n : nat) :
  (forall k, is_ok (Contains (vertices g) k) = false) ->
  LwwGraph.List order (g, n) = (Ok (Slice []), (g, S n)).
Proof.
  intros Hnone. unfold LwwGraph.List.
  by rewrite (List_nothing_live order order_perm n _ Hnone).
Qed.

End Order.

(** *** What the snapshot holds *)

Lemma omap_pointwise {A B} (f f' : A -> option B) (l : list A) :
  (forall x, f x = f' x) -> omap f l = omap f' l.
Proof.
  intros H. induction l as [|x l IH]; [done|]. cbn. by rewrite H, IH.
Qed.

Lemma snapshot_equiv g g' : graph_equiv g g' -> snapshot g = snapshot g'.
Proof.
  intros [Hv Ha]. unfold snapshot. rewrite Hv. apply omap_pointwise.
  intros [k|v]; simpl; [done|]. by rewrite Ha.
Qed.

Lemma graph_wf_equiv g g' : graph_equiv g' g -> graph_wf g -> graph_wf g'.
Proof.
  intros [Hv Ha] Hwf. pose proof Hwf as (H1 & H2 & H3).
  split; [by rewrite Hv|]. split; [by rewrite Hv|].
  intros k s' key r Hk Hr.
  apply (adj_typed g k key r Hwf). rewrite <- Ha. unfold adj. by rewrite Hk.
Qed.











Lemma list_range_Slice order vs : forall st acc r st',
  list_range order vs st (Slice acc) = (Ok r, st') -> exists l, r = Slice l.
Proof.
  induction vs as [|e vs IH]; intros [g n] acc r st'; cbn [list_range fst].
  - intros [= <- _]. eauto.
  - destruct (Lookup g (GetKey e)) as [v|err]; [|discriminate].
    destruct (adjacent_list order (g, n) (Key v)) as [adjacent st1].
    unfold append at 1. apply IH.
Qed.

End ListFacts.

(** ** What the breadth-first traversal returns *)

Module ConnectedFacts.
Import ElementSet SetFacts LwwGraph GraphFacts TraversalFacts KeyOrder ListFacts.

(** [target g k w]: the adjacency set of [k] lists an element whose key
    resolves, in the vertices set, to the vertex [w].  A listed key whose
    vertex does not resolve is the target of nothing. *)
Definition target (g : Graph) (k : string) (w : Vertex) : Prop :=
  exists e, e ∈ live_elements (adj g k) /\ Lookup g (GetKey e) = Ok w.

(** [reach g k w]: [w] is at the end of a chain of one or more targets that
    starts at the key [k]; every vertex on the chain resolves. *)
Inductive reach (g : Graph) (k : string) : Vertex -> Prop :=
| reach_first w : target g k w -> reach g k w
| reach_next u w : reach g k u -> target g (Key u) w -> reach g k w.

Lemma target_live g k w : graph_wf g -> target g k w -> Lookup g (Key w) = Ok w.
Proof. intros Hwf (e & _ & He). by eapply Lookup_Key_self. Qed.

Lemma reach_live g k w : graph_wf g -> reach g k w -> Lookup g (Key w) = Ok w.
Proof. intros Hwf [w' H|u w' _ H]; by eapply target_live. Qed.

(** The invariant of the breadth-first loop, for the traversal that starts
    at the vertex [s0] of the graph [g0]. *)
Definition bfs_inv (g0 : Graph) (s0 : Vertex) (vars : bfs_vars) : Prop :=
  exists conn,
    connected vars = Slice conn
    /\ (forall x, x ∈ visited vars <-> x ∈ Key <$> conn)
    /\ NoDup (Key <$> conn)
    /\ (forall w, w ∈ conn -> reach g0 (Key s0) w)
    /\ (forall u, u ∈ queue vars -> u = s0 \/ u ∈ conn)
    /\ (forall u, u = s0 \/ u ∈ conn -> u ∉ queue vars ->
                  forall w, target g0 (Key u) w -> w ∈ conn).

Lemma connect_range_spec g adjl :
  (forall e err, e ∈ adjl -> Lookup g (GetKey e) = Err err -> err = ErrVertexNotFound) ->
  forall vars conn,
    connected vars = Slice conn ->
    exists vars' new,
      connect_range g adjl vars = Ok vars'
      /\ visited vars' = visited vars ∪ list_to_set (Key <$> new)
      /\ connected vars' = Slice (conn ++ new)
      /\ queue vars' = queue vars ++ new
      /\ NoDup (Key <$> new)
      /\ (forall w, w ∈ new ->
                    (Key w ∉ visited vars)
                    /\ (exists e, e ∈ adjl /\ Lookup g (GetKey e) = Ok w))
      /\ (forall e w, e ∈ adjl -> Lookup g (GetKey e) = Ok w ->
                      Key w ∈ visited vars \/ Key w ∈ Key <$> new).
Proof.
  induction adjl as [|e rest IH]; intros Herr vars conn Hconn.
  - exists vars, []. simpl. rewrite !app_nil_r. split_and!; try done.
    + set_solver.
    + constructor.
    + intros w Hw. by apply elem_of_nil in Hw.
    + intros e w He. by apply elem_of_nil in He.
  - assert (Herr' : forall e0 err, e0 ∈ rest -> Lookup g (GetKey e0) = Err err ->
                                   err = ErrVertexNotFound).
    { intros e0 err He0. apply Herr. by right. }
    cbn [connect_range].
    destruct (Lookup g (GetKey e)) as [vertex|err] eqn:EL.
    + destruct (decide (Key vertex ∈ visited vars)) as [Hin|Hnin].
      * destruct (IH Herr' vars conn Hconn)
          as (vars' & new & Hrun & Hvis & Hc & Hq & Hnd & Hnew & Hall).
        exists vars', new. split_and!; try done.
        -- intros w Hw. destruct (Hnew w Hw) as [Hnv (e0 & He0 & HL)].
           split; [done|]. exists e0. split; [by right|done].
        -- intros e0 w He0 HL. apply elem_of_cons in He0 as [->|He0]; [|by eapply Hall].
           left. congruence.
      * destruct (IH Herr'
                    {| visited := {[Key vertex]} ∪ visited vars;
                       connected := append (connected vars) vertex;
                       queue := queue vars ++ [vertex] |}
                    (conn ++ [vertex]))
          as (vars' & new & Hrun & Hvis & Hc & Hq & Hnd & Hnew & Hall).
        { simpl. by rewrite Hconn. }
        simpl in Hvis, Hq.
        exists vars', (vertex :: new). split_and!.
        -- done.
        -- rewrite Hvis. rewrite fmap_cons, list_to_set_cons. set_solver.
        -- rewrite Hc. by rewrite <- app_assoc.
        -- rewrite Hq. by rewrite <- app_assoc.
        -- rewrite fmap_cons. apply NoDup_cons. split; [|done].
           intros Hk. apply list_elem_of_fmap in Hk as (w & Hkw & Hw).
           destruct (Hnew w Hw) as [Hnv _]. apply Hnv. simpl. rewrite <- Hkw. set_solver.
        -- intros w Hw. apply elem_of_cons in Hw as [->|Hw].
           ++ split; [done|]. exists e. split; [by left|done].
           ++ destruct (Hnew w Hw) as [Hnv (e0 & He0 & HL)]. split.
              ** simpl in Hnv. set_solver.
              ** exists e0. split; [by right|done].
        -- intros e0 w He0 HL. rewrite fmap_cons.
           apply elem_of_cons in He0 as [->|He0].
           ++ right. apply elem_of_cons. left. congruence.
           ++ destruct (Hall e0 w He0 HL) as [Hv|Hn].
              ** simpl in Hv. apply elem_of_union in Hv as [Hv|Hv]; [|by left].
                 right. apply elem_of_cons. left. set_solver.
              ** right. by right.
    + assert (err = ErrVertexNotFound) as -> by (eapply Herr; [by left|done]).
      destruct (IH Herr' vars conn Hconn)
        as (vars' & new & Hrun & Hvis & Hc & Hq & Hnd & Hnew & Hall).
      exists vars', new. split_and!; try done.
      * intros w Hw. destruct (Hnew w Hw) as [Hnv (e0 & He0 & HL)].
        split; [done|]. exists e0. split; [by right|done].
      * intros e0 w He0 HL. apply elem_of_cons in He0 as [->|He0]; [congruence|].
        by eapply Hall.
Qed.

Section Order.
Variable order : nat -> list (string * addRecord) -> list (string * addRecord).
Hypothesis order_perm : forall n l, order n l ≡ₚ l.

Lemma bfs_inv_step g0 s0 (g : Graph) (n : nat) vars current queue' :
  graph_wf g0 -> graph_equiv g g0 ->
  bfs_inv g0 s0 vars -> queue vars = current :: queue' ->
  exists vars',
    connect_range (getAdjacent g (Key current)).2
      (elems (ElementSet.List order n (adj g (Key current))))
      {| visited := visited vars; connected := connected vars; queue := queue' |}
    = Ok vars'
    /\ bfs_inv g0 s0 vars'.
Proof.
  intros Hwf [Hvs Hadj] (conn & Hc & Hvis & Hnd & Hreach & Hq & Hclosed) HQ.
  set (g1 := (getAdjacent g (Key current)).2).
  assert (Hv1 : vertices g1 = vertices g0).
  { unfold g1. by rewrite getAdjacent_vertices. }
  assert (HL : forall k, Lookup g1 k = Lookup g0 k) by (intros k; by apply Lookup_ext).
  assert (Hmem : forall e, e ∈ elems (ElementSet.List order n (adj g (Key current)))
                           <-> e ∈ live_elements (adj g0 (Key current))).
  { intros e. by rewrite (List_live_elements order order_perm), Hadj. }
  destruct (connect_range_spec g1
              (elems (ElementSet.List order n (adj g (Key current))))) with
    (vars := {| visited := visited vars; connected := connected vars; queue := queue' |})
    (conn := conn)
    as (vars' & new & Hrun & Hvis' & Hc' & Hq' & Hnd' & Hnew & Hall).
  { intros e err _ He. rewrite HL in He. by eapply Lookup_Err_wf. }
  { done. }
  simpl in Hvis', Hq', Hnew, Hall.
  exists vars'. split; [exact Hrun|].
  assert (Hcur : current = s0 \/ current ∈ conn).
  { apply Hq. rewrite HQ. by left. }
  assert (Htarget : forall w, w ∈ new -> target g0 (Key current) w).
  { intros w Hw. destruct (Hnew w Hw) as [_ (e & He & HLe)].
    exists e. split; [by apply Hmem|]. by rewrite <- HL. }
  assert (Hreach_cur : forall w, target g0 (Key current) w -> reach g0 (Key s0) w).
  { intros w Hw. destruct Hcur as [->|Hcur]; [by apply reach_first|].
    eapply reach_next; [by apply Hreach|done]. }
  exists (conn ++ new). split_and!.
  - exact Hc'.
  - intros x. rewrite Hvis', fmap_app, elem_of_app, elem_of_union, elem_of_list_to_set.
    by rewrite Hvis.
  - rewrite fmap_app. apply NoDup_app. split_and!; [done| |done].
    intros x Hx Hx'. apply list_elem_of_fmap in Hx' as (w & -> & Hw).
    destruct (Hnew w Hw) as [Hnv _]. apply Hnv. by apply Hvis.
  - intros w Hw. apply elem_of_app in Hw as [Hw|Hw]; [by apply Hreach|].
    by apply Hreach_cur, Htarget.
  - intros u Hu. rewrite Hq' in Hu. apply elem_of_app in Hu as [Hu|Hu].
    + destruct (Hq u) as [->|Hin]; [rewrite HQ; by right|by left|].
      right. apply elem_of_app. by left.
    + right. apply elem_of_app. by right.
  - intros u Hu Hnq w Hw. rewrite Hq' in Hnq.
    apply not_elem_of_app in Hnq as [Hnq Hnn].
    assert (Hu' : u = s0 \/ u ∈ conn).
    { destruct Hu as [->|Hu]; [by left|].
      apply elem_of_app in Hu as [Hu|Hu]; [by right|done]. }
    destruct (decide (u = current)) as [->|Hne].
    + destruct Hw as (e & He & HLe).
      assert (Hlive : Lookup g0 (Key w) = Ok w) by (by eapply Lookup_Key_self).
      destruct (Hall e w) as [Hv|Hn]; [by apply Hmem|by rewrite HL| |].
      * apply Hvis in Hv. apply list_elem_of_fmap in Hv as (w' & Hk & Hw').
        pose proof (reach_live _ _ _ Hwf (Hreach w' Hw')) as Hlive'.
        rewrite <- Hk, Hlive in Hlive'. injection Hlive' as ->.
        apply elem_of_app. by left.
      * apply list_elem_of_fmap in Hn as (w' & Hk & Hw').
        pose proof (target_live _ _ _ Hwf (Htarget w' Hw')) as Hlive'.
        rewrite <- Hk, Hlive in Hlive'. injection Hlive' as ->.
        apply elem_of_app. by right.
    + apply elem_of_app. left. apply (Hclosed u Hu'); [|done].
      rewrite HQ. intros Hin. apply elem_of_cons in Hin as [?|?]; done.
Qed.

Lemma bfs_loop_correct g0 s0 :
  graph_wf g0 ->
  forall fuel (g : Graph) (n : nat) vars r st',
    graph_equiv g g0 -> bfs_inv g0 s0 vars ->
    bfs_loop order fuel (g, n) vars = Some (r, st') ->
    exists conn,
      r = Ok (Slice conn)
      /\ NoDup (Key <$> conn)
      /\ (forall w, w ∈ conn <-> reach g0 (Key s0) w)
      /\ graph_equiv st'.1 g0.
Proof.
  intros Hwf. induction fuel as [|fuel IH]; intros g n vars r st' Heq Hinv Hrun;
    [discriminate|].
  cbn [bfs_loop] in Hrun. destruct (queue vars) as [|current queue'] eqn:HQ.
  - injection Hrun as <- <-.
    destruct Hinv as (conn & Hc & Hvis & Hnd & Hreach & Hq & Hclosed).
    exists conn. split_and!; [by rewrite Hc|done| |exact Heq].
    intros w. split; [by apply Hreach|].
    rewrite HQ in Hclosed.
    induction 1 as [w Hw|u w _ IHu Hw].
    + apply (Hclosed s0); [by left|apply not_elem_of_nil|done].
    + apply (Hclosed u); [by right|apply not_elem_of_nil|done].
  - rewrite adjacent_list_eq in Hrun. cbn [fst] in Hrun.
    destruct (bfs_inv_step g0 s0 g n vars current queue' Hwf Heq Hinv HQ)
      as (vars' & Hcr & Hinv').
    rewrite Hcr in Hrun. eapply IH; [|exact Hinv'|exact Hrun].
    eapply graph_equiv_trans; [apply getAdjacent_equiv|done].
Qed.

(** [FindConnected] on a live key: the vertices that a chain of resolving
    targets reaches, each once. *)
Lemma FindConnected_correct (g : Graph) (n : nat) key start fuel :
  graph_wf g -> Lookup g key = Ok start ->
  (size (additions (vertices g)) + 2 <= fuel)%nat ->
  exists conn st',
    FindConnected order fuel (g, n) key = Some (Ok (Slice conn), st')
    /\ NoDup conn
    /\ (forall w, w ∈ conn <-> reach g key w)
    /\ graph_equiv st'.1 g.
Proof.
  intros Hwf HL Hf.
  destruct (FindConnected_terminates order fuel g n key Hf) as (r & st' & Hrun).
  pose proof Hrun as Hrun'. unfold FindConnected in Hrun'. cbn [fst] in Hrun'.
  rewrite HL in Hrun'.
  apply (bfs_loop_correct g start Hwf) in Hrun' as (conn & -> & Hnd & Hiff & Heq).
  - exists conn, st'. rewrite (Lookup_Key _ _ _ Hwf HL) in Hiff.
    split_and!; try done. by eapply NoDup_fmap_1.
  - apply graph_equiv_refl.
  - exists []. simpl. split_and!.
    + done.
    + intros x. rewrite elem_of_nil. set_solver.
    + constructor.
    + intros w Hw. by apply elem_of_nil in Hw.
    + intros u Hu. apply elem_of_cons in Hu as [->|Hu]; [by left|].
      by apply elem_of_nil in Hu.
    + intros u [->|Hu] Hnq w Hw.
      * exfalso. apply Hnq. by left.
      * by apply elem_of_nil in Hu.
Qed.

End Order.

End ConnectedFacts.

(** ** What the depth-first search returns *)

Module PathFacts.
Import ElementSet SetFacts LwwGraph GraphFacts TraversalFacts KeyOrder ListFacts.
Import ConnectedFacts.

(** [chain g u ext]: every vertex of [ext] is a target of the one before
    it, the first one a target of [u]. *)
Fixpoint chain (g : Graph) (u : Vertex) (ext : list Vertex) : Prop :=
  match ext with
  | [] => True
  | w :: rest => target g (Key u) w /\ chain g w rest
  end.

(** What a call of [findPath] on [start] with the path [cp] so far may
    return: a path that extends [cp] by a non-empty chain from [start] to a
    vertex of key [searchKey], or [ErrPathNotFound]. *)
Definition path_result (g0 : Graph) (searchKey : string) (start : Vertex)
    (cp : list Vertex) (r : result (slice Vertex)) : Prop :=
  match r with
  | Ok path =>
      exists ext, path = Slice (cp ++ ext) /\ ext <> [] /\ chain g0 start ext
                  /\ Key <$> last ext = Some searchKey
  | Err e => e = ErrPathNotFound
  end.

Lemma chain_last_live g u ext w :
  graph_wf g -> chain g u ext -> last ext = Some w -> Lookup g (Key w) = Ok w.
Proof.
  intros Hwf. revert u. induction ext as [|x rest IH]; intros u Hc Hl; [done|].
  destruct Hc as [Ht Hc]. destruct rest as [|y rest'].
  - injection Hl as <-. by eapply target_live.
  - apply (IH x Hc). exact Hl.
Qed.

Section Order.
Variable order : nat -> list (string * addRecord) -> list (string * addRecord).
Hypothesis order_perm : forall n l, order n l ≡ₚ l.

Section Dfs.
Variable g0 : Graph.
Hypothesis g0_wf : graph_wf g0.
Variable searchKey : string.

Lemma findPath_range_sound recurse start adjl :
  (forall e, e ∈ adjl -> e ∈ live_elements (adj g0 (Key start))) ->
  (forall v cp (ds : dfs_state) r ds',
      graph_equiv ds.1.1 g0 -> recurse v (Slice cp) ds = Some (r, ds') ->
      graph_equiv ds'.1.1 g0 /\ path_result g0 searchKey v cp r) ->
  forall cp (ds : dfs_state) r ds',
    graph_equiv ds.1.1 g0 ->
    findPath_range recurse searchKey (Slice cp) adjl ds = Some (r, ds') ->
    graph_equiv ds'.1.1 g0 /\ path_result g0 searchKey start cp r.
Proof.
  intros Hadj Hrec. induction adjl as [|e rest IH]; intros cp [[g n] vis] r ds' Heq Hrun.
  - injection Hrun as <- <-. done.
  - assert (Hadj' : forall e0, e0 ∈ rest -> e0 ∈ live_elements (adj g0 (Key start))).
    { intros e0 He0. apply Hadj. by right. }
    cbn [findPath_range fst] in Hrun. cbn [fst] in Heq.
    assert (HL : Lookup g (GetKey e) = Lookup g0 (GetKey e))
      by (apply Lookup_ext, Heq).
    destruct (Lookup g (GetKey e)) as [vertex|err] eqn:EL.
    + assert (Ht : target g0 (Key start) vertex).
      { exists e. split; [apply Hadj; by left|done]. }
      destruct (decide (Key vertex = searchKey)) as [Hk|Hk].
      * injection Hrun as <- <-. split; [done|]. simpl.
        exists [vertex]. split_and!; try done. simpl. by rewrite Hk.
      * destruct (recurse vertex (append (Slice cp) vertex) (g, n, vis))
          as [[r1 ds1]|] eqn:ER; [|discriminate].
        unfold append in ER. cbn [elems] in ER.
        destruct (Hrec vertex (cp ++ [vertex]) (g, n, vis) r1 ds1 Heq ER) as [Heq1 Hres].
        destruct r1 as [path|err].
        -- injection Hrun as <- <-. split; [done|].
           destruct Hres as (ext & -> & Hne & Hc & Hlast).
           exists (vertex :: ext). split_and!.
           ++ by rewrite <- app_assoc.
           ++ done.
           ++ by split.
           ++ destruct ext; [done|exact Hlast].
        -- simpl in Hres. subst err. by apply (IH Hadj' cp ds1).
    + assert (err = ErrVertexNotFound) as ->.
      { symmetry in HL. by eapply Lookup_Err_wf. }
      by apply (IH Hadj' cp (g, n, vis)).
Qed.

Lemma findPath_sound fuel : forall start cp (ds : dfs_state) r ds',
  graph_equiv ds.1.1 g0 ->
  findPath order fuel searchKey start (Slice cp) ds = Some (r, ds') ->
  graph_equiv ds'.1.1 g0 /\ path_result g0 searchKey start cp r.
Proof.
  induction fuel as [|fuel IH]; intros start cp [[g n] vis] r ds' Heq Hrun;
    [discriminate|].
  cbn [findPath] in Hrun. cbn [fst] in Heq.
  destruct (decide (Key start ∈ vis)).
  { injection Hrun as <- <-. done. }
  rewrite adjacent_list_eq in Hrun.
  eapply findPath_range_sound; [| |  |exact Hrun].
  - intros e He. rewrite (List_live_elements order order_perm) in He.
    destruct Heq as [_ Ha]. by rewrite <- Ha.
  - intros v cp' ds1 r1 ds1' Heq1 H1. by eapply IH.
  - cbn [fst]. eapply graph_equiv_trans; [apply getAdjacent_equiv|done].
Qed.

End Dfs.

(** A successful [FindPath] returns the from-vertex followed by a
    non-empty chain of targets that ends at the to-vertex. *)
Lemma FindPath_sound (g : Graph) (n : nat) fromKey toKey fuel path st' :
  graph_wf g ->
  FindPath order fuel (g, n) fromKey toKey = Some (Ok path, st') ->
  exists start last_v ext,
    Lookup g fromKey = Ok start /\ Lookup g toKey = Ok last_v
    /\ path = Slice (start :: ext) /\ ext <> []
    /\ chain g start ext /\ last ext = Some last_v.
Proof.
  intros Hwf. unfold FindPath. cbn [fst].
  destruct (Lookup g fromKey) as [start|] eqn:EF; [|discriminate].
  destruct (Lookup g toKey) as [last_v|] eqn:ET; [|discriminate].
  destruct (findPath order fuel toKey start (Slice [start]) (g, n, ∅))
    as [[r [st1 vis1]]|] eqn:ER; [|discriminate].
  intros [= -> <-].
  apply (findPath_sound g Hwf) in ER as [_ (ext & -> & Hne & Hc & Hlast)];
    [|apply graph_equiv_refl].
  exists start, last_v, ext. split_and!; try done.
  destruct (last ext) as [w|] eqn:EL; [|discriminate].
  simpl in Hlast. injection Hlast as Hk.
  pose proof (chain_last_live _ _ _ _ Hwf Hc EL) as Hw.
  rewrite Hk, ET in Hw. by injection Hw as ->.
Qed.

(** An unsuccessful [FindPath] on live endpoints fails with
    [ErrPathNotFound]. *)
Lemma FindPath_error (g : Graph) (n : nat) fromKey toKey fuel e st' start last_v :
  graph_wf g -> Lookup g fromKey = Ok start -> Lookup g toKey = Ok last_v ->
  FindPath order fuel (g, n) fromKey toKey = Some (Err e, st') ->
  e = ErrPathNotFound.
Proof.
  intros Hwf EF ET. unfold FindPath. cbn [fst]. rewrite EF, ET.
  destruct (findPath order fuel toKey start (Slice [start]) (g, n, ∅))
    as [[r [st1 vis1]]|] eqn:ER; [|discriminate].
  intros [= -> <-].
  by apply (findPath_sound g Hwf) in ER as [_ Hres]; [|apply graph_equiv_refl].
Qed.

(** When the adjacency set of [fromKey] lists one element and its key is
    [toKey], the path is the two endpoints. *)
Lemma FindPath_single_edge (g : Graph) (n : nat) fromKey toKey fuel start last_v e :
  graph_wf g -> Lookup g fromKey = Ok start -> Lookup g toKey = Ok last_v ->
  live_elements (adj g fromKey) = [e] -> GetKey e = toKey ->
  (1 <= fuel)%nat ->
  exists st', FindPath order fuel (g, n) fromKey toKey
              = Some (Ok (Slice [start; last_v]), st').
Proof.
  intros Hwf EF ET Hadj Hk Hf. unfold FindPath. cbn [fst]. rewrite EF, ET.
  destruct fuel as [|fuel]; [lia|]. cbn [findPath].
  rewrite decide_False by set_solver. rewrite adjacent_list_eq.
  rewrite (Lookup_Key _ _ _ Hwf EF).
  assert (HL : elems (ElementSet.List order n (adj g fromKey)) = [e]).
  { apply Permutation_singleton_r. rewrite <- Hadj.
    apply (List_live_elements order order_perm). }
  rewrite HL. cbn [findPath_range fst].
  rewrite (Lookup_ext _ g) by apply getAdjacent_vertices.
  rewrite Hk, ET. rewrite decide_True by (by eapply Lookup_Key).
  eauto.
Qed.

End Order.

End PathFacts.

(** ** Convergence of merges *)

Section Sup.
Context {V : Type} (ts : V -> Z).

(** [m] holds, for every key, a latest entry among the maps of [F]. *)
Definition is_sup (F : list (gmap string V)) (m : gmap string V) : Prop :=
  forall k,
    match m !! k with
    | None => forall f, f ∈ F -> f !! k = None
    | Some r =>
        (exists f, f ∈ F /\ f !! k = Some r)
        /\ (forall f r', f ∈ F -> f !! k = Some r' -> ts r' <= ts r)
    end.

(** No two maps of [F] hold different values with one timestamp under one
    key. *)
Definition tie_free (F : list (gmap string V)) : Prop :=
  forall f f' k r r',
    f ∈ F -> f' ∈ F -> f !! k = Some r -> f' !! k = Some r' -> ts r = ts r' -> r = r'.

Lemma is_sup_singleton m : is_sup [m] m.
Proof.
  intros k. destruct (m !! k) as [r|] eqn:E.
  - split; [exists m; split; [by left|done]|].
    intros f r' Hf Hr. apply list_elem_of_singleton in Hf as ->.
    rewrite E in Hr. injection Hr as ->. lia.
  - intros f Hf. by apply list_elem_of_singleton in Hf as ->.
Qed.

Lemma is_sup_join F1 F2 m1 m2 m :
  is_sup F1 m1 -> is_sup F2 m2 ->
  (forall k, m !! k = reg_join ts (m1 !! k) (m2 !! k)) ->
  is_sup (F1 ++ F2) m.
Proof.
  intros H1 H2 Hm k. specialize (H1 k). specialize (H2 k). rewrite Hm.
  unfold reg_join, After.
  destruct (m1 !! k) as [l|], (m2 !! k) as [r|].
  - destruct H1 as [(f1 & Hf1 & Hl) Hmax1]. destruct H2 as [(f2 & Hf2 & Hr) Hmax2].
    destruct (ts l <? ts r) eqn:E.
    + apply Z.ltb_lt in E. split.
      * exists f2. split; [apply elem_of_app; by right|done].
      * intros f r' Hf Hr'. apply elem_of_app in Hf as [Hf|Hf].
        -- specialize (Hmax1 f r' Hf Hr'). lia.
        -- by apply (Hmax2 f).
    + apply Z.ltb_ge in E. split.
      * exists f1. split; [apply elem_of_app; by left|done].
      * intros f r' Hf Hr'. apply elem_of_app in Hf as [Hf|Hf].
        -- by apply (Hmax1 f).
        -- specialize (Hmax2 f r' Hf Hr'). lia.
  - destruct H1 as [(f1 & Hf1 & Hl) Hmax1]. split.
    + exists f1. split; [apply elem_of_app; by left|done].
    + intros f r' Hf Hr'. apply elem_of_app in Hf as [Hf|Hf].
      * by apply (Hmax1 f).
      * rewrite (H2 f Hf) in Hr'. discriminate.
  - destruct H2 as [(f2 & Hf2 & Hr) Hmax2]. split.
    + exists f2. split; [apply elem_of_app; by right|done].
    + intros f r' Hf Hr'. apply elem_of_app in Hf as [Hf|Hf].
      * rewrite (H1 f Hf) in Hr'. discriminate.
      * by apply (Hmax2 f).
  - intros f Hf. apply elem_of_app in Hf as [Hf|Hf]; auto.
Qed.

Lemma is_sup_unique F m m' : tie_free F -> is_sup F m -> is_sup F m' -> m = m'.
Proof.
  intros Htf H H'. apply map_eq. intros k. specialize (H k). specialize (H' k).
  destruct (m !! k) as [r|], (m' !! k) as [r'|]; try done.
  - destruct H as [(f & Hf & Hr) Hmax]. destruct H' as [(f' & Hf' & Hr') Hmax'].
    f_equal. apply (Htf f f' k); try done.
    specialize (Hmax f' r' Hf' Hr'). specialize (Hmax' f r Hf Hr). lia.
  - destruct H as [(f & Hf & Hr) _]. rewrite (H' f Hf) in Hr. discriminate.
  - destruct H' as [(f & Hf & Hr) _]. rewrite (H f Hf) in Hr. discriminate.
Qed.

Lemma is_sup_ext F F' m : (forall f, f ∈ F <-> f ∈ F') -> is_sup F m -> is_sup F' m.
Proof.
  intros HF H k. specialize (H k). destruct (m !! k) as [r|].
  - destruct H as [(f & Hf & Hr) Hmax]. split.
    + exists f. split; [by apply HF|done].
    + intros f' r' Hf'. apply Hmax. by apply HF.
  - intros f Hf. apply H. by apply HF.
Qed.

End Sup.

Module ConvergenceFacts.
Import ElementSet SetFacts LwwGraph GraphFacts ListFacts Scenarios.

(** [g] holds, in each of its registers, a latest entry among the graphs
    of [F]. *)
Definition is_join (F : list Graph) (g : Graph) : Prop :=
  is_sup Timestamp ((fun h => additions (vertices h)) <$> F) (additions (vertices g))
  /\ is_sup (fun t : Z => t) ((fun h => removals (vertices h)) <$> F) (removals (vertices g))
  /\ forall k,
      is_sup Timestamp ((fun h => additions (adj h k)) <$> F) (additions (adj g k))
      /\ is_sup (fun t : Z => t) ((fun h => removals (adj h k)) <$> F) (removals (adj g k)).

(** No two replicas hold, for one vertex key, two different add records
    with the same timestamp. *)
Definition no_ties (F : list Graph) : Prop :=
  tie_free Timestamp ((fun h => additions (vertices h)) <$> F).

Lemma is_join_singleton g : is_join [g] g.
Proof.
  split; [apply is_sup_singleton|]. split; [apply is_sup_singleton|].
  intros k. split; apply is_sup_singleton.
Qed.

Lemma is_join_Merge F1 F2 g1 g2 :
  is_join F1 g1 -> is_join F2 g2 -> is_join (F1 ++ F2) (Merge g1 g2).
Proof.
  intros (Ha1 & Hr1 & He1) (Ha2 & Hr2 & He2). split_and!.
  - rewrite fmap_app. eapply is_sup_join; [done..|].
    intros k. rewrite Merge_vertices. apply Replicate_additions.
  - rewrite fmap_app. eapply is_sup_join; [done..|].
    intros k. rewrite Merge_vertices. apply Replicate_removals.
  - intros k. destruct (He1 k) as [Hea1 Her1], (He2 k) as [Hea2 Her2]. split.
    + rewrite fmap_app. eapply is_sup_join; [done..|].
      intros key. rewrite Merge_adj. apply Replicate_additions.
    + rewrite fmap_app. eapply is_sup_join; [done..|].
      intros key. rewrite Merge_adj. apply Replicate_removals.
Qed.

Lemma fmap_elem_of_ext {A B} (f : A -> B) (F F' : list A) :
  (forall h, h ∈ F <-> h ∈ F') -> forall x, x ∈ f <$> F <-> x ∈ f <$> F'.
Proof.
  intros HF x. rewrite !list_elem_of_fmap.
  split; intros (h & -> & Hh); exists h; (split; [done|by apply HF]).
Qed.

Lemma is_join_ext F F' g : (forall h, h ∈ F <-> h ∈ F') -> is_join F g -> is_join F' g.
Proof.
  intros HF (Ha & Hr & He). split_and!.
  - eapply is_sup_ext; [|exact Ha]. by apply fmap_elem_of_ext.
  - eapply is_sup_ext; [|exact Hr]. by apply fmap_elem_of_ext.
  - intros k. destruct (He k) as [Hea Her]. split.
    + eapply is_sup_ext; [|exact Hea]. by apply fmap_elem_of_ext.
    + eapply is_sup_ext; [|exact Her]. by apply fmap_elem_of_ext.
Qed.

Lemma tie_free_removals (F : list (gmap string Z)) : tie_free (fun t : Z => t) F.
Proof. intros f f' k r r' _ _ _ _ H. exact H. Qed.

Lemma tie_free_adjacent F k :
  Forall graph_wf F -> tie_free Timestamp ((fun h => additions (adj h k)) <$> F).
Proof.
  intros Hwf f f' key r r' Hf Hf' Hr Hr' Hts.
  apply list_elem_of_fmap in Hf as (h & -> & Hh), Hf' as (h' & -> & Hh').
  rewrite Forall_forall in Hwf.
  pose proof (adj_typed h k key r (Hwf h Hh) Hr) as He.
  pose proof (adj_typed h' k key r' (Hwf h' Hh') Hr') as He'.
  destruct r, r'; simpl in *. congruence.
Qed.

Lemma is_join_unique F g g' :
  Forall graph_wf F -> no_ties F -> is_join F g -> is_join F g' -> graph_equiv g g'.
Proof.
  intros Hwf Hnt (Ha & Hr & He) (Ha' & Hr' & He').
  split.
  - apply t_eq.
    + by eapply is_sup_unique.
    + eapply is_sup_unique; [apply tie_free_removals|done..].
  - intros k. destruct (He k) as [Hea Her], (He' k) as [Hea' Her']. apply t_eq.
    + eapply is_sup_unique; [by apply tie_free_adjacent|done..].
    + eapply is_sup_unique; [apply tie_free_removals|done..].
Qed.

(** *** Schedules of merges *)

(** Each replica is a join of the initial states that have flowed into
    it. *)
Definition replicas_inv (gs0 gs : list Graph) (ab : list (list Graph)) : Prop :=
  Forall2 (fun g F => is_join F g /\ graph_wf g /\ forall h, h ∈ F -> h ∈ gs0) gs ab.

Lemma replicas_inv_init gs0 :
  Forall graph_wf gs0 -> replicas_inv gs0 gs0 ((fun g => [g]) <$> gs0).
Proof.
  intros Hwf. unfold replicas_inv. apply Forall2_fmap_r, Forall_Forall2_diag.
  rewrite Forall_forall in Hwf. apply Forall_forall. intros g Hg. split_and!.
  - apply is_join_singleton.
  - by apply Hwf.
  - intros h Hh. by apply list_elem_of_singleton in Hh as ->.
Qed.

Lemma replicas_inv_step gs0 gs ab ij :
  replicas_inv gs0 gs ab -> replicas_inv gs0 (merge_step gs ij) (absorb_step ab ij).
Proof.
  intros Hinv. destruct ij as [i j]. unfold merge_step, absorb_step. simpl.
  destruct (gs !! i) as [gi|] eqn:Ei.
  - destruct (Forall2_lookup_l _ _ _ _ _ Hinv Ei) as (Fi & EFi & Hji & Hwi & Hsi).
    rewrite EFi.
    destruct (gs !! j) as [gj|] eqn:Ej.
    + destruct (Forall2_lookup_l _ _ _ _ _ Hinv Ej) as (Fj & EFj & Hjj & Hwj & Hsj).
      rewrite EFj. apply Forall2_insert; [done|]. split_and!.
      * by apply is_join_Merge.
      * by apply graph_wf_Merge.
      * intros h Hh. apply elem_of_app in Hh as [Hh|Hh]; auto.
    + assert (ab !! j = None) as ->; [|done].
      apply lookup_ge_None. apply lookup_ge_None in Ej.
      by rewrite <- (Forall2_length _ _ _ Hinv).
  - assert (ab !! i = None) as ->; [|done].
    apply lookup_ge_None. apply lookup_ge_None in Ei.
    by rewrite <- (Forall2_length _ _ _ Hinv).
Qed.

Lemma replicas_inv_run gs0 sched : forall gs ab,
  replicas_inv gs0 gs ab ->
  replicas_inv gs0 (fold_left merge_step sched gs) (fold_left absorb_step sched ab).
Proof.
  induction sched as [|ij sched IH]; intros gs ab Hinv; [done|].
  simpl. by apply IH, replicas_inv_step.
Qed.

(** A replica into which every initial state has flowed holds the join of
    all of them. *)
Lemma informed_is_join gs0 sched i gi Fi :
  Forall graph_wf gs0 ->
  merge_all sched gs0 !! i = Some gi -> absorbed sched gs0 !! i = Some Fi ->
  (forall h, h ∈ gs0 -> h ∈ Fi) ->
  is_join gs0 gi /\ graph_wf gi.
Proof.
  intros Hwf Hgi HFi Hall.
  pose proof (replicas_inv_run gs0 sched _ _ (replicas_inv_init gs0 Hwf)) as Hinv.
  destruct (Forall2_lookup_l _ _ _ _ _ Hinv Hgi) as (F & EF & Hj & Hw & Hs).
  unfold absorbed in HFi. rewrite HFi in EF. injection EF as <-.
  split; [|done]. eapply is_join_ext; [|exact Hj].
  intros h. split; auto.
Qed.

Section Order.
Variable order : nat -> list (string * addRecord) -> list (string * addRecord).
Hypothesis order_perm : forall n l, order n l ≡ₚ l.

(** [List] reads the registers only: equivalent graphs list the same, in
    whatever order the maps are visited. *)
Lemma List_equiv order' (g g' : Graph) (n m : nat) :
  (forall n l, order' n l ≡ₚ l) ->
  graph_wf g -> graph_equiv g g' ->
  (LwwGraph.List order (g, n)).1 = (LwwGraph.List order' (g', m)).1.
Proof.
  intros Hperm' Hwf Heq.
  assert (Hwf' : graph_wf g') by (eapply graph_wf_equiv; [by apply graph_equiv_sym|done]).
  destruct (List_snapshot order order_perm g n Hwf) as (g1 & n1 & -> & _).
  destruct (List_snapshot order' Hperm' g' m Hwf') as (g2 & n2 & -> & _).
  simpl. by rewrite (snapshot_equiv g g').
Qed.

Lemma replicas_converge gs sched i j gi gj Fi Fj (n m : nat) :
  Forall graph_wf gs -> no_ties gs ->
  merge_all sched gs !! i = Some gi -> merge_all sched gs !! j = Some gj ->
  absorbed sched gs !! i = Some Fi -> absorbed sched gs !! j = Some Fj ->
  (forall h, h ∈ gs -> h ∈ Fi) -> (forall h, h ∈ gs -> h ∈ Fj) ->
  graph_equiv gi gj
  /\ (LwwGraph.List order (gi, n)).1 = (LwwGraph.List order (gj, m)).1.
Proof.
  intros Hwf Hnt Hgi Hgj HFi HFj Hi Hj.
  destruct (informed_is_join gs sched i gi Fi Hwf Hgi HFi Hi) as [Hji Hwi].
  destruct (informed_is_join gs sched j gj Fj Hwf Hgj HFj Hj) as [Hjj Hwj].
  assert (Heq : graph_equiv gi gj) by (by eapply is_join_unique).
  split; [done|]. by apply List_equiv.
Qed.

Lemma Merge_commutes (A B : Graph) (n m : nat) :
  graph_wf A -> graph_wf B -> no_ties [A; B] ->
  graph_equiv (Merge A B) (Merge B A)
  /\ (LwwGraph.List order (Merge A B, n)).1 = (LwwGraph.List order (Merge B A, m)).1.
Proof.
  intros HA HB Hnt.
  assert (Heq : graph_equiv (Merge A B) (Merge B A)).
  { apply (is_join_unique [A; B]).
    - apply Forall_cons; split; [done|]. apply Forall_cons; split; [done|]. constructor.
    - done.
    - apply (is_join_Merge [A] [B]); apply is_join_singleton.
    - apply (is_join_ext [B; A]); [intros h; set_solver|].
      apply (is_join_Merge [B] [A]); apply is_join_singleton. }
  split; [done|]. apply List_equiv; [exact order_perm|by apply graph_wf_Merge|done].
Qed.

Lemma Merge_idempotent (A : Graph) : graph_equiv (Merge A A) A.
Proof.
  split.
  - rewrite Merge_vertices. apply Replicate_idem.
  - intros k. rewrite Merge_adj. apply Replicate_idem.
Qed.

End Order.

Lemma no_ties_sub F F' : (forall h, h ∈ F' -> h ∈ F) -> no_ties F -> no_ties F'.
Proof.
  intros Hsub Hnt f f' k r r' Hf Hf'.
  apply list_elem_of_fmap in Hf as (h & -> & Hh), Hf' as (h' & -> & Hh').
  apply Hnt; apply list_elem_of_fmap; eauto.
Qed.

(** A check of [no_ties] on the entries of the maps. *)
Definition no_ties_entries (F : list Graph) : Prop :=
  Forall (fun h => Forall (fun h' =>
    Forall (fun en : string * addRecord => Forall (fun en' : string * addRecord =>
      en.1 = en'.1 -> Timestamp en.2 = Timestamp en'.2 -> en.2 = en'.2)
      (map_to_list (additions (vertices h'))))
      (map_to_list (additions (vertices h)))) F) F.

#[global] Instance no_ties_entries_dec F : Decision (no_ties_entries F).
Proof. unfold no_ties_entries. apply _. Defined.

Lemma no_ties_entries_sound F : no_ties_entries F -> no_ties F.
Proof.
  unfold no_ties_entries. rewrite Forall_forall. intros H f f' k r r' Hf Hf' Hr Hr' Hts.
  apply list_elem_of_fmap in Hf as (h & -> & Hh), Hf' as (h' & -> & Hh').
  specialize (H h Hh). rewrite Forall_forall in H. specialize (H h' Hh').
  rewrite Forall_forall in H. specialize (H (k, r)).
  rewrite Forall_forall in H. apply (H (proj2 (elem_of_map_to_list _ _ _) Hr) (k, r')); try done.
  by apply elem_of_map_to_list.
Qed.

End ConvergenceFacts.

(* ===================================================================== *)
(** * The claims *)
(* ===================================================================== *)

Module Claims.
Import ElementSet SetFacts LwwGraph GraphFacts TraversalFacts Scenarios.
Import KeyOrder ListFacts ConnectedFacts PathFacts ConvergenceFacts.

Lemma graph_wf_exec o g : graph_wf g -> graph_wf (exec o g).2.
Proof.
  destruct o; simpl.
  - apply graph_wf_AddVertex.
  - apply graph_wf_RemoveVertex.
  - apply graph_wf_AddEdge.
  - apply graph_wf_RemoveEdge.
Qed.

Lemma graph_wf_run ops : forall g, graph_wf g -> graph_wf (run ops g).
Proof.
  induction ops as [|o ops IH]; intros g Hwf; [done|].
  apply IH. by apply graph_wf_exec.
Qed.

Lemma idorder_perm : forall n l, idorder n l ≡ₚ l.
Proof. reflexivity. Qed.

(** What [Contains] answers, in terms of the two maps: the key must have no
    removal at all. *)
Lemma Contains_iff_no_removal s k e :
  set_wf s ->
  Contains s k = Ok e <->
  exists r, additions s !! k = Some r /\ Elem r = e
            /\ removals s !! k = None /\ 0 <= Timestamp r.
Proof.
  intros Hwf. rewrite Contains_Ok. split.
  - intros (r & Hr & He & Hrm). exists r. apply removed_false in Hrm.
    rewrite (Hwf _ _ Hr) in Hrm. naive_solver.
  - intros (r & Hr & He & Hn & Ht). exists r. split; [done|]. split; [done|].
    apply removed_false. by rewrite (Hwf _ _ Hr).
Qed.

(** C1 (the code departs from the claim).  In the scenario of the test
    "same element re-added after removal" (A adds e1 at 1 and removes it at
    2, B adds e1 at 3, then the two replicate), both replicas hold the add
    record of time 3 and the removal of time 2, so the add is strictly after
    the removal; yet [Contains] answers [ErrElementNotFound] on both and
    [List] is empty: [removed] answers true as soon as the key has any
    removal. *)
Theorem C1_later_add_does_not_revive :
  additions setA !! "element1" = Some {| Elem := e1; Timestamp := 3 |}
  /\ removals setA !! "element1" = Some 2
  /\ additions setB !! "element1" = Some {| Elem := e1; Timestamp := 3 |}
  /\ removals setB !! "element1" = Some 2
  /\ removed setA {| Elem := e1; Timestamp := 3 |} = true
  /\ Contains setA "element1" = Err ErrElementNotFound
  /\ Contains setB "element1" = Err ErrElementNotFound
  /\ ElementSet.List idorder 0 setA = Slice []
  /\ ElementSet.List idorder 0 setB = Slice [].
Proof. repeat split; vm_compute; reflexivity. Qed.

(** C3.  [Replicate], for every order in which the two loops visit the
    remote maps: a key of the remote additions takes the remote record when
    the key is locally absent or the remote timestamp is strictly later, and
    keeps the local record otherwise (so on equal timestamps); keys absent
    remotely are untouched; the same for the removals; no key of either
    local map disappears. *)
Theorem C3_replicate_overwrites_only_on_strictly_later :
  forall (adds : list (string * addRecord)) (rems : list (string * Z))
         (local remote : ElementSet.t),
    adds ≡ₚ map_to_list (additions remote) ->
    rems ≡ₚ map_to_list (removals remote) ->
    (forall k,
        additions (Replicate_in adds rems local) !! k
        = match additions remote !! k, additions local !! k with
          | Some r, Some l => if Timestamp l <? Timestamp r then Some r else Some l
          | Some r, None => Some r
          | None, l => l
          end)
    /\ (forall k,
        removals (Replicate_in adds rems local) !! k
        = match removals remote !! k, removals local !! k with
          | Some r, Some l => if l <? r then Some r else Some l
          | Some r, None => Some r
          | None, l => l
          end)
    /\ (forall k l r, additions local !! k = Some l -> additions remote !! k = Some r ->
                      Timestamp r <= Timestamp l ->
                      additions (Replicate_in adds rems local) !! k = Some l)
    /\ (forall k l r, removals local !! k = Some l -> removals remote !! k = Some r ->
                      r <= l ->
                      removals (Replicate_in adds rems local) !! k = Some l)
    /\ (forall k, is_Some (additions local !! k) ->
                  is_Some (additions (Replicate_in adds rems local) !! k))
    /\ (forall k, is_Some (removals local !! k) ->
                  is_Some (removals (Replicate_in adds rems local) !! k)).
Proof.
  intros adds rems local remote Ha Hr.
  assert (HA : forall k, additions (Replicate_in adds rems local) !! k
                         = reg_join Timestamp (additions local !! k) (additions remote !! k))
    by (intros k; by apply Replicate_in_additions).
  assert (HR : forall k, removals (Replicate_in adds rems local) !! k
                         = reg_join (fun t : Z => t) (removals local !! k) (removals remote !! k))
    by (intros k; by apply Replicate_in_removals).
  repeat split.
  - intros k. rewrite HA. unfold reg_join, After.
    by destruct (additions remote !! k) as [r|], (additions local !! k) as [l|].
  - intros k. rewrite HR. unfold reg_join, After.
    by destruct (removals remote !! k) as [r|], (removals local !! k) as [l|].
  - intros k l r Hl Hrm Hle. rewrite HA, Hl, Hrm. unfold reg_join, After.
    destruct (Timestamp l <? Timestamp r) eqn:E; [|done].
    apply Z.ltb_lt in E. lia.
  - intros k l r Hl Hrm Hle. rewrite HR, Hl, Hrm. unfold reg_join, After.
    destruct (l <? r) eqn:E; [|done]. apply Z.ltb_lt in E. lia.
  - intros k Hs. rewrite HA. by apply reg_join_is_Some.
  - intros k Hs. rewrite HR. by apply reg_join_is_Some.
Qed.

Lemma C3_replicate_witness :
  map_to_list (additions setB0) ≡ₚ map_to_list (additions setB0)
  /\ map_to_list (removals setA0) ≡ₚ map_to_list (removals setA0)
  /\ additions (Replicate setA0 setB0) !! "element1"
      = Some {| Elem := e1; Timestamp := 3 |}
  /\ additions (Replicate setB0 setB0) !! "element1"
      = Some {| Elem := e1; Timestamp := 3 |}.
Proof.
  split; [reflexivity|]. split; [reflexivity|]. split.
  - destruct (C3_replicate_overwrites_only_on_strictly_later
                (map_to_list (additions setB0)) (map_to_list (removals setB0))
                setA0 setB0 (reflexivity _) (reflexivity _)) as [H _].
    unfold Replicate. rewrite H. vm_compute. reflexivity.
  - destruct (C3_replicate_overwrites_only_on_strictly_later
                (map_to_list (additions setB0)) (map_to_list (removals setB0))
                setB0 setB0 (reflexivity _) (reflexivity _)) as (_ & _ & H & _).
    unfold Replicate. apply (H "element1" _ {| Elem := e1; Timestamp := 3 |});
      vm_compute; try reflexivity. discriminate.
Defined.

(** The traversals of the later revision terminate: with fuel above the
    number of stored vertex records plus one, the breadth-first loop of
    [FindConnected] and the recursion of [FindPath] return, for every graph
    (cycles of any shape included), every iteration order and every key,
    and more fuel gives the same result. *)
Theorem traversals_terminate :
  forall order (g : Graph) (n : nat) (key fromKey toKey : string) (fuel : nat),
    (size (additions (vertices g)) + 2 <= fuel)%nat ->
    (exists r st',
        FindConnected order fuel (g, n) key = Some (r, st')
        /\ forall fuel', (fuel <= fuel')%nat ->
                         FindConnected order fuel' (g, n) key = Some (r, st'))
    /\ (exists r st',
        FindPath order fuel (g, n) fromKey toKey = Some (r, st')
        /\ forall fuel', (fuel <= fuel')%nat ->
                         FindPath order fuel' (g, n) fromKey toKey = Some (r, st')).
Proof.
  intros order g n key fromKey toKey fuel Hf. split.
  - destruct (FindConnected_terminates order fuel g n key Hf) as (r & st' & H).
    exists r, st'. split; [done|]. intros fuel' Hle. by eapply FindConnected_mono.
  - destruct (FindPath_terminates order fuel g n fromKey toKey Hf) as (r & st' & H).
    exists r, st'. split; [done|]. intros fuel' Hle. by eapply FindPath_mono.
Qed.

Lemma traversals_terminate_witness :
  (size (additions (vertices g_loops)) + 2 <= 6)%nat
  /\ (exists r st', FindConnected idorder 6 (g_loops, 0%nat) "vertex1" = Some (r, st'))
  /\ (exists r st', FindPath idorder 6 (g_loops, 0%nat) "vertex4" "vertex3" = Some (r, st')).
Proof.
  assert (Hsz : (size (additions (vertices g_loops)) + 2 <= 6)%nat)
    by (vm_compute; lia).
  split; [exact Hsz|].
  destruct (traversals_terminate idorder g_loops 0%nat "vertex1" "vertex4" "vertex3"
              6%nat Hsz) as [(r & st' & H & _) (r2 & st2 & H2 & _)].
  split; eauto.
Defined.

(** On a well-formed graph, [AddEdge] and [RemoveEdge] return
    [ErrVertexNotFound] and the graph unchanged when [Lookup] fails for
    [fromKey] or for [toKey]; when both resolve they return no error, leave
    the vertices set alone and add (respectively record the removal of) the
    key element of [toKey] in the adjacency set of [fromKey], every other
    adjacency set staying as it was. *)
Theorem edge_operations_check_both_endpoints :
  forall (now : Z) (fromKey toKey : string) (g : Graph),
    graph_wf g ->
    ((is_ok (Lookup g fromKey) = false \/ is_ok (Lookup g toKey) = false) ->
       AddEdge now fromKey toKey g = (Some ErrVertexNotFound, g)
       /\ RemoveEdge now fromKey toKey g = (Some ErrVertexNotFound, g))
    /\ (is_ok (Lookup g fromKey) = true -> is_ok (Lookup g toKey) = true ->
         (AddEdge now fromKey toKey g).1 = None
         /\ vertices (AddEdge now fromKey toKey g).2 = vertices g
         /\ adj (AddEdge now fromKey toKey g).2 fromKey
             = ElementSet.Add now (IDElement toKey) (adj g fromKey)
         /\ (forall k, k <> fromKey -> adj (AddEdge now fromKey toKey g).2 k = adj g k)
         /\ (RemoveEdge now fromKey toKey g).1 = None
         /\ vertices (RemoveEdge now fromKey toKey g).2 = vertices g
         /\ adj (RemoveEdge now fromKey toKey g).2 fromKey
             = ElementSet.Remove now toKey (adj g fromKey)
         /\ (forall k, k <> fromKey -> adj (RemoveEdge now fromKey toKey g).2 k = adj g k)).
Proof.
  intros now fromKey toKey g Hwf. split.
  - intros Hdead. unfold AddEdge, RemoveEdge.
    destruct (Lookup g fromKey) as [vf|ef] eqn:Ef.
    + destruct Hdead as [Hd|Hd]; [discriminate|].
      destruct (Lookup g toKey) as [vt|et] eqn:Et; [discriminate|].
      by rewrite (Lookup_Err_wf _ _ _ Hwf Et).
    + by rewrite (Lookup_Err_wf _ _ _ Hwf Ef).
  - intros Hf Ht. unfold AddEdge, RemoveEdge.
    destruct (Lookup g fromKey) as [vf|ef]; [|discriminate].
    destruct (Lookup g toKey) as [vt|et]; [|discriminate].
    pose proof (getAdjacent_fst g fromKey) as Ha.
    pose proof (getAdjacent_vertices g fromKey) as Hv.
    pose proof (getAdjacent_adj g fromKey) as Hadj.
    destruct (getAdjacent g fromKey) as [a g1]. simpl in *. subst a.
    repeat split; try done.
    + rewrite adj_set_adjacent. by rewrite decide_True.
    + intros k Hne. rewrite adj_set_adjacent. rewrite decide_False by done. apply Hadj.
    + rewrite adj_set_adjacent. by rewrite decide_True.
    + intros k Hne. rewrite adj_set_adjacent. rewrite decide_False by done. apply Hadj.
Qed.

Lemma edge_operations_witness :
  graph_wf g_tombstone
  /\ AddEdge 11 "vertex1" "vertex3" g_tombstone = (Some ErrVertexNotFound, g_tombstone)
  /\ (AddEdge 11 "vertex1" "vertex5" g_tombstone).1 = None.
Proof.
  assert (Hwf : graph_wf g_tombstone) by (apply graph_wf_run, graph_wf_NewGraph).
  split; [exact Hwf|].
  destruct (edge_operations_check_both_endpoints 11 "vertex1" "vertex3" g_tombstone Hwf)
    as [Hdead _].
  destruct (edge_operations_check_both_endpoints 11 "vertex1" "vertex5" g_tombstone Hwf)
    as [_ Hlive].
  split.
  - apply Hdead. right. vm_compute. reflexivity.
  - apply Hlive; vm_compute; reflexivity.
Defined.

(** *** C2: convergence *)

(** As the claim states it, convergence fails: two replicas that add the
    same key at the same instant with different values keep their own
    value when they merge each other, and their lists differ although each
    has merged the other. *)
Lemma C2_tie_counterexample :
  let gs := merge_all [(0, 1); (1, 0)]%nat [g_tieA; g_tieB] in
  g_tieA = run [OpAddVertex 1 {| Key := "vertex1"; Value := "a" |}] NewGraph
  /\ g_tieB = run [OpAddVertex 1 {| Key := "vertex1"; Value := "b" |}] NewGraph
  /\ gs = [Merge g_tieA g_tieB; Merge g_tieB (Merge g_tieA g_tieB)]
  /\ (LwwGraph.List idorder (Merge g_tieA g_tieB, 0%nat)).1
     = Ok (Slice [{| vertex := {| Key := "vertex1"; Value := "a" |};
                     AdjacentKeys := Slice [] |}])
  /\ (LwwGraph.List idorder (Merge g_tieB (Merge g_tieA g_tieB), 0%nat)).1
     = Ok (Slice [{| vertex := {| Key := "vertex1"; Value := "b" |};
                     AdjacentKeys := Slice [] |}])
  /\ (LwwGraph.List idorder (Merge g_tieA g_tieB, 0%nat)).1
     <> (LwwGraph.List idorder (Merge g_tieB g_tieA, 0%nat)).1.
Proof.
  split_and!; try (vm_compute; reflexivity).
  vm_compute. discriminate.
Qed.

(** C2 (amended).  Replicas start from the states that arbitrary sequences
    of mutations build from [NewGraph]; no two of them hold, for one vertex
    key, different add records with the same timestamp.  Then, after any
    schedule of merges between them (any order, any repetition, a replica
    merging itself included), any two replicas into which every initial
    state has flowed are equivalent and return the same [List], whatever the
    iteration orders; in particular merging A into B and B into A lists the
    same, and merging a replica into itself changes nothing it lists. *)
Theorem C2_replicas_converge_without_ties :
  forall order, (forall n l, order n l ≡ₚ l) ->
  forall (opss : list (list op)) (sched : list (nat * nat)),
    no_ties ((fun ops => run ops NewGraph) <$> opss) ->
    (forall i j gi gj Fi Fj (n m : nat),
        merge_all sched ((fun ops => run ops NewGraph) <$> opss) !! i = Some gi ->
        merge_all sched ((fun ops => run ops NewGraph) <$> opss) !! j = Some gj ->
        absorbed sched ((fun ops => run ops NewGraph) <$> opss) !! i = Some Fi ->
        absorbed sched ((fun ops => run ops NewGraph) <$> opss) !! j = Some Fj ->
        (forall h, h ∈ (fun ops => run ops NewGraph) <$> opss -> h ∈ Fi) ->
        (forall h, h ∈ (fun ops => run ops NewGraph) <$> opss -> h ∈ Fj) ->
        graph_equiv gi gj
        /\ (LwwGraph.List order (gi, n)).1 = (LwwGraph.List order (gj, m)).1)
    /\ (forall A B (n m : nat),
           A ∈ (fun ops => run ops NewGraph) <$> opss ->
           B ∈ (fun ops => run ops NewGraph) <$> opss ->
           (LwwGraph.List order (Merge A B, n)).1 = (LwwGraph.List order (Merge B A, m)).1)
    /\ (forall A (n m : nat),
           A ∈ (fun ops => run ops NewGraph) <$> opss ->
           (LwwGraph.List order (Merge A A, n)).1 = (LwwGraph.List order (A, m)).1).
Proof.
  intros order Hperm opss sched Hnt.
  assert (Hwf : Forall graph_wf ((fun ops => run ops NewGraph) <$> opss)).
  { apply Forall_fmap, Forall_forall. intros ops _. simpl.
    apply graph_wf_run, graph_wf_NewGraph. }
  split_and!.
  - intros i j gi gj Fi Fj n m Hgi Hgj HFi HFj Hi Hj.
    by eapply (replicas_converge order Hperm _ sched i j).
  - intros A B n m HA HB. rewrite Forall_forall in Hwf.
    apply (Merge_commutes order Hperm); [by apply Hwf|by apply Hwf|].
    eapply no_ties_sub; [|exact Hnt]. intros h Hh.
    apply elem_of_cons in Hh as [->|Hh]; [done|].
    apply elem_of_cons in Hh as [->|Hh]; [done|]. by apply elem_of_nil in Hh.
  - intros A n m HA. rewrite Forall_forall in Hwf.
    apply (List_equiv order Hperm order); [done|by apply graph_wf_Merge; apply Hwf|].
    apply Merge_idempotent.
Qed.

Lemma replicateGraphs_three (a b c : Graph) :
  replicateGraphs [a; b; c]
  = merge_all [(0, 1); (0, 2); (1, 0); (1, 2); (2, 0); (2, 1)]%nat [a; b; c].
Proof. reflexivity. Qed.

Lemma absorbed_three (a b c : Graph) :
  absorbed [(0, 1); (0, 2); (1, 0); (1, 2); (2, 0); (2, 1)]%nat [a; b; c]
  = [[a; b; c]; [b; a; b; c; c]; [c; a; b; c; b; a; b; c; c]].
Proof. reflexivity. Qed.

Lemma C2_replicas_converge_witness :
  (forall n l, idorder n l ≡ₚ l)
  /\ no_ties [g_convA; g_convB; g_convC]
  /\ (forall gi gj,
         replicateGraphs [g_convA; g_convB; g_convC] !! 0%nat = Some gi ->
         replicateGraphs [g_convA; g_convB; g_convC] !! 2%nat = Some gj ->
         (LwwGraph.List idorder (gi, 0%nat)).1 = (LwwGraph.List idorder (gj, 0%nat)).1).
Proof.
  assert (Hnt : no_ties [g_convA; g_convB; g_convC]).
  { apply no_ties_entries_sound. apply (bool_decide_unpack _). vm_compute. reflexivity. }
  split; [exact idorder_perm|]. split; [exact Hnt|].
  intros gi gj Hgi Hgj.
  rewrite replicateGraphs_three in Hgi, Hgj.
  pose proof (C2_replicas_converge_without_ties idorder idorder_perm
                [[OpAddVertex 1 v1];
                 [OpAddVertex 2 v2; OpAddVertex 3 v3; OpAddEdge 4 "vertex2" "vertex3"];
                 [OpAddVertex 5 v4]]
                [(0, 1); (0, 2); (1, 0); (1, 2); (2, 0); (2, 1)]%nat) as Hthm.
  change ((fun ops => run ops NewGraph) <$>
            [[OpAddVertex 1 v1];
             [OpAddVertex 2 v2; OpAddVertex 3 v3; OpAddEdge 4 "vertex2" "vertex3"];
             [OpAddVertex 5 v4]])
    with [g_convA; g_convB; g_convC] in Hthm.
  destruct (Hthm Hnt) as [Hconv _].
  rewrite absorbed_three in Hconv.
  apply (Hconv 0%nat 2%nat gi gj [g_convA; g_convB; g_convC]
           [g_convC; g_convA; g_convB; g_convC; g_convB; g_convA; g_convB; g_convC; g_convC]
           0%nat 0%nat); [exact Hgi|exact Hgj|reflexivity|reflexivity|..].
  - intros h Hh. exact Hh.
  - intros h Hh. apply elem_of_cons. right.
    change (h ∈ [g_convA; g_convB; g_convC]
                ++ [g_convB; g_convA; g_convB; g_convC; g_convC]).
    apply elem_of_app. left. exact Hh.
Defined.

(** *** C4: the breadth-first traversal *)

(** Evaluates the closed list of a membership hypothesis. *)
Ltac eval_list_in H :=
  match type of H with
  | ?x ∈ ?l =>
      let l' := eval vm_compute in l in
      let Heq := fresh "Heq" in
      assert (Heq : l = l') by (vm_compute; reflexivity);
      rewrite Heq in H; clear Heq
  end.

Lemma target_tombstone_v1 w : target g_tombstone "vertex1" w <-> w = v2.
Proof.
  split.
  - intros (e & He & HL). eval_list_in He.
    apply elem_of_cons in He as [->|He].
    { vm_compute in HL. discriminate HL. }
    apply elem_of_cons in He as [->|He].
    { vm_compute in HL. injection HL as <-. reflexivity. }
    apply elem_of_nil in He. destruct He.
  - intros ->. exists (IDElement "vertex2"). split; [|vm_compute; reflexivity].
    assert (Heq : live_elements (adj g_tombstone "vertex1")
                  = [IDElement "vertex3"; IDElement "vertex2"])
      by (vm_compute; reflexivity).
    rewrite Heq. apply elem_of_cons. right. apply elem_of_cons. by left.
Qed.

Lemma reach_tombstone_v1 w : reach g_tombstone "vertex1" w <-> w = v2.
Proof.
  split.
  - induction 1 as [w Hw|u w _ -> Hw]; [by apply target_tombstone_v1|].
    destruct Hw as (e & He & _). eval_list_in He.
    apply elem_of_nil in He. destruct He.
  - intros ->. by apply reach_first, target_tombstone_v1.
Qed.

Lemma NoDup_singleton_iff {A} (l : list A) (a : A) :
  NoDup l -> (forall x, x ∈ l <-> x = a) -> l = [a].
Proof.
  intros Hnd Hiff. destruct l as [|x l].
  - pose proof (proj2 (Hiff a) eq_refl) as H. by apply elem_of_nil in H.
  - assert (x = a) as -> by (apply Hiff; by left).
    destruct l as [|y l]; [done|].
    assert (y = a) as -> by (apply Hiff; right; by left).
    apply NoDup_cons in Hnd as [Hn _]. exfalso. apply Hn. by left.
Qed.

(** C4.  On a well-formed graph, for every iteration order, [FindConnected]
    of a live key returns no error and the vertices that a chain of
    resolving targets reaches from the key, each once and each live: a
    listed key whose vertex does not resolve contributes no vertex, no
    onward edge and no error.  On the graph of the test (v1->v2, v1->v3,
    v3->v5, v4->v3, then v3 removed) the result from v1 is exactly [v2]. *)
Theorem C4_find_connected_skips_non_live_targets :
  forall order, (forall n l, order n l ≡ₚ l) ->
  (forall (g : Graph) (n : nat) (key : string) (start : Vertex) (fuel : nat),
      graph_wf g -> Lookup g key = Ok start ->
      (size (additions (vertices g)) + 2 <= fuel)%nat ->
      exists conn st',
        FindConnected order fuel (g, n) key = Some (Ok (Slice conn), st')
        /\ NoDup conn
        /\ (forall w, w ∈ conn <-> reach g key w)
        /\ (forall w, w ∈ conn -> Lookup g (Key w) = Ok w)
        /\ (forall e w, Lookup g (GetKey e) = Err ErrVertexNotFound ->
                        w ∈ conn -> Key w <> GetKey e))
  /\ (forall (n fuel : nat), (7 <= fuel)%nat ->
      exists st',
        FindConnected order fuel (g_tombstone, n) "vertex1" = Some (Ok (Slice [v2]), st')).
Proof.
  intros order Hperm.
  assert (Hgen : forall (g : Graph) (n : nat) (key : string) (start : Vertex) (fuel : nat),
      graph_wf g -> Lookup g key = Ok start ->
      (size (additions (vertices g)) + 2 <= fuel)%nat ->
      exists conn st',
        FindConnected order fuel (g, n) key = Some (Ok (Slice conn), st')
        /\ NoDup conn
        /\ (forall w, w ∈ conn <-> reach g key w)
        /\ (forall w, w ∈ conn -> Lookup g (Key w) = Ok w)
        /\ (forall e w, Lookup g (GetKey e) = Err ErrVertexNotFound ->
                        w ∈ conn -> Key w <> GetKey e)).
  { intros g n key start fuel Hwf HL Hf.
    destruct (FindConnected_correct order Hperm g n key start fuel Hwf HL Hf)
      as (conn & st' & Hrun & Hnd & Hiff & _).
    assert (Hlive : forall w, w ∈ conn -> Lookup g (Key w) = Ok w).
    { intros w Hw. apply (reach_live g key); [done|]. by apply Hiff. }
    exists conn, st'. split_and!; try done.
    intros e w He Hw Hk. specialize (Hlive w Hw). congruence. }
  split; [exact Hgen|].
  intros n fuel Hf.
  assert (Hwf : graph_wf g_tombstone) by (apply graph_wf_run, graph_wf_NewGraph).
  destruct (Hgen g_tombstone n "vertex1" v1 fuel Hwf) as (conn & st' & Hrun & Hnd & Hiff & _).
  - vm_compute. reflexivity.
  - assert (Hs : size (additions (vertices g_tombstone)) = 5%nat) by (vm_compute; reflexivity).
    rewrite Hs. lia.
  - exists st'. rewrite Hrun.
    assert (Hconn : conn = [v2]); [|by rewrite Hconn].
    apply NoDup_singleton_iff; [exact Hnd|].
    intros w. rewrite Hiff. apply reach_tombstone_v1.
Qed.

Lemma C4_find_connected_witness :
  (forall n l, idorder n l ≡ₚ l)
  /\ exists st', FindConnected idorder 7 (g_tombstone, 0%nat) "vertex1"
                 = Some (Ok (Slice [v2]), st').
Proof.
  split; [exact idorder_perm|].
  exact (proj2 (C4_find_connected_skips_non_live_targets idorder idorder_perm)
               0%nat 7%nat (le_n 7)).
Defined.

(** *** C5: the depth-first search *)

(** C5.  On a well-formed graph, for every iteration order: a successful
    [FindPath] returns the from-vertex followed by a non-empty chain of
    targets (each entry is listed in the adjacency set of the entry before
    it and resolves) whose last entry is the to-vertex; so for
    [fromKey = toKey] a result always traverses at least one edge, and when
    no such cycle exists the call fails with [ErrPathNotFound] (as on a
    single vertex with no edge); when the adjacency set of the vertex lists
    only the vertex itself the result is exactly [v, v] (as on the
    self-loop graph of the test). *)
Theorem C5_find_path_follows_edges :
  forall order, (forall n l, order n l ≡ₚ l) ->
  (forall (g : Graph) (n : nat) (fromKey toKey : string) (fuel : nat) path st',
      graph_wf g ->
      FindPath order fuel (g, n) fromKey toKey = Some (Ok path, st') ->
      exists start last_v ext,
        Lookup g fromKey = Ok start /\ Lookup g toKey = Ok last_v
        /\ path = Slice (start :: ext) /\ ext <> []
        /\ chain g start ext /\ last ext = Some last_v)
  /\ (forall (g : Graph) (n : nat) (key : string) (v : Vertex) (fuel : nat),
      graph_wf g -> Lookup g key = Ok v ->
      (size (additions (vertices g)) + 2 <= fuel)%nat ->
      ~ (exists ext, ext <> [] /\ chain g v ext /\ last ext = Some v) ->
      exists st', FindPath order fuel (g, n) key key = Some (Err ErrPathNotFound, st'))
  /\ (forall (n fuel : nat), (3 <= fuel)%nat ->
      exists st', FindPath order fuel (g_single, n) "vertex1" "vertex1"
                  = Some (Err ErrPathNotFound, st'))
  /\ (forall (g : Graph) (n : nat) (key : string) (v : Vertex) (e : Element) (fuel : nat),
      graph_wf g -> Lookup g key = Ok v ->
      live_elements (adj g key) = [e] -> GetKey e = key -> (1 <= fuel)%nat ->
      exists st', FindPath order fuel (g, n) key key = Some (Ok (Slice [v; v]), st'))
  /\ (forall (n fuel : nat), (1 <= fuel)%nat ->
      exists st', FindPath order fuel (g_selfloop, n) "vertex1" "vertex1"
                  = Some (Ok (Slice [v1; v1]), st')).
Proof.
  intros order Hperm.
  assert (Hnocycle : forall (g : Graph) (n : nat) (key : string) (v : Vertex) (fuel : nat),
      graph_wf g -> Lookup g key = Ok v ->
      (size (additions (vertices g)) + 2 <= fuel)%nat ->
      ~ (exists ext, ext <> [] /\ chain g v ext /\ last ext = Some v) ->
      exists st', FindPath order fuel (g, n) key key = Some (Err ErrPathNotFound, st')).
  { intros g n key v fuel Hwf HL Hf Hno.
    destruct (FindPath_terminates order fuel g n key key Hf) as (r & st' & Hrun).
    exists st'. destruct r as [path|e].
    - exfalso. apply Hno.
      destruct (FindPath_sound order Hperm g n key key fuel path st' Hwf Hrun)
        as (start & last_v & ext & Hs & Hl & _ & Hne & Hc & Hlast).
      rewrite HL in Hs, Hl. injection Hs as <-. injection Hl as <-. eauto.
    - by rewrite (FindPath_error order Hperm g n key key fuel e st' v v Hwf HL HL Hrun)
        in Hrun. }
  split_and!.
  - intros g n fromKey toKey fuel path st' Hwf Hrun.
    by eapply (FindPath_sound order Hperm).
  - exact Hnocycle.
  - intros n fuel Hf. apply (Hnocycle g_single n "vertex1" v1).
    + apply graph_wf_run, graph_wf_NewGraph.
    + vm_compute. reflexivity.
    + assert (Hs : size (additions (vertices g_single)) = 1%nat) by (vm_compute; reflexivity).
      rewrite Hs. lia.
    + intros (ext & Hne & Hc & _).
      destruct ext as [|w ext]; [exfalso; apply Hne; reflexivity|].
      destruct Hc as [(e & He & _) _]. eval_list_in He.
      apply elem_of_nil in He. destruct He.
  - intros g n key v e fuel Hwf HL Hadj Hk Hf.
    by eapply (FindPath_single_edge order Hperm).
  - intros n fuel Hf.
    apply (FindPath_single_edge order Hperm g_selfloop n "vertex1" "vertex1" fuel v1 v1
             (IDElement "vertex1")).
    + apply graph_wf_run, graph_wf_NewGraph.
    + vm_compute. reflexivity.
    + vm_compute. reflexivity.
    + vm_compute. reflexivity.
    + reflexivity.
    + exact Hf.
Qed.

Lemma C5_find_path_witness :
  (forall n l, idorder n l ≡ₚ l)
  /\ (exists st', FindPath idorder 3 (g_selfloop, 0%nat) "vertex1" "vertex1"
                  = Some (Ok (Slice [v1; v1]), st'))
  /\ (exists st', FindPath idorder 3 (g_single, 0%nat) "vertex1" "vertex1"
                  = Some (Err ErrPathNotFound, st')).
Proof.
  split; [exact idorder_perm|].
  destruct (C5_find_path_follows_edges idorder idorder_perm) as (_ & _ & H1 & _ & H2).
  split; [apply H2; lia|apply H1; lia].
Defined.

(** *** C7: the snapshot *)



(** *** C10: empty results are empty slices *)

Lemma connect_range_Slice g adjl : forall vars vars' l,
  connected vars = Slice l -> connect_range g adjl vars = Ok vars' ->
  exists l', connected vars' = Slice l'.
Proof.
  induction adjl as [|e rest IH]; intros vars vars' l Hc Hrun; simpl in Hrun.
  - injection Hrun as <-. eauto.
  - destruct (Lookup g (GetKey e)) as [vertex|err].
    + destruct (decide (Key vertex ∈ visited vars)); [by eapply IH|].
      eapply IH; [|exact Hrun]. reflexivity.
    + destruct err; try discriminate. by eapply IH.
Qed.

Lemma bfs_loop_Slice order fuel : forall st vars l c st',
  connected vars = Slice l ->
  bfs_loop order fuel st vars = Some (Ok c, st') -> exists l', c = Slice l'.
Proof.
  induction fuel as [|fuel IH]; intros st vars l c st' Hc Hrun; [discriminate|].
  cbn [bfs_loop] in Hrun. destruct (queue vars) as [|current queue'].
  - injection Hrun as <- _. eauto.
  - destruct (adjacent_list order st (Key current)) as [adjacent st1].
    match type of Hrun with context [connect_range ?g ?a ?v] =>
      destruct (connect_range g a v) as [vars'|e] eqn:EC end; [|discriminate].
    apply connect_range_Slice with (l := l) in EC as [l' Hl']; [|done].
    by eapply IH.
Qed.

Lemma connect_range_all_dead g adjl vars :
  (forall e, e ∈ adjl -> Lookup g (GetKey e) = Err ErrVertexNotFound) ->
  connect_range g adjl vars = Ok vars.
Proof.
  induction adjl as [|e rest IH]; intros Hdead; [done|].
  simpl. rewrite (Hdead e) by (by left). apply IH. intros e' He'. apply Hdead. by right.
Qed.

(** C10.  For every iteration order: [Set.List] always returns a non-nil
    slice, the empty one when no key is contained; a [FindConnected] that
    returns without error returns a non-nil slice, the empty one when the
    key is live and no key listed in its adjacency set resolves; a
    [Graph.List] that returns without error returns a non-nil slice, the
    empty one when no vertex key is contained. *)
Theorem C10_empty_results_are_empty_slices :
  forall order, (forall n l, order n l ≡ₚ l) ->
  (forall (n : nat) (s : ElementSet.t), exists l, ElementSet.List order n s = Slice l)
  /\ (forall (n : nat) (s : ElementSet.t),
         (forall k, is_ok (Contains s k) = false) -> ElementSet.List order n s = Slice [])
  /\ (forall (fuel : nat) (g : Graph) (n : nat) key c st',
         FindConnected order fuel (g, n) key = Some (Ok c, st') -> exists l, c = Slice l)
  /\ (forall (fuel : nat) (g : Graph) (n : nat) key start,
         (2 <= fuel)%nat -> graph_wf g -> Lookup g key = Ok start ->
         (forall e, e ∈ live_elements (adj g key) ->
                    Lookup g (GetKey e) = Err ErrVertexNotFound) ->
         exists st', FindConnected order fuel (g, n) key = Some (Ok (Slice []), st'))
  /\ (forall (g : Graph) (n : nat) r st',
         LwwGraph.List order (g, n) = (Ok r, st') -> exists l, r = Slice l)
  /\ (forall (g : Graph) (n : nat),
         (forall k, is_ok (Contains (vertices g) k) = false) ->
         LwwGraph.List order (g, n) = (Ok (Slice []), (g, S n))).
Proof.
  intros order Hperm. split_and!.
  - intros n s. apply List_is_Slice.
  - intros n s. by apply List_nothing_live.
  - intros fuel g n key c st'. unfold FindConnected. cbn [fst].
    destruct (Lookup g key) as [start|e]; [|discriminate].
    by apply bfs_loop_Slice with (l := []).
  - intros fuel g n key start Hf Hwf HL Hdead. unfold FindConnected. cbn [fst].
    rewrite HL. destruct fuel as [|[|fuel]]; [lia|lia|].
    cbn [bfs_loop queue]. rewrite adjacent_list_eq. cbn [fst visited connected].
    rewrite (Lookup_Key _ _ _ Hwf HL).
    rewrite connect_range_all_dead; [cbn [queue connected]; eauto|].
    intros e He. rewrite (Lookup_ext _ g) by apply getAdjacent_vertices.
    apply Hdead. by rewrite <- (List_live_elements order Hperm n).
  - intros g n r st'. unfold LwwGraph.List. apply list_range_Slice.
  - intros g n. by apply List_no_live_vertex.
Qed.

Lemma C10_empty_results_witness :
  (forall n l, idorder n l ≡ₚ l)
  /\ ElementSet.List idorder 0 setA = Slice []
  /\ (exists st', FindConnected idorder 2 (g_tombstone, 0%nat) "vertex4"
                  = Some (Ok (Slice []), st'))
  /\ LwwGraph.List idorder (NewGraph, 0%nat) = (Ok (Slice []), (NewGraph, 1%nat)).
Proof.
  split; [exact idorder_perm|].
  destruct (C10_empty_results_are_empty_slices idorder idorder_perm)
    as (_ & HS & _ & HC & _ & HG).
  split_and!.
  - apply HS. intros k. unfold Contains.
    destruct (additions setA !! k) as [r|] eqn:E; [|done].
    apply elem_of_map_to_list in E. eval_list_in E.
    apply elem_of_cons in E as [E|E]; [|apply elem_of_nil in E; destruct E].
    injection E as -> ->. vm_compute. reflexivity.
  - apply (HC 2%nat g_tombstone 0%nat "vertex4" v4).
    + lia.
    + apply graph_wf_run, graph_wf_NewGraph.
    + vm_compute. reflexivity.
    + intros e He. eval_list_in He.
      apply elem_of_cons in He as [->|He]; [|apply elem_of_nil in He; destruct He].
      vm_compute. reflexivity.
  - apply HG. intros k. unfold Contains. simpl. by rewrite lookup_empty.
Defined.

End Claims.

(* ===================================================================== *)
(** * Further properties of the code *)
(* ===================================================================== *)

(** ** The element set *)

Module SetExtras.
Import ElementSet SetFacts Scenarios Histories.

(** *** [Add] and [Contains] *)

(** After [Add] the element is contained exactly when its key has no
    removal and the time of the add is not before the zero time; the other
    keys answer as before. *)
Theorem Add_then_Contains (now : Z) (e : Element) (s : ElementSet.t) :
  (Contains (Add now e s) (GetKey e) = Ok e
   <-> removals s !! GetKey e = None /\ 0 <= now)
  /\ (Contains (Add now e s) (GetKey e) <> Ok e
      -> Contains (Add now e s) (GetKey e) = Err ErrElementNotFound)
  /\ (forall k, k <> GetKey e -> Contains (Add now e s) k = Contains s k).
Proof.
  split_and!.
  - rewrite Contains_Ok. split.
    + intros (r & Hr & He & Hrm). simpl in Hr. rewrite lookup_insert_eq in Hr.
      injection Hr as <-. by apply removed_false in Hrm.
    + intros [Hn Ht]. eexists. split; [simpl; apply lookup_insert_eq|].
      split; [done|]. by apply removed_false.
  - intros Hne. destruct (Contains (Add now e s) (GetKey e)) as [e'|err] eqn:E.
    + exfalso. apply Hne. f_equal. apply Contains_Ok in E as (r & Hr & He & _).
      simpl in Hr. rewrite lookup_insert_eq in Hr. by injection Hr as <-.
    + by rewrite (Contains_Err _ _ _ E).
  - intros k Hne. unfold Contains. simpl. rewrite lookup_insert_ne by done.
    reflexivity.
Qed.

(** [Contains] in terms of the two maps. *)
Lemma Contains_iff_no_removal_set s k e :
  set_wf s ->
  Contains s k = Ok e <->
  exists r, additions s !! k = Some r /\ Elem r = e
            /\ removals s !! k = None /\ 0 <= Timestamp r.
Proof.
  intros Hwf. rewrite Contains_Ok. split.
  - intros (r & Hr & He & Hrm). exists r. apply removed_false in Hrm.
    rewrite (Hwf _ _ Hr) in Hrm. naive_solver.
  - intros (r & Hr & He & Hn & Ht). exists r. split; [done|]. split; [done|].
    apply removed_false. by rewrite (Hwf _ _ Hr).
Qed.

(** *** A removal is permanent *)

Lemma set_exec_wf c s :
  set_wf s -> (forall remote, c = CallReplicate remote -> set_wf remote) ->
  set_wf (set_exec c s).
Proof.
  intros Hwf Hr. destruct c as [now e|now key|remote]; cbn [set_exec].
  - by apply set_wf_Add.
  - by apply set_wf_Remove.
  - apply set_wf_Replicate; [done|]. by apply Hr.
Qed.

Lemma set_exec_removal c s k :
  is_Some (removals s !! k) -> is_Some (removals (set_exec c s) !! k).
Proof.
  intros Hs. destruct c as [now e|now key|remote]; cbn [set_exec].
  - done.
  - simpl. rewrite lookup_insert. case_decide; [eauto|done].
  - rewrite Replicate_removals. by apply reg_join_is_Some.
Qed.

Lemma Contains_removed s k :
  set_wf s -> is_Some (removals s !! k) -> Contains s k = Err ErrElementNotFound.
Proof.
  intros Hwf [at_ Hat]. unfold Contains.
  destruct (additions s !! k) as [r|] eqn:E; [|done].
  rewrite (removed_true_of_removal s r at_); [done|]. by rewrite (Hwf _ _ E).
Qed.

(** Once a key has a removal, whatever its time, no later [Add], [Remove]
    or [Replicate] makes [Contains] find the key again. *)
Theorem removal_is_permanent (cs : list set_call) (s : ElementSet.t) (k : string) :
  set_wf s ->
  Forall (fun c => forall remote, c = CallReplicate remote -> set_wf remote) cs ->
  is_Some (removals s !! k) ->
  Contains (set_run cs s) k = Err ErrElementNotFound
  /\ is_Some (removals (set_run cs s) !! k).
Proof.
  revert s. induction cs as [|c cs IH]; intros s Hwf Hcs Hrm.
  - split; [by apply Contains_removed|done].
  - apply Forall_cons in Hcs as [Hc Hcs]. simpl. apply IH.
    + by apply set_exec_wf.
    + done.
    + by apply set_exec_removal.
Qed.

Lemma removal_is_permanent_witness :
  set_wf (Remove 2 "element1" NewSet)
  /\ Contains (set_run [CallAdd 3 e1; CallReplicate setB0; CallAdd 9 e1]
                       (Remove 2 "element1" NewSet)) "element1"
     = Err ErrElementNotFound.
Proof.
  assert (Hwf : set_wf (Remove 2 "element1" NewSet))
    by (apply set_wf_Remove, set_wf_NewSet).
  split; [exact Hwf|].
  refine (proj1 (removal_is_permanent
                   [CallAdd 3 e1; CallReplicate setB0; CallAdd 9 e1]
                   (Remove 2 "element1" NewSet) "element1" Hwf _ _)).
  - repeat (apply Forall_cons; split); try (intros remote Hremote; discriminate Hremote).
    + intros remote [= <-]. apply set_wf_Add, set_wf_NewSet.
    + apply Forall_nil_2.
  - simpl. rewrite lookup_insert_eq. eauto.
Defined.

(** *** [Replicate] as a join *)

Lemma reg_join_assoc {V} (ts : V -> Z) (a b c : option V) :
  reg_join ts (reg_join ts a b) c = reg_join ts a (reg_join ts b c).
Proof.
  destruct a as [x|], b as [y|], c as [z|]; unfold reg_join, After;
    repeat match goal with
           | |- context [?u <? ?v] => destruct (Z.ltb_spec u v)
           end;
    first [reflexivity | exfalso; lia].
Qed.

Lemma Replicate_assoc (a b c : ElementSet.t) :
  Replicate (Replicate a b) c = Replicate a (Replicate b c).
Proof.
  apply t_eq; apply map_eq; intros k.
  - rewrite !Replicate_additions. apply reg_join_assoc.
  - rewrite !Replicate_removals. apply reg_join_assoc.
Qed.

Lemma Replicate_NewSet_l s : Replicate NewSet s = s.
Proof.
  apply t_eq; apply map_eq; intros k.
  - rewrite Replicate_additions. cbn [NewSet additions]. rewrite lookup_empty.
    unfold reg_join. by destruct (additions s !! k).
  - rewrite Replicate_removals. cbn [NewSet removals]. rewrite lookup_empty.
    unfold reg_join. by destruct (removals s !! k).
Qed.

(** [Replicate] is associative and idempotent and the empty set is its
    unit, whatever the timestamps. *)
Theorem Replicate_assoc_idem_unit (a b c : ElementSet.t) :
  Replicate (Replicate a b) c = Replicate a (Replicate b c)
  /\ Replicate a a = a
  /\ Replicate a NewSet = a
  /\ Replicate NewSet a = a.
Proof.
  split_and!.
  - apply Replicate_assoc.
  - apply Replicate_idem.
  - apply Replicate_NewSet.
  - apply Replicate_NewSet_l.
Qed.

(** [Replicate] commutes exactly when the two sets hold no two different
    add records with the same timestamp under one key: on such a tie each
    side keeps its own record. *)
Theorem Replicate_comm_iff_no_tie (a b : ElementSet.t) :
  Replicate a b = Replicate b a
  <-> (forall k ra rb, additions a !! k = Some ra -> additions b !! k = Some rb ->
                       Timestamp ra = Timestamp rb -> ra = rb).
Proof.
  split.
  - intros Heq k ra rb Ha Hb Hts.
    assert (H1 : additions (Replicate a b) !! k = Some ra).
    { rewrite Replicate_additions, Ha, Hb. unfold reg_join, After.
      rewrite Hts, Z.ltb_irrefl. done. }
    assert (H2 : additions (Replicate b a) !! k = Some rb).
    { rewrite Replicate_additions, Ha, Hb. unfold reg_join, After.
      rewrite Hts, Z.ltb_irrefl. done. }
    rewrite Heq in H1. congruence.
  - intros Hnt. apply t_eq; apply map_eq; intros k.
    + rewrite !Replicate_additions. unfold reg_join, After.
      destruct (additions a !! k) as [ra|] eqn:Ha, (additions b !! k) as [rb|] eqn:Hb;
        try done.
      destruct (Z.ltb_spec (Timestamp ra) (Timestamp rb)),
               (Z.ltb_spec (Timestamp rb) (Timestamp ra));
        first [reflexivity | exfalso; lia | idtac].
      f_equal. apply (Hnt k); [done|done|lia].
    + rewrite !Replicate_removals. unfold reg_join, After.
      destruct (removals a !! k) as [ra|], (removals b !! k) as [rb|]; try done.
      destruct (Z.ltb_spec ra rb), (Z.ltb_spec rb ra);
        first [reflexivity | exfalso; lia | f_equal; lia].
Qed.

Lemma Contains_Replicate_cases (s remote : ElementSet.t) (k : string) :
  set_wf s -> set_wf remote ->
  (is_Some (removals s !! k) \/ is_Some (removals remote !! k) ->
     Contains (Replicate s remote) k = Err ErrElementNotFound)
  /\ (forall e, Contains (Replicate s remote) k = Ok e ->
                Contains s k = Ok e \/ Contains remote k = Ok e)
  /\ (is_ok (Contains s k) = true -> removals remote !! k = None ->
        is_ok (Contains (Replicate s remote) k) = true).
Proof.
  intros Hs Hr.
  assert (Hwf : set_wf (Replicate s remote)) by (by apply set_wf_Replicate).
  split_and!.
  - intros Hrm. apply Contains_removed; [done|].
    rewrite Replicate_removals. destruct Hrm as [H|[x H]].
    + by apply reg_join_is_Some.
    + rewrite H. unfold reg_join. destruct (removals s !! k) as [y|]; [|eauto].
      destruct (After x y); eauto.
  - intros e H. apply (Contains_iff_no_removal_set _ _ _ Hwf) in H
      as (r & Hadd & He & Hnone & Ht).
    rewrite Replicate_removals in Hnone. rewrite Replicate_additions in Hadd.
    assert (Hns : removals s !! k = None).
    { destruct (removals s !! k) as [x|] eqn:E; [|done].
      assert (Hx : is_Some (reg_join (fun t : Z => t) (Some x) (removals remote !! k)))
        by (apply reg_join_is_Some; eauto).
      rewrite Hnone in Hx. by destruct Hx. }
    assert (Hnr : removals remote !! k = None).
    { destruct (removals remote !! k) as [x|] eqn:E; [|done].
      rewrite Hns in Hnone. discriminate. }
    apply reg_join_cases in Hadd as [Hadd|Hadd]; [left|right];
      apply Contains_iff_no_removal_set; eauto 10.
  - intros Hok Hnr.
    destruct (Contains s k) as [e|] eqn:E; [|discriminate].
    apply (Contains_iff_no_removal_set _ _ _ Hs) in E as (r & Hadd & He & Hns & Ht).
    assert (Hnone : removals (Replicate s remote) !! k = None)
      by (by rewrite Replicate_removals, Hns, Hnr).
    assert (Hex : exists r', additions (Replicate s remote) !! k = Some r'
                             /\ 0 <= Timestamp r').
    { rewrite Replicate_additions, Hadd. unfold reg_join, After.
      destruct (additions remote !! k) as [rr|]; [|eauto].
      destruct (Z.ltb_spec (Timestamp r) (Timestamp rr)); eexists; split; eauto; lia. }
    destruct Hex as (r' & Hadd' & Ht').
    assert (HC : Contains (Replicate s remote) k = Ok (Elem r'))
      by (apply Contains_iff_no_removal_set; eauto 10).
    by rewrite HC.
Qed.

(** What [Contains] answers after a merge: a removal on either side hides
    the key; a key found after the merge was found on one of the sides; a
    key found locally and not removed remotely is still found. *)
Theorem Contains_after_Replicate (s remote : ElementSet.t) (k : string) :
  set_wf s -> set_wf remote ->
  (is_Some (removals s !! k) \/ is_Some (removals remote !! k) ->
     Contains (Replicate s remote) k = Err ErrElementNotFound)
  /\ (forall e, Contains (Replicate s remote) k = Ok e ->
                Contains s k = Ok e \/ Contains remote k = Ok e)
  /\ (is_ok (Contains s k) = true -> removals remote !! k = None ->
        is_ok (Contains (Replicate s remote) k) = true).
Proof. apply Contains_Replicate_cases. Qed.

Lemma Contains_after_Replicate_witness :
  set_wf setA0 /\ set_wf setB0
  /\ Contains (Replicate setB0 setA0) "element1" = Err ErrElementNotFound.
Proof.
  assert (HA : set_wf setA0) by (apply set_wf_Remove, set_wf_Add, set_wf_NewSet).
  assert (HB : set_wf setB0) by (apply set_wf_Add, set_wf_NewSet).
  split; [exact HA|]. split; [exact HB|].
  apply (proj1 (Contains_after_Replicate setB0 setA0 "element1" HB HA)).
  right. unfold setA0. simpl. rewrite lookup_insert_eq. eauto.
Defined.

(** *** [List] and [Contains] agree *)

(** For every iteration order, [List] holds exactly the elements that
    [Contains] finds under their key, one per key. *)
Theorem List_agrees_with_Contains :
  forall order, (forall n l, order n l ≡ₚ l) ->
  forall (n : nat) (s : ElementSet.t),
    set_wf s ->
    (forall e, e ∈ elems (ElementSet.List order n s) <-> Contains s (GetKey e) = Ok e)
    /\ NoDup (GetKey <$> elems (ElementSet.List order n s))
    /\ (length (elems (ElementSet.List order n s)) <= size (additions s))%nat.
Proof.
  intros order Hperm n s Hwf. split_and!.
  - intros e. by apply elem_of_List_wf.
  - by apply List_keys_NoDup.
  - rewrite (List_elems order n s), length_fmap.
    etrans; [apply length_filter|].
    rewrite (Permutation_length (Hperm n _)). by rewrite length_map_to_list.
Qed.

Lemma List_agrees_with_Contains_witness :
  (forall n l, idorder n l ≡ₚ l) /\ set_wf setB0
  /\ NoDup (GetKey <$> elems (ElementSet.List idorder 0 setB0)).
Proof.
  assert (HB : set_wf setB0) by (apply set_wf_Add, set_wf_NewSet).
  split; [intros n l; reflexivity|]. split; [exact HB|].
  exact (proj1 (proj2 (List_agrees_with_Contains idorder (fun n l => reflexivity _)
                         0%nat setB0 HB))).
Defined.

End SetExtras.

(** ** The graph *)

Module GraphExtras.
Import ElementSet SetFacts LwwGraph GraphFacts TraversalFacts KeyOrder ListFacts.
Import ConnectedFacts PathFacts ConvergenceFacts Scenarios Histories SetExtras.

(** *** What a call does to the two dimensions *)

(** A mutation leaves the vertices set as it is or applies one [Add] or
    [Remove] to it. *)
Lemma exec_vertices o g :
  vertices (exec o g).2 = vertices g
  \/ exists c, vertices (exec o g).2 = set_exec c (vertices g)
               /\ forall remote, c <> CallReplicate remote.
Proof.
  destruct o as [now v|now key|now f t|now f t]; cbn [exec].
  - unfold AddVertex. destruct (Lookup g (Key v)) as [w|[]]; try (by left).
    right. exists (CallAdd now (VertexElement v)). by split.
  - unfold RemoveVertex. destruct (Lookup g key) as [w|e]; [|by left].
    right. exists (CallRemove now key). by split.
  - left. unfold AddEdge. destruct (Lookup g f); [|done]. destruct (Lookup g t); [|done].
    pose proof (getAdjacent_vertices g f) as Hv. by destruct (getAdjacent g f).
  - left. unfold RemoveEdge. destruct (Lookup g f); [|done]. destruct (Lookup g t); [|done].
    pose proof (getAdjacent_vertices g f) as Hv. by destruct (getAdjacent g f).
Qed.

(** A mutation leaves an adjacency set as it is or applies one [Add] or
    [Remove] to it. *)
Lemma exec_adj o g k :
  adj (exec o g).2 k = adj g k
  \/ exists c, adj (exec o g).2 k = set_exec c (adj g k)
               /\ (forall remote, c <> CallReplicate remote)
               /\ (forall now e, c = CallAdd now e -> exists t, e = IDElement t).
Proof.
  destruct o as [now v|now key|now f t|now f t]; cbn [exec].
  - left. unfold AddVertex. by destruct (Lookup g (Key v)) as [w|[]].
  - left. unfold RemoveVertex. by destruct (Lookup g key) as [w|e].
  - unfold AddEdge. destruct (Lookup g f); [|by left]. destruct (Lookup g t); [|by left].
    pose proof (getAdjacent_fst g f) as Ha. pose proof (getAdjacent_adj g f k) as Hadj.
    destruct (getAdjacent g f) as [adjacent g1]. cbn [fst snd] in *. subst adjacent.
    rewrite adj_set_adjacent. case_decide as Hk; [subst k|by left].
    right. exists (CallAdd now (IDElement t)). split_and!; [done|done|].
    intros now' e [= _ <-]. eauto.
  - unfold RemoveEdge. destruct (Lookup g f); [|by left]. destruct (Lookup g t); [|by left].
    pose proof (getAdjacent_fst g f) as Ha. pose proof (getAdjacent_adj g f k) as Hadj.
    destruct (getAdjacent g f) as [adjacent g1]. cbn [fst snd] in *. subst adjacent.
    rewrite adj_set_adjacent. case_decide as Hk; [subst k|by left].
    right. exists (CallRemove now t). split_and!; [done|done|]. intros now' e. discriminate.
Qed.

Lemma graph_exec_wf c g :
  graph_wf g -> (forall remote, c = CallMerge remote -> graph_wf remote) ->
  graph_wf (graph_exec c g).
Proof.
  intros Hwf Hr. destruct c as [o|remote]; cbn [graph_exec].
  - by apply Claims.graph_wf_exec.
  - apply graph_wf_Merge; [done|]. by apply Hr.
Qed.

Lemma graph_run_wf cs : forall g,
  graph_wf g -> Forall (fun c => forall remote, c = CallMerge remote -> graph_wf remote) cs ->
  graph_wf (graph_run cs g).
Proof.
  induction cs as [|c cs IH]; intros g Hwf Hcs; [done|].
  apply Forall_cons in Hcs as [Hc Hcs]. cbn [graph_run fold_left].
  apply IH; [|done]. by apply graph_exec_wf.
Qed.

Lemma built_wf g : built g -> graph_wf g.
Proof.
  induction 1 as [|o g _ IH|g remote _ IHg _ IHr].
  - apply graph_wf_NewGraph.
  - by apply Claims.graph_wf_exec.
  - by apply graph_wf_Merge.
Qed.

Lemma built_run ops : forall g, built g -> built (run ops g).
Proof.
  induction ops as [|o ops IH]; intros g Hb; [done|].
  cbn [run fold_left]. apply IH. by apply built_op.
Qed.

(** A removal, in the vertices set or in an adjacency set, survives every
    call. *)
Lemma graph_exec_removals c g k :
  (is_Some (removals (vertices g) !! k) ->
   is_Some (removals (vertices (graph_exec c g)) !! k))
  /\ (forall f, is_Some (removals (adj g f) !! k) ->
                is_Some (removals (adj (graph_exec c g) f) !! k)).
Proof.
  destruct c as [o|remote]; cbn [graph_exec]; split.
  - intros H. destruct (exec_vertices o g) as [->|(c & -> & _)]; [done|].
    by apply set_exec_removal.
  - intros f H. destruct (exec_adj o g f) as [->|(c & -> & _)]; [done|].
    by apply set_exec_removal.
  - intros H. rewrite Merge_vertices, Replicate_removals. by apply reg_join_is_Some.
  - intros f H. rewrite Merge_adj, Replicate_removals. by apply reg_join_is_Some.
Qed.

Lemma graph_run_removals cs : forall g k,
  (is_Some (removals (vertices g) !! k) ->
   is_Some (removals (vertices (graph_run cs g)) !! k))
  /\ (forall f, is_Some (removals (adj g f) !! k) ->
                is_Some (removals (adj (graph_run cs g) f) !! k)).
Proof.
  induction cs as [|c cs IH]; intros g k; [done|].
  cbn [graph_run fold_left]. destruct (graph_exec_removals c g k) as [Hv He].
  destruct (IH (graph_exec c g) k) as [IHv IHe]. split.
  - intros H. by apply IHv, Hv.
  - intros f H. by apply IHe, He.
Qed.

(** *** [AddVertex] and [Lookup] *)



(** *** Errors of the mutations *)

(** On a graph that calls built from [NewGraph], [Lookup] finds a vertex
    stored under the asked key or answers [ErrVertexNotFound]; a mutation
    that returns an error leaves the graph as it was, and the error is
    [ErrVertexNotFound], or [ErrVertexAlreadyExists] from [AddVertex] on a
    key that [Lookup] finds: [ErrInvalidVertexType] never comes back. *)
Theorem built_graph_errors (g : Graph) :
  built g ->
  graph_wf g
  /\ (forall k, (exists v, Lookup g k = Ok v /\ Key v = k)
                \/ Lookup g k = Err ErrVertexNotFound)
  /\ (forall o e g', exec o g = (Some e, g') ->
        g' = g
        /\ match o with
           | OpAddVertex _ v => e = ErrVertexAlreadyExists /\ is_ok (Lookup g (Key v)) = true
           | OpRemoveVertex _ key => e = ErrVertexNotFound /\ is_ok (Lookup g key) = false
           | OpAddEdge _ f t | OpRemoveEdge _ f t =>
               e = ErrVertexNotFound
               /\ (is_ok (Lookup g f) = false \/ is_ok (Lookup g t) = false)
           end)
  /\ (forall o g', exec o g = (None, g') ->
        match o with
        | OpAddVertex _ v => is_ok (Lookup g (Key v)) = false
        | OpRemoveVertex _ key => is_ok (Lookup g key) = true
        | OpAddEdge _ f t | OpRemoveEdge _ f t =>
            is_ok (Lookup g f) = true /\ is_ok (Lookup g t) = true
        end).
Proof.
  intros Hb. pose proof (built_wf g Hb) as Hwf. split_and!.
  - done.
  - intros k. destruct (Lookup g k) as [v|e] eqn:EL.
    + left. exists v. split; [done|]. by eapply Lookup_Key.
    + right. by rewrite (Lookup_Err_wf _ _ _ Hwf EL).
  - intros o e g'. destruct o as [now v|now key|now f t|now f t]; cbn [exec].
    + unfold AddVertex. destruct (Lookup g (Key v)) as [w|e'] eqn:EL.
      * by intros [= <- <-].
      * rewrite (Lookup_Err_wf _ _ _ Hwf EL). discriminate.
    + unfold RemoveVertex. destruct (Lookup g key) as [w|e'] eqn:EL; [discriminate|].
      rewrite (Lookup_Err_wf _ _ _ Hwf EL). by intros [= <- <-].
    + unfold AddEdge. destruct (Lookup g f) as [vf|ef] eqn:Ef.
      * destruct (Lookup g t) as [vt|et] eqn:Et.
        -- destruct (getAdjacent g f). discriminate.
        -- rewrite (Lookup_Err_wf _ _ _ Hwf Et). intros [= <- <-]. eauto.
      * rewrite (Lookup_Err_wf _ _ _ Hwf Ef). intros [= <- <-]. eauto.
    + unfold RemoveEdge. destruct (Lookup g f) as [vf|ef] eqn:Ef.
      * destruct (Lookup g t) as [vt|et] eqn:Et.
        -- destruct (getAdjacent g f). discriminate.
        -- rewrite (Lookup_Err_wf _ _ _ Hwf Et). intros [= <- <-]. eauto.
      * rewrite (Lookup_Err_wf _ _ _ Hwf Ef). intros [= <- <-]. eauto.
  - intros o g'. destruct o as [now v|now key|now f t|now f t]; cbn [exec].
    + unfold AddVertex. destruct (Lookup g (Key v)) as [w|[]]; try discriminate. done.
    + unfold RemoveVertex. by destruct (Lookup g key) as [w|e'].
    + unfold AddEdge. destruct (Lookup g f) as [vf|ef]; [|discriminate].
      by destruct (Lookup g t) as [vt|et].
    + unfold RemoveEdge. destruct (Lookup g f) as [vf|ef]; [|discriminate].
      by destruct (Lookup g t) as [vt|et].
Qed.

Lemma built_graph_errors_witness :
  built g_tombstone /\ graph_wf g_tombstone.
Proof.
  assert (Hb : built g_tombstone) by (apply built_run, built_new).
  split; [exact Hb|]. exact (proj1 (built_graph_errors g_tombstone Hb)).
Defined.

(** *** Tombstones *)



(** [target] in terms of the maps of the adjacency set. *)
Lemma target_iff g k w :
  graph_wf g ->
  target g k w <->
  (exists r, additions (adj g k) !! Key w = Some r
             /\ removals (adj g k) !! Key w = None /\ 0 <= Timestamp r)
  /\ Lookup g (Key w) = Ok w.
Proof.
  intros Hwf. pose proof (adj_wf g k Hwf) as Hs. split.
  - intros (e & He & HL). apply (elem_of_live_elements_wf _ _ Hs) in He.
    pose proof (Lookup_Key _ _ _ Hwf HL) as Hk. rewrite <- Hk in HL. split; [|done].
    apply (Contains_iff_no_removal_set _ _ _ Hs) in He as (r & Hr & _ & Hn & Ht).
    rewrite Hk. eauto.
  - intros [(r & Hr & Hn & Ht) HL]. exists (Elem r).
    pose proof (adj_typed _ _ _ _ Hwf Hr) as He. split.
    + apply (elem_of_live_elements_wf _ _ Hs). rewrite He. cbn [GetKey].
      apply (Contains_iff_no_removal_set _ _ _ Hs). eauto.
    + by rewrite He.
Qed.

(** *** [AddEdge], [RemoveEdge] and the targets of a vertex *)

(** Between two vertices that [Lookup] finds: after [AddEdge] the
    to-vertex is a target of the from-key exactly when the adjacency set
    never saw a removal of the to-key (and the clock is not before the zero
    time); after [RemoveEdge] it is not a target.  The other targets are as
    before. *)
Theorem AddEdge_then_target (now : Z) (f t : string) (vf vt : Vertex) (g : Graph) :
  graph_wf g -> Lookup g f = Ok vf -> Lookup g t = Ok vt ->
  (target (AddEdge now f t g).2 f vt
   <-> removals (adj g f) !! t = None /\ 0 <= now)
  /\ ~ target (RemoveEdge now f t g).2 f vt
  /\ (forall k w, k <> f \/ Key w <> t ->
        (target (AddEdge now f t g).2 k w <-> target g k w)
        /\ (target (RemoveEdge now f t g).2 k w <-> target g k w)).
Proof.
  intros Hwf Hf Ht.
  pose proof (graph_wf_AddEdge now f t g Hwf) as HwA.
  pose proof (graph_wf_RemoveEdge now f t g Hwf) as HwR.
  pose proof (Lookup_Key _ _ _ Hwf Ht) as Hkt.
  assert (HvA : vertices (AddEdge now f t g).2 = vertices g).
  { unfold AddEdge. rewrite Hf, Ht. pose proof (getAdjacent_vertices g f).
    by destruct (getAdjacent g f). }
  assert (HvR : vertices (RemoveEdge now f t g).2 = vertices g).
  { unfold RemoveEdge. rewrite Hf, Ht. pose proof (getAdjacent_vertices g f).
    by destruct (getAdjacent g f). }
  assert (HaA : forall k, adj (AddEdge now f t g).2 k
                          = if decide (f = k) then Add now (IDElement t) (adj g f)
                            else adj g k).
  { intros k. unfold AddEdge. rewrite Hf, Ht.
    pose proof (getAdjacent_fst g f) as Ha. pose proof (getAdjacent_adj g f k) as Hadj.
    destruct (getAdjacent g f) as [adjacent g1]. cbn [fst snd] in *. subst adjacent.
    rewrite adj_set_adjacent. by case_decide. }
  assert (HaR : forall k, adj (RemoveEdge now f t g).2 k
                          = if decide (f = k) then Remove now t (adj g f)
                            else adj g k).
  { intros k. unfold RemoveEdge. rewrite Hf, Ht.
    pose proof (getAdjacent_fst g f) as Ha. pose proof (getAdjacent_adj g f k) as Hadj.
    destruct (getAdjacent g f) as [adjacent g1]. cbn [fst snd] in *. subst adjacent.
    rewrite adj_set_adjacent. by case_decide. }
  split_and!.
  - rewrite (target_iff _ _ _ HwA), (Lookup_ext (AddEdge now f t g).2 g _ HvA).
    rewrite HaA, decide_True by done. rewrite Hkt. cbn [Add additions removals GetKey].
    rewrite lookup_insert_eq. split.
    + intros [(r & [= <-] & Hn & Hnow) _]. done.
    + intros [Hn Hnow]. split; [|done]. eexists. split; [done|]. done.
  - rewrite (target_iff _ _ _ HwR). rewrite HaR, decide_True by done. rewrite Hkt.
    cbn [Remove additions removals]. rewrite lookup_insert_eq.
    intros [(r & _ & Hn & _) _]. discriminate.
  - intros k w Hne.
    rewrite (target_iff _ _ _ HwA), (target_iff _ _ _ HwR), (target_iff _ _ _ Hwf).
    rewrite (Lookup_ext (AddEdge now f t g).2 g (Key w) HvA).
    rewrite (Lookup_ext (RemoveEdge now f t g).2 g (Key w) HvR). rewrite HaA, HaR.
    destruct (decide (f = k)) as [<-|Hfk]; [|done].
    destruct Hne as [Hne|Hne]; [done|].
    cbn [Add Remove additions removals GetKey].
    rewrite !lookup_insert_ne by done. done.
Qed.

Lemma AddEdge_then_target_witness :
  graph_wf g_tombstone /\ ~ target (RemoveEdge 11 "vertex1" "vertex2" g_tombstone).2 "vertex1" v2.
Proof.
  assert (Hwf : graph_wf g_tombstone) by (apply Claims.graph_wf_run, graph_wf_NewGraph).
  split; [exact Hwf|].
  refine (proj1 (proj2 (AddEdge_then_target 11 "vertex1" "vertex2" v1 v2 g_tombstone
                          Hwf _ _))); vm_compute; reflexivity.
Defined.

(** Once the adjacency set of a key holds a removal for a to-key, no later
    call makes a vertex of that to-key a target again, so no traversal
    follows that edge and no listing shows it. *)
Theorem edge_removal_is_permanent (cs : list graph_call) (g : Graph) (f t : string) :
  graph_wf g ->
  Forall (fun c => forall remote, c = CallMerge remote -> graph_wf remote) cs ->
  is_Some (removals (adj g f) !! t) ->
  (forall w, target (graph_run cs g) f w -> Key w <> t)
  /\ t ∉ adjacent_keys (adj (graph_run cs g) f).
Proof.
  intros Hwf Hcs Hrm.
  pose proof (graph_run_wf cs g Hwf Hcs) as Hwf'.
  pose proof (proj2 (graph_run_removals cs g t) f Hrm) as [at_ Hat].
  split.
  - intros w Hw Hk. apply (target_iff _ _ _ Hwf') in Hw as [(r & _ & Hn & _) _].
    rewrite Hk in Hn. congruence.
  - intros Hin. unfold adjacent_keys, sort_Strings in Hin.
    rewrite merge_sort_Permutation in Hin.
    apply list_elem_of_fmap in Hin as (e & -> & He).
    apply (elem_of_live_elements_wf _ _ (adj_wf _ f Hwf')) in He.
    apply (Contains_iff_no_removal_set _ _ _ (adj_wf _ f Hwf')) in He
      as (r & _ & _ & Hn & _). congruence.
Qed.

Lemma edge_removal_is_permanent_witness :
  graph_wf NewGraph
  /\ "vertex2" ∉ adjacent_keys
       (adj (graph_run [CallOp (OpAddEdge 5 "vertex1" "vertex2")]
               (run [OpAddVertex 1 v1; OpAddVertex 2 v2;
                     OpAddEdge 3 "vertex1" "vertex2";
                     OpRemoveEdge 4 "vertex1" "vertex2"] NewGraph)) "vertex1").
Proof.
  split; [apply graph_wf_NewGraph|].
  refine (proj2 (edge_removal_is_permanent
                   [CallOp (OpAddEdge 5 "vertex1" "vertex2")]
                   (run [OpAddVertex 1 v1; OpAddVertex 2 v2;
                         OpAddEdge 3 "vertex1" "vertex2";
                         OpRemoveEdge 4 "vertex1" "vertex2"] NewGraph)
                   "vertex1" "vertex2" _ _ _)).
  - apply Claims.graph_wf_run, graph_wf_NewGraph.
  - apply Forall_cons. split; [intros remote Hr; discriminate Hr|constructor].
  - vm_compute. eauto.
Defined.

(** *** [Lookup] after [Merge] *)



(** *** [Merge] as a join *)

(** [Merge] is associative and idempotent and [NewGraph] is its unit, as
    equalities of graph values, whatever the timestamps. *)
Theorem Merge_assoc_idem_unit (a b c : Graph) :
  Merge (Merge a b) c = Merge a (Merge b c)
  /\ Merge a a = a
  /\ Merge a NewGraph = a
  /\ Merge NewGraph a = a.
Proof.
  split_and!; apply Graph_eq.
  - rewrite !Merge_vertices. apply Replicate_assoc.
  - apply map_eq. intros k. rewrite !Merge_edges.
    destruct (edges c !! k) as [rc|] eqn:Ec; [|done].
    rewrite Merge_adj. f_equal. apply Replicate_assoc.
  - rewrite Merge_vertices. apply Replicate_idem.
  - apply map_eq. intros k. rewrite Merge_edges. unfold adj.
    destruct (edges a !! k) as [ra|] eqn:Ea; [|done]. cbn [default].
    by rewrite Replicate_idem.
  - rewrite Merge_vertices. apply Replicate_NewSet.
  - apply map_eq. intros k. rewrite Merge_edges. cbn [NewGraph edges].
    by rewrite lookup_empty.
  - rewrite Merge_vertices. apply Replicate_NewSet_l.
  - apply map_eq. intros k. rewrite Merge_edges. unfold adj. cbn [NewGraph edges].
    rewrite lookup_empty. cbn [default].
    destruct (edges a !! k) as [ra|]; [|done]. by rewrite Replicate_NewSet_l.
Qed.

(** The order in which [Merge] ranges over the remote adjacency sets does
    not matter: every order gives the graph whose vertices set and
    adjacency sets are the [Replicate] of the local and the remote ones,
    with an adjacency entry for every key that has one on a side. *)
Theorem Merge_any_order (entries : list (string * ElementSet.t)) (g remote : Graph) :
  entries ≡ₚ map_to_list (edges remote) ->
  Merge_in entries g remote = Merge g remote
  /\ vertices (Merge_in entries g remote) = Replicate (vertices g) (vertices remote)
  /\ (forall k, adj (Merge_in entries g remote) k = Replicate (adj g k) (adj remote k))
  /\ (forall k, edges (Merge_in entries g remote) !! k = None
                <-> edges g !! k = None /\ edges remote !! k = None).
Proof.
  intros Hp. rewrite (Merge_in_order_irrelevant entries g remote Hp). split_and!.
  - done.
  - apply Merge_vertices.
  - apply Merge_adj.
  - intros k. rewrite Merge_edges. destruct (edges remote !! k); naive_solver.
Qed.

Lemma Merge_any_order_witness :
  reverse (map_to_list (edges g_tombstone)) ≡ₚ map_to_list (edges g_tombstone)
  /\ Merge_in (reverse (map_to_list (edges g_tombstone))) g_selfloop g_tombstone
     = Merge g_selfloop g_tombstone.
Proof.
  split; [apply reverse_Permutation|].
  exact (proj1 (Merge_any_order (reverse (map_to_list (edges g_tombstone)))
                  g_selfloop g_tombstone (reverse_Permutation _))).
Defined.

(** *** What the reading operations leave behind *)

Lemma equiv_new_entries g' g k s :
  graph_equiv g' g -> edges g' !! k = Some s ->
  edges g !! k = Some s \/ (edges g !! k = None /\ s = NewSet).
Proof.
  intros [_ Ha] Hs. specialize (Ha k). unfold adj in Ha. rewrite Hs in Ha.
  destruct (edges g !! k) as [s0|]; simpl in Ha.
  - left. by rewrite Ha.
  - right. done.
Qed.

Lemma bfs_inv_init g start : bfs_inv g start {| visited := ∅; connected := Slice []; queue := [start] |}.
Proof.
  exists []. simpl. split_and!.
  - done.
  - intros x. rewrite elem_of_nil. set_solver.
  - constructor.
  - intros w Hw. by apply elem_of_nil in Hw.
  - intros u Hu. apply elem_of_cons in Hu as [->|Hu]; [by left|].
    by apply elem_of_nil in Hu.
  - intros u [->|Hu] Hnq w Hw.
    + exfalso. apply Hnq. by left.
    + by apply elem_of_nil in Hu.
Qed.

Section Reads.
Variable order : nat -> list (string * addRecord) -> list (string * addRecord).
Hypothesis order_perm : forall n l, order n l ≡ₚ l.

Lemma FindConnected_equiv (g : Graph) (n fuel : nat) key r st' :
  graph_wf g -> FindConnected order fuel (g, n) key = Some (r, st') ->
  graph_equiv st'.1 g
  /\ (forall e, r = Err e -> e = ErrVertexNotFound /\ st' = (g, n)
                             /\ Lookup g key = Err ErrVertexNotFound).
Proof.
  intros Hwf. unfold FindConnected. cbn [fst].
  destruct (Lookup g key) as [start|e] eqn:EL.
  - intros Hrun.
    apply (bfs_loop_correct order order_perm g start Hwf) in Hrun
      as (conn & -> & _ & _ & Heq); [|apply graph_equiv_refl|apply bfs_inv_init].
    split; [done|]. intros e. discriminate.
  - intros [= <- <-]. split; [apply graph_equiv_refl|].
    intros e' [= <-]. by rewrite (Lookup_Err_wf _ _ _ Hwf EL).
Qed.

Lemma FindPath_equiv (g : Graph) (n fuel : nat) fromKey toKey r st' :
  graph_wf g -> FindPath order fuel (g, n) fromKey toKey = Some (r, st') ->
  graph_equiv st'.1 g.
Proof.
  intros Hwf. unfold FindPath. cbn [fst].
  destruct (Lookup g fromKey) as [start|] eqn:EF;
    [|intros [= <- <-]; apply graph_equiv_refl].
  destruct (Lookup g toKey) as [last_v|] eqn:ET;
    [|intros [= <- <-]; apply graph_equiv_refl].
  destruct (findPath order fuel toKey start (Slice [start]) (g, n, ∅))
    as [[r1 [st1 vis1]]|] eqn:ER; [|discriminate].
  intros [= <- <-].
  by apply (findPath_sound order order_perm g Hwf) in ER as [Heq _];
    [|apply graph_equiv_refl].
Qed.

End Reads.

(** [FindConnected], [FindPath] and [List] change the graph only by the
    empty adjacency sets that [getAdjacent] creates: the vertices set and
    every adjacency set read as before, and an entry of the edges map that
    was not there before holds an empty set.  A traversal that fails on its
    first [Lookup] changes nothing. *)
Theorem reads_only_create_empty_sets :
  forall order, (forall n l, order n l ≡ₚ l) ->
  forall (g : Graph) (n : nat),
    graph_wf g ->
    forall st',
      ((exists fuel key r, FindConnected order fuel (g, n) key = Some (r, st'))
       \/ (exists fuel fromKey toKey r,
              FindPath order fuel (g, n) fromKey toKey = Some (r, st'))
       \/ (exists r, LwwGraph.List order (g, n) = (r, st'))) ->
      vertices st'.1 = vertices g
      /\ (forall k, adj st'.1 k = adj g k)
      /\ (forall k s, edges st'.1 !! k = Some s ->
                      edges g !! k = Some s \/ (edges g !! k = None /\ s = NewSet))
      /\ (forall k v, Lookup st'.1 k = Ok v <-> Lookup g k = Ok v).
Proof.
  intros order Hperm g n Hwf st' Hrun.
  assert (Heq : graph_equiv st'.1 g).
  { destruct Hrun as [(fuel & key & r & H)|[(fuel & fromKey & toKey & r & H)|(r & H)]].
    - by apply (FindConnected_equiv order Hperm) in H as [H _].
    - by apply (FindPath_equiv order Hperm) in H.
    - destruct (List_snapshot order Hperm g n Hwf) as (g' & n' & HL & Heq).
      rewrite HL in H. by injection H as _ <-. }
  split_and!.
  - apply Heq.
  - apply Heq.
  - intros k s. by apply equiv_new_entries.
  - intros k v. by rewrite (Lookup_ext st'.1 g k (proj1 Heq)).
Qed.

Lemma reads_only_create_empty_sets_witness :
  (forall n l, idorder n l ≡ₚ l) /\ graph_wf g_tombstone
  /\ vertices (LwwGraph.List idorder (g_tombstone, 0%nat)).2.1 = vertices g_tombstone.
Proof.
  assert (Hwf : graph_wf g_tombstone) by (apply Claims.graph_wf_run, graph_wf_NewGraph).
  split; [intros n l; reflexivity|]. split; [exact Hwf|].
  refine (proj1 (reads_only_create_empty_sets idorder (fun n l => reflexivity _)
                   g_tombstone 0%nat Hwf _ _)).
  right. right. exists (LwwGraph.List idorder (g_tombstone, 0%nat)).1.
  apply surjective_pairing.
Defined.

(** *** The depth-first search is complete *)

Lemma reach_prepend g k u w : target g k u -> reach g (Key u) w -> reach g k w.
Proof.
  intros Hk Hr. induction Hr as [w Hw|x w _ IH Hw].
  - eapply reach_next; [by apply reach_first|done].
  - eapply reach_next; [exact IH|done].
Qed.

Lemma chain_reach g : forall ext u w,
  chain g u ext -> last ext = Some w -> reach g (Key u) w.
Proof.
  induction ext as [|x rest IH]; intros u w Hc Hl; [done|].
  destruct Hc as [Ht Hc]. destruct rest as [|y rest'].
  - injection Hl as <-. by apply reach_first.
  - eapply reach_prepend; [exact Ht|]. apply IH; [exact Hc|exact Hl].
Qed.

Section Complete.
Variable order : nat -> list (string * addRecord) -> list (string * addRecord).
Hypothesis order_perm : forall n l, order n l ≡ₚ l.
Variable g0 : Graph.
Hypothesis g0_wf : graph_wf g0.
Variable searchKey : string.

(** What a failed search leaves in [visited]: the keys it added have all
    their targets in [visited], none of them of key [searchKey]. *)
Definition closed_new (V V' : gset string) : Prop :=
  V ⊆ V'
  /\ forall k, k ∈ V' -> k ∉ V ->
               forall w, target g0 k w -> Key w <> searchKey /\ Key w ∈ V'.

Lemma closed_new_refl V : closed_new V V.
Proof. split; [done|]. intros k Hk Hnk. done. Qed.

Lemma closed_new_trans V1 V2 V3 :
  closed_new V1 V2 -> closed_new V2 V3 -> closed_new V1 V3.
Proof.
  intros [H12 C12] [H23 C23]. split; [set_solver|].
  intros k Hk Hnk w Hw. destruct (decide (k ∈ V2)) as [Hk2|Hk2].
  - destruct (C12 k Hk2 Hnk w Hw) as [? ?]. split; [done|set_solver].
  - by apply (C23 k Hk Hk2 w Hw).
Qed.

Lemma findPath_range_fail recurse adjl :
  (forall v cp (ds ds' : dfs_state),
      graph_equiv ds.1.1 g0 -> Lookup g0 (Key v) = Ok v ->
      recurse v cp ds = Some (Err ErrPathNotFound, ds') ->
      graph_equiv ds'.1.1 g0 /\ closed_new ds.2 ds'.2 /\ Key v ∈ ds'.2) ->
  forall cp (ds ds' : dfs_state),
    graph_equiv ds.1.1 g0 ->
    findPath_range recurse searchKey cp adjl ds = Some (Err ErrPathNotFound, ds') ->
    graph_equiv ds'.1.1 g0 /\ closed_new ds.2 ds'.2
    /\ (forall e w, e ∈ adjl -> Lookup g0 (GetKey e) = Ok w ->
                    Key w <> searchKey /\ Key w ∈ ds'.2).
Proof.
  intros Hrec. induction adjl as [|e rest IH]; intros cp [[g n] vis] ds' Heq Hrun.
  - injection Hrun as <-. split_and!; [done|apply closed_new_refl|].
    intros e w He. by apply elem_of_nil in He.
  - cbn [findPath_range fst] in Hrun. cbn [fst snd] in *.
    assert (HL : Lookup g (GetKey e) = Lookup g0 (GetKey e))
      by (apply Lookup_ext, Heq).
    destruct (Lookup g (GetKey e)) as [vertex|err] eqn:EL.
    + destruct (decide (Key vertex = searchKey)) as [Hk|Hk]; [discriminate|].
      destruct (recurse vertex (append cp vertex) (g, n, vis))
        as [[r1 ds1]|] eqn:ER; [|discriminate].
      assert (Hself : Lookup g0 (Key vertex) = Ok vertex)
        by (symmetry in HL; by eapply Lookup_Key_self).
      destruct r1 as [path|err]; [discriminate|].
      destruct err; try discriminate.
      destruct (Hrec vertex _ (g, n, vis) ds1 Heq Hself ER) as (Heq1 & Hc1 & Hin1).
      destruct (IH cp ds1 ds' Heq1 Hrun) as (Heq' & Hc' & Hrest).
      cbn [fst snd] in *. split_and!.
      * done.
      * by eapply closed_new_trans.
      * intros e0 w He0 HL0. apply elem_of_cons in He0 as [->|He0]; [|by eapply Hrest].
        rewrite <- HL in HL0. injection HL0 as <-. split; [done|].
        destruct Hc' as [Hsub _]. set_solver.
    + assert (err = ErrVertexNotFound) as ->.
      { symmetry in HL. by eapply Lookup_Err_wf. }
      destruct (IH cp (g, n, vis) ds' Heq Hrun) as (Heq' & Hc' & Hrest).
      split_and!; [done|done|].
      intros e0 w He0 HL0. apply elem_of_cons in He0 as [->|He0]; [|by eapply Hrest].
      rewrite <- HL in HL0. discriminate.
Qed.

Lemma findPath_fail fuel : forall start cp (ds ds' : dfs_state),
  graph_equiv ds.1.1 g0 -> Lookup g0 (Key start) = Ok start ->
  findPath order fuel searchKey start cp ds = Some (Err ErrPathNotFound, ds') ->
  graph_equiv ds'.1.1 g0 /\ closed_new ds.2 ds'.2 /\ Key start ∈ ds'.2.
Proof.
  induction fuel as [|fuel IH]; intros start cp [[g n] vis] ds' Heq Hself Hrun;
    [discriminate|].
  cbn [findPath] in Hrun. cbn [fst snd] in *.
  destruct (decide (Key start ∈ vis)) as [Hin|Hnin].
  { injection Hrun as <-. split_and!; [done|apply closed_new_refl|done]. }
  rewrite adjacent_list_eq in Hrun.
  apply (findPath_range_fail (findPath order fuel searchKey)) in Hrun
    as (Heq' & [Hsub Hcl] & Hadj).
  - cbn [fst snd] in *. split_and!; [done| |set_solver].
    split; [set_solver|]. intros k Hk Hnk w Hw.
    destruct (decide (k = Key start)) as [->|Hne].
    + destruct Hw as (e & He & HLe). apply (Hadj e w); [|done].
      rewrite (List_live_elements order order_perm).
      destruct Heq as [_ Ha]. by rewrite Ha.
    + apply (Hcl k Hk); [set_solver|done].
  - intros v cp' ds1 ds1' Heq1 Hv H1. by eapply IH.
  - cbn [fst]. eapply graph_equiv_trans; [apply getAdjacent_equiv|done].
Qed.

Lemma closed_reach (V : gset string) (start : Vertex) :
  closed_new ∅ V -> Key start ∈ V ->
  forall w, reach g0 (Key start) w -> Key w <> searchKey /\ Key w ∈ V.
Proof.
  intros [_ Hcl] Hs w Hr. induction Hr as [w Hw|u w _ [_ IH] Hw].
  - apply (Hcl (Key start)); [done|set_solver|done].
  - apply (Hcl (Key u)); [done|set_solver|done].
Qed.

End Complete.

(** With both endpoints found by [Lookup] and fuel for every vertex record,
    [FindPath] answers, for every iteration order: it returns a path exactly
    when a chain of resolving targets leads from the from-key to the
    to-vertex, and [ErrPathNotFound] otherwise; that is, exactly when
    [FindConnected] from the from-key lists the to-vertex. *)
Theorem FindPath_finds_every_connected_vertex :
  forall order, (forall n l, order n l ≡ₚ l) ->
  forall (g : Graph) (n m : nat) (fromKey toKey : string) (start last_v : Vertex)
         (fuel : nat),
    graph_wf g -> Lookup g fromKey = Ok start -> Lookup g toKey = Ok last_v ->
    (size (additions (vertices g)) + 2 <= fuel)%nat ->
    exists r st' conn st'',
      FindPath order fuel (g, n) fromKey toKey = Some (r, st')
      /\ FindConnected order fuel (g, m) fromKey = Some (Ok (Slice conn), st'')
      /\ (is_ok r = true <-> reach g fromKey last_v)
      /\ (is_ok r = true <-> last_v ∈ conn)
      /\ (is_ok r = false -> r = Err ErrPathNotFound).
Proof.
  intros order Hperm g n m fromKey toKey start last_v fuel Hwf EF ET Hf.
  destruct (FindPath_terminates order fuel g n fromKey toKey Hf) as (r & st' & Hrun).
  destruct (FindConnected_correct order Hperm g m fromKey start fuel Hwf EF Hf)
    as (conn & st'' & Hconn & _ & Hiff & _).
  exists r, st', conn, st''. split; [done|]. split; [done|].
  pose proof (Lookup_Key _ _ _ Hwf EF) as Hkf.
  pose proof (Lookup_Key _ _ _ Hwf ET) as Hkt.
  assert (Hreach : is_ok r = true <-> reach g fromKey last_v).
  { destruct r as [path|e].
    - split; [intros _|done].
      apply (FindPath_sound order Hperm g n fromKey toKey fuel path st' Hwf) in Hrun
        as (start' & last' & ext & EF' & ET' & _ & _ & Hc & Hl).
      rewrite EF in EF'. injection EF' as <-. rewrite ET in ET'. injection ET' as <-.
      rewrite <- Hkf. by eapply chain_reach.
    - split; [discriminate|]. intros Hr. exfalso.
      pose proof (FindPath_error order Hperm g n fromKey toKey fuel e st' start last_v
                    Hwf EF ET Hrun) as ->.
      unfold FindPath in Hrun. cbn [fst] in Hrun. rewrite EF, ET in Hrun.
      destruct (findPath order fuel toKey start (Slice [start]) (g, n, ∅))
        as [[r1 [st1 vis1]]|] eqn:ER; [|discriminate].
      injection Hrun as -> <-.
      apply (findPath_fail order Hperm g Hwf toKey) in ER as (_ & Hcl & Hin).
      + cbn [fst snd] in *. rewrite <- Hkf in Hr.
        destruct (closed_reach order Hperm g Hwf toKey vis1 start Hcl Hin last_v Hr)
          as [Hne _].
        by apply Hne.
      + apply graph_equiv_refl.
      + by eapply Lookup_Key_self. }
  split_and!.
  - done.
  - by rewrite Hreach, Hiff.
  - intros Hno. destruct r as [path|e]; [discriminate|]. f_equal.
    by eapply (FindPath_error order Hperm g n fromKey toKey fuel e st' start last_v).
Qed.

Lemma FindPath_finds_every_connected_vertex_witness :
  (forall n l, idorder n l ≡ₚ l) /\ graph_wf g_tombstone
  /\ exists r st', FindPath idorder 7 (g_tombstone, 0%nat) "vertex1" "vertex2" = Some (r, st')
                   /\ (is_ok r = false -> r = Err ErrPathNotFound).
Proof.
  assert (Hwf : graph_wf g_tombstone) by (apply Claims.graph_wf_run, graph_wf_NewGraph).
  split; [intros n l; reflexivity|]. split; [exact Hwf|].
  assert (EF : Lookup g_tombstone "vertex1" = Ok v1) by (vm_compute; reflexivity).
  assert (ET : Lookup g_tombstone "vertex2" = Ok v2) by (vm_compute; reflexivity).
  assert (Hf : (size (additions (vertices g_tombstone)) + 2 <= 7)%nat)
    by (vm_compute; lia).
  destruct (FindPath_finds_every_connected_vertex idorder (fun n l => reflexivity _)
              g_tombstone 0%nat 0%nat "vertex1" "vertex2" v1 v2 7%nat Hwf EF ET Hf)
    as (r & st' & conn & st'' & Hrun & _ & _ & _ & Herr).
  exists r, st'. split; [exact Hrun|exact Herr].
Defined.

End GraphExtras.

(** ** The older revision of the graph *)

Module Rev0Extras.
Import ElementSet SetFacts LwwGraph GraphFacts TraversalFacts KeyOrder ListFacts.
Import Scenarios.

(** The graph after the first [getAdjacent] of a key: an empty set sits
    under the key. *)
Definition with_empty (key : string) (g : Graph) : Graph :=
  {| vertices := vertices g; edges := <[key := NewSet]> (edges g) |}.

Lemma Lookup_err_cases g k e :
  Lookup g k = Err e -> e = ErrVertexNotFound \/ e = ErrInvalidVertexType.
Proof.
  unfold Lookup, ElementSet.Lookup.
  destruct (Contains (vertices g) k) as [[key|v]|e'] eqn:E.
  - intros [= <-]. by right.
  - discriminate.
  - apply Contains_Err in E as ->. intros [= <-]. by left.
Qed.

(** *** The first access of an adjacency set *)

(** In the older revision, the first call that reaches the adjacency set of
    a key panics: [AddEdge] and [RemoveEdge] between two vertices that
    [lookup] finds, and both traversals from such a vertex.  The panic
    leaves an empty set under the key, so that a second [AddEdge] goes
    through and records the edge in that set. *)
Theorem rev0_first_access_panics :
  forall order (now : Z) (f t : string) (vf : Vertex) (g : Graph) (n fuel : nat),
    graph_wf g -> edges g !! f = None -> Lookup g f = Ok vf -> (1 <= fuel)%nat ->
    GraphRev0.FindConnected order fuel (g, n) f = Some (GraphRev0.Panics, (with_empty f g, n))
    /\ GraphRev0.FindPath order fuel (g, n) f t = Some (GraphRev0.Panics, (with_empty f g, n))
    /\ (is_ok (Lookup g t) = true ->
          GraphRev0.AddEdge now f t g = (GraphRev0.Panics, with_empty f g)
          /\ GraphRev0.RemoveEdge now f t g = (GraphRev0.Panics, with_empty f g)
          /\ forall now',
              GraphRev0.AddEdge now' f t (with_empty f g)
              = (GraphRev0.Returns None,
                 set_adjacent f (Add now' (IDElement t) NewSet) (with_empty f g))).
Proof.
  intros order now f t vf g n fuel Hwf He Hf Hfuel.
  pose proof (Lookup_Key _ _ _ Hwf Hf) as Hk.
  assert (Hga : GraphRev0.getAdjacent g f = (None, with_empty f g)).
  { unfold GraphRev0.getAdjacent. by rewrite He. }
  destruct fuel as [|fuel]; [lia|]. split_and!.
  - unfold GraphRev0.FindConnected, GraphRev0.lookup. cbn [fst]. rewrite Hf.
    cbn [GraphRev0.bfs_loop queue]. by rewrite Hk, Hga.
  - unfold GraphRev0.FindPath, GraphRev0.lookup. cbn [fst]. rewrite Hf.
    cbn [GraphRev0.path_loop last]. by rewrite Hk, Hga.
  - intros Ht. destruct (Lookup g t) as [vt|] eqn:Et; [|discriminate]. split_and!.
    + unfold GraphRev0.AddEdge, GraphRev0.lookup. by rewrite Hf, Et, Hga.
    + unfold GraphRev0.RemoveEdge, GraphRev0.lookup. by rewrite Hf, Et, Hga.
    + intros now'. unfold GraphRev0.AddEdge, GraphRev0.lookup.
      rewrite !(Lookup_ext (with_empty f g) g) by done. rewrite Hf, Et.
      unfold GraphRev0.getAdjacent. cbn [with_empty edges].
      by rewrite lookup_insert_eq.
Qed.

Lemma rev0_first_access_panics_witness :
  graph_wf g_single
  /\ GraphRev0.FindConnected idorder 1 (g_single, 0%nat) "vertex1"
     = Some (GraphRev0.Panics, (with_empty "vertex1" g_single, 0%nat)).
Proof.
  assert (Hwf : graph_wf g_single) by (apply Claims.graph_wf_run, graph_wf_NewGraph).
  split; [exact Hwf|].
  refine (proj1 (rev0_first_access_panics idorder 0 "vertex1" "vertex1" v1 g_single
                   0%nat 1%nat Hwf _ _ _)).
  - vm_compute. reflexivity.
  - vm_compute. reflexivity.
  - lia.
Defined.

(** *** [FindConnected] and a target that is not found *)

Lemma rev0_connect_range_abort g e : forall l vars,
  e ∈ l -> Lookup g (GetKey e) = Err ErrVertexNotFound ->
  GraphRev0.connect_range g l vars = Err ErrVertexNotFound.
Proof.
  induction l as [|v rest IH]; intros vars He HL; [by apply elem_of_nil in He|].
  cbn [GraphRev0.connect_range]. unfold GraphRev0.lookup.
  apply elem_of_cons in He as [<-|He]; [by rewrite HL|].
  destruct (Lookup g (GetKey v)) as [w|[]]; try done;
    cbn zeta; case_decide; by apply IH.
Qed.

(** In the older revision, [FindConnected] from a vertex whose adjacency
    set lists a key that [lookup] does not find returns
    [ErrVertexNotFound], for every iteration order: the target is not
    skipped. *)
Theorem rev0_FindConnected_aborts_on_missing_target :
  forall order, (forall n l, order n l ≡ₚ l) ->
  forall (g : Graph) (n fuel : nat) (key : string) (start : Vertex)
         (adjacent : ElementSet.t) (e : Element),
    Lookup g key = Ok start -> edges g !! Key start = Some adjacent ->
    e ∈ live_elements adjacent -> Lookup g (GetKey e) = Err ErrVertexNotFound ->
    (1 <= fuel)%nat ->
    GraphRev0.FindConnected order fuel (g, n) key
    = Some (GraphRev0.Returns (Err ErrVertexNotFound), (g, S n)).
Proof.
  intros order Hperm g n fuel key start adjacent e HL Ha He Hdead Hfuel.
  destruct fuel as [|fuel]; [lia|].
  unfold GraphRev0.FindConnected, GraphRev0.lookup. cbn [fst]. rewrite HL.
  cbn [GraphRev0.bfs_loop queue]. unfold GraphRev0.getAdjacent. rewrite Ha.
  rewrite (rev0_connect_range_abort g e); [done| |done].
  by rewrite (List_live_elements order Hperm).
Qed.

Lemma rev0_FindConnected_aborts_witness :
  (forall n l, idorder n l ≡ₚ l)
  /\ GraphRev0.FindConnected idorder 1 (g_tombstone, 0%nat) "vertex1"
     = Some (GraphRev0.Returns (Err ErrVertexNotFound), (g_tombstone, 1%nat)).
Proof.
  split; [intros n l; reflexivity|].
  refine (rev0_FindConnected_aborts_on_missing_target idorder (fun n l => reflexivity _)
            g_tombstone 0%nat 1%nat "vertex1" v1
            (adj g_tombstone "vertex1") (IDElement "vertex3") _ _ _ _ _).
  - vm_compute. reflexivity.
  - vm_compute. reflexivity.
  - assert (Hl : live_elements (adj g_tombstone "vertex1")
                 = [IDElement "vertex2"; IDElement "vertex3"]
                 \/ live_elements (adj g_tombstone "vertex1")
                    = [IDElement "vertex3"; IDElement "vertex2"]).
    { vm_compute. first [left; reflexivity | right; reflexivity]. }
    destruct Hl as [Hl|Hl]; rewrite Hl.
    + apply elem_of_cons. right. apply elem_of_cons. left. reflexivity.
    + apply elem_of_cons. left. reflexivity.
  - vm_compute. reflexivity.
  - lia.
Defined.

(** *** [FindPath] *)

Lemma rev0_push_length vars vertex :
  length (GraphRev0.array (GraphRev0.push vars vertex)) = length (GraphRev0.array vars).
Proof.
  unfold GraphRev0.push. cbn [GraphRev0.array]. case_decide; [|done].
  by rewrite length_insert.
Qed.

Lemma rev0_path_range_spec g toKey : forall l vars,
  match GraphRev0.path_range g toKey l vars with
  | inl (Err e) => e = ErrVertexNotFound
  | inl (Ok _) => True
  | inr vars' => length (GraphRev0.array vars') = length (GraphRev0.array vars)
  end.
Proof.
  induction l as [|v rest IH]; intros vars; [done|].
  cbn [GraphRev0.path_range]. unfold GraphRev0.lookup.
  destruct (Lookup g (GetKey v)) as [w|[]]; try done; cbn zeta;
    (case_decide; [done|]); (case_decide; [apply IH|]);
    (specialize (IH (GraphRev0.push vars w)) || specialize (IH (GraphRev0.push vars GraphRev0.zeroVertex)));
    destruct (GraphRev0.path_range g toKey rest _) as [[p|e]|vars']; try done;
    by rewrite IH, rev0_push_length.
Qed.

Lemma rev0_path_loop_error order toKey fuel : forall st visited outer e st',
  outer <> [] ->
  GraphRev0.path_loop order fuel st toKey visited outer
  = Some (GraphRev0.Returns (Err e), st') ->
  e = ErrVertexNotFound.
Proof.
  induction fuel as [|fuel IH]; intros [g n] visited outer e st' Hne Hrun; [discriminate|].
  cbn [GraphRev0.path_loop] in Hrun.
  destruct (last outer) as [current|] eqn:El.
  2:{ apply last_None in El. done. }
  destruct (GraphRev0.getAdjacent g (Key current)) as [[adjacent|] g1]; [|discriminate].
  pose proof (rev0_path_range_spec g1 toKey (elems (ElementSet.List order n adjacent))
                {| GraphRev0.seen := visited;
                   GraphRev0.stack := take (length outer - 1) outer;
                   GraphRev0.array := outer |}) as Hspec.
  destruct (GraphRev0.path_range g1 toKey _ _) as [[p|e']|vars'].
  - discriminate.
  - injection Hrun as <- _. done.
  - cbn [GraphRev0.array] in Hspec. eapply IH; [|exact Hrun].
    intros Hnil. rewrite Hnil in Hspec. destruct outer; [done|discriminate].
Qed.

Lemma rev0_path_range_nil g toKey vars : GraphRev0.path_range g toKey [] vars = inr vars.
Proof. reflexivity. Qed.

Lemma rev0_path_loop_spins order toKey g (start : Vertex) adjacent visited :
  (forall n l, order n l ≡ₚ l) ->
  edges g !! Key start = Some adjacent -> live_elements adjacent = [] ->
  forall fuel n, GraphRev0.path_loop order fuel (g, n) toKey visited [start] = None.
Proof.
  intros Hperm Ha Hl. induction fuel as [|fuel IH]; intros n; [done|].
  cbn [GraphRev0.path_loop last]. unfold GraphRev0.getAdjacent. rewrite Ha.
  assert (HL : elems (ElementSet.List order n adjacent) = []).
  { apply Permutation_nil_r. rewrite <- Hl. apply (List_live_elements order Hperm). }
  rewrite HL, rev0_path_range_nil. cbn [GraphRev0.seen GraphRev0.array]. apply IH.
Qed.

(** In the older revision, [FindPath] never answers [ErrPathNotFound]: an
    error it returns is one of [lookup].  When the adjacency set of the
    from-vertex exists and lists nothing, the loop reads the same stack
    again and again, and the call does not return, whatever the to-key. *)
Theorem rev0_FindPath_never_gives_up :
  forall order, (forall n l, order n l ≡ₚ l) ->
  (forall (g : Graph) (n fuel : nat) (fromKey toKey : string) e st',
      GraphRev0.FindPath order fuel (g, n) fromKey toKey
      = Some (GraphRev0.Returns (Err e), st') ->
      e = ErrVertexNotFound \/ e = ErrInvalidVertexType)
  /\ (forall (g : Graph) (fromKey toKey : string) (start : Vertex) (adjacent : ElementSet.t),
        Lookup g fromKey = Ok start -> edges g !! Key start = Some adjacent ->
        live_elements adjacent = [] ->
        forall fuel n, GraphRev0.FindPath order fuel (g, n) fromKey toKey = None).
Proof.
  intros order Hperm. split.
  - intros g n fuel fromKey toKey e st'. unfold GraphRev0.FindPath, GraphRev0.lookup.
    cbn [fst]. destruct (Lookup g fromKey) as [start|e'] eqn:EL.
    + intros Hrun. left. by eapply rev0_path_loop_error; [|exact Hrun].
    + intros [= <- _]. by eapply Lookup_err_cases.
  - intros g fromKey toKey start adjacent HL Ha Hl fuel n.
    unfold GraphRev0.FindPath, GraphRev0.lookup. cbn [fst]. rewrite HL.
    by eapply rev0_path_loop_spins.
Qed.

Lemma rev0_FindPath_never_gives_up_witness :
  (forall n l, idorder n l ≡ₚ l)
  /\ forall fuel n,
       GraphRev0.FindPath idorder fuel (with_empty "vertex1" g_single, n)
         "vertex1" "vertex1" = None.
Proof.
  split; [intros n l; reflexivity|].
  refine (proj2 (rev0_FindPath_never_gives_up idorder (fun n l => reflexivity _))
            (with_empty "vertex1" g_single) "vertex1" "vertex1" v1 NewSet _ _ _).
  - vm_compute. reflexivity.
  - vm_compute. reflexivity.
  - vm_compute. reflexivity.
Defined.

(** *** [Merge] *)

Lemma rev0_merge_range_spec : forall entries g,
  (Forall (fun en => is_Some (edges g !! en.1)) entries ->
   GraphRev0.merge_range entries g
   = (GraphRev0.Returns tt, fold_left merge_adjacent entries g))
  /\ (Exists (fun en => edges g !! en.1 = None) entries ->
      (GraphRev0.merge_range entries g).1 = GraphRev0.Panics).
Proof.
  induction entries as [|[k ra] rest IH]; intros g.
  - split; [done|]. intros H. by apply Exists_nil in H.
  - cbn [GraphRev0.merge_range fold_left]. unfold GraphRev0.getAdjacent.
    destruct (edges g !! k) as [la|] eqn:Ek.
    + assert (Hm : merge_adjacent g (k, ra) = set_adjacent k (ElementSet.Merge la ra) g).
      { unfold merge_adjacent, LwwGraph.getAdjacent. by rewrite Ek. }
      rewrite Hm.
      assert (Hdom : forall k', edges (set_adjacent k (ElementSet.Merge la ra) g) !! k' = None
                                <-> edges g !! k' = None).
      { intros k'. cbn [set_adjacent edges]. rewrite lookup_insert.
        case_decide; [subst; by rewrite Ek|done]. }
      destruct (IH (set_adjacent k (ElementSet.Merge la ra) g)) as [IHr IHp]. split.
      * intros Hall. apply Forall_cons in Hall as [_ Hall]. apply IHr.
        eapply Forall_impl; [exact Hall|]. intros en Hen. cbn beta in *.
        rewrite <- not_eq_None_Some in *. by rewrite Hdom.
      * intros Hex. apply Exists_cons in Hex as [Hex|Hex].
        -- cbn [fst] in Hex. congruence.
        -- apply IHp. eapply Exists_impl; [exact Hex|]. intros en Hen. cbn beta in *.
           by rewrite Hdom.
    + split.
      * intros Hall. apply Forall_cons in Hall as [[x Hx] _]. cbn [fst] in Hx. congruence.
      * done.
Qed.

(** In the older revision, [Merge] panics exactly when the remote graph
    has an adjacency set under a key for which the local graph has none,
    whatever the order of the [range]; otherwise it returns and gives the
    graph that [Merge] of the later revision gives. *)
Theorem rev0_Merge_panics_on_new_key :
  forall (entries : list (string * ElementSet.t)) (g remote : Graph),
    entries ≡ₚ map_to_list (edges remote) ->
    ((GraphRev0.Merge_in entries g remote).1 = GraphRev0.Panics
     <-> exists k, is_Some (edges remote !! k) /\ edges g !! k = None)
    /\ ((GraphRev0.Merge_in entries g remote).1 <> GraphRev0.Panics ->
        GraphRev0.Merge_in entries g remote = (GraphRev0.Returns tt, LwwGraph.Merge g remote)).
Proof.
  intros entries g remote Hp.
  set (g1 := set_vertices (ElementSet.Merge (vertices g) (vertices remote)) g).
  destruct (rev0_merge_range_spec entries g1) as [Hr Hpan].
  assert (Hin : forall k s, (k, s) ∈ entries <-> edges remote !! k = Some s).
  { intros k s. rewrite Hp. apply elem_of_map_to_list. }
  destruct (decide (Forall (fun en : string * ElementSet.t => is_Some (edges g1 !! en.1)) entries))
    as [Hall|Hnall].
  - specialize (Hr Hall). unfold GraphRev0.Merge_in. fold g1. rewrite Hr. cbn [fst]. split.
    + split; [discriminate|]. intros (k & [s Hs] & Hk). exfalso.
      rewrite Forall_forall in Hall. apply Hin in Hs. specialize (Hall _ Hs).
      cbn [fst] in Hall. unfold g1 in Hall. cbn [set_vertices edges] in Hall.
      rewrite Hk in Hall. by destruct Hall.
    + intros _. f_equal. by rewrite <- (Merge_in_order_irrelevant entries g remote Hp).
  - apply not_Forall_Exists in Hnall; [|apply _].
    assert (Hex : Exists (fun en : string * ElementSet.t => edges g1 !! en.1 = None) entries).
    { eapply Exists_impl; [exact Hnall|]. intros en Hen. cbn beta in *.
      by apply eq_None_not_Some. }
    specialize (Hpan Hex). unfold GraphRev0.Merge_in. fold g1. split.
    + split; [intros _|done]. apply Exists_exists in Hex as ([k s] & Hks & Hnone).
      exists k. split; [exists s; by apply Hin|done].
    + intros Hno. done.
Qed.

Lemma rev0_Merge_panics_on_new_key_witness :
  map_to_list (edges g_selfloop) ≡ₚ map_to_list (edges g_selfloop)
  /\ (GraphRev0.Merge_in (map_to_list (edges g_selfloop)) NewGraph g_selfloop).1
     = GraphRev0.Panics.
Proof.
  split; [reflexivity|].
  apply (proj1 (rev0_Merge_panics_on_new_key (map_to_list (edges g_selfloop))
                  NewGraph g_selfloop (reflexivity _))).
  exists "vertex1". split; vm_compute; eauto.
Defined.

End Rev0Extras.

(** ** The replication helper of the tests *)

Module ReplicaExtras.
Import ElementSet SetFacts LwwGraph GraphFacts TraversalFacts KeyOrder ListFacts.
Import ConvergenceFacts Scenarios.

(** [knows ab i h]: the state [h] has flowed into replica [i]. *)
Definition knows (ab : list (list Graph)) (i : nat) (h : Graph) : Prop :=
  exists F, ab !! i = Some F /\ h ∈ F.

Lemma absorb_step_length ab ij : length (absorb_step ab ij) = length ab.
Proof.
  unfold absorb_step. destruct (ab !! ij.1), (ab !! ij.2); try done.
  by rewrite length_insert.
Qed.

Lemma absorb_run_length sched : forall ab,
  length (fold_left absorb_step sched ab) = length ab.
Proof.
  induction sched as [|ij sched IH]; intros ab; [done|].
  cbn [fold_left]. by rewrite IH, absorb_step_length.
Qed.

Lemma knows_step ab ij k h : knows ab k h -> knows (absorb_step ab ij) k h.
Proof.
  intros (F & HF & Hh). unfold absorb_step.
  destruct (ab !! ij.1) as [fi|] eqn:Ei; [|by exists F].
  destruct (ab !! ij.2) as [fj|] eqn:Ej; [|by exists F].
  destruct (decide (ij.1 = k)) as [Hk|Hk].
  - exists (fi ++ fj). split.
    + rewrite Hk. apply list_lookup_insert_eq. by eapply lookup_lt_Some.
    + rewrite Hk in Ei. rewrite Ei in HF. injection HF as <-. set_solver.
  - exists F. by rewrite list_lookup_insert_ne.
Qed.

Lemma knows_run sched : forall ab k h,
  knows ab k h -> knows (fold_left absorb_step sched ab) k h.
Proof.
  induction sched as [|ij sched IH]; intros ab k h Hk; [done|].
  cbn [fold_left]. by apply IH, knows_step.
Qed.

Lemma knows_absorb ab i j h :
  (i < length ab)%nat -> knows ab j h -> knows (absorb_step ab (i, j)) i h.
Proof.
  intros Hi (Fj & HFj & Hh). unfold absorb_step. cbn [fst snd].
  destruct (lookup_lt_is_Some_2 ab i Hi) as [Fi HFi]. rewrite HFi, HFj.
  exists (Fi ++ Fj). split; [by apply list_lookup_insert_eq|set_solver].
Qed.

Lemma knows_block i h : forall js ab j,
  (i < length ab)%nat -> j ∈ js -> knows ab j h ->
  knows (fold_left absorb_step ((fun j => (i, j)) <$> js) ab) i h.
Proof.
  induction js as [|j0 js IH]; intros ab j Hi Hj Hk; [by apply elem_of_nil in Hj|].
  rewrite fmap_cons. cbn [fold_left]. apply elem_of_cons in Hj as [->|Hj].
  - apply knows_run. by apply knows_absorb.
  - apply (IH _ j); [by rewrite absorb_step_length|done|by apply knows_step].
Qed.

(** The schedule of [replicateGraphs] on [N] replicas. *)
Definition rounds (N : nat) (tos : list nat) : list (nat * nat) :=
  flat_map (fun i => (fun j => (i, j)) <$> filter (fun j => j <> i) (seq 0 N)) tos.

Lemma knows_rounds N h : forall tos ab i j,
  i ∈ tos -> (i < length ab)%nat -> (j < N)%nat -> knows ab j h ->
  knows (fold_left absorb_step (rounds N tos) ab) i h.
Proof.
  induction tos as [|i0 tos IH]; intros ab i j Hin Hi Hj Hk; [by apply elem_of_nil in Hin|].
  unfold rounds. cbn [flat_map]. rewrite fold_left_app. fold (rounds N tos).
  apply elem_of_cons in Hin as [->|Hin].
  - apply knows_run. destruct (decide (j = i0)) as [->|Hne].
    + by apply knows_run.
    + apply (knows_block i0 h _ ab j); [done| |done].
      apply list_elem_of_filter. split; [done|]. apply elem_of_seq. lia.
  - apply (IH _ i j); [done| |done|by apply knows_run].
    by rewrite absorb_run_length.
Qed.

Lemma replicateGraphs_informs gs i Fi h :
  absorbed (rounds (length gs) (seq 0 (length gs))) gs !! i = Some Fi ->
  h ∈ gs -> h ∈ Fi.
Proof.
  intros HFi Hh. apply list_elem_of_lookup in Hh as [j Hj].
  assert (Hi : (i < length gs)%nat).
  { apply lookup_lt_Some in HFi. unfold absorbed in HFi.
    by rewrite absorb_run_length, length_fmap in HFi. }
  destruct (knows_rounds (length gs) h (seq 0 (length gs))
              ((fun g => [g]) <$> gs) i j) as (F & HF & HhF).
  - apply elem_of_seq. lia.
  - by rewrite length_fmap.
  - by eapply lookup_lt_Some.
  - exists [h]. split; [by rewrite list_lookup_fmap, Hj|set_solver].
  - unfold absorbed in HFi. rewrite HFi in HF. by injection HF as <-.
Qed.

(** One call of [replicateGraphs] (every replica merges every other one,
    in turn) is enough: when no two replicas hold different add records
    with one timestamp for one vertex key, afterwards every replica holds
    the join of all the states before the call, any two replicas are
    equivalent and their [List]s are equal, for every iteration order. *)
Theorem replicateGraphs_converges :
  forall order, (forall n l, order n l ≡ₚ l) ->
  forall (gs : list Graph),
    Forall graph_wf gs -> no_ties gs ->
    length (replicateGraphs gs) = length gs
    /\ forall i j gi gj (n m : nat),
        replicateGraphs gs !! i = Some gi -> replicateGraphs gs !! j = Some gj ->
        is_join gs gi
        /\ graph_equiv gi gj
        /\ (LwwGraph.List order (gi, n)).1 = (LwwGraph.List order (gj, m)).1.
Proof.
  intros order Hperm gs Hwf Hnt.
  pose proof (replicas_inv_run gs (rounds (length gs) (seq 0 (length gs))) _ _
                (replicas_inv_init gs Hwf)) as Hinv.
  split.
  - unfold replicateGraphs, merge_all. fold (rounds (length gs) (seq 0 (length gs))).
    rewrite (Forall2_length _ _ _ Hinv). by rewrite absorb_run_length, length_fmap.
  - intros i j gi gj n m Hgi Hgj.
    unfold replicateGraphs in Hgi, Hgj. fold (rounds (length gs) (seq 0 (length gs))) in Hgi, Hgj.
    destruct (Forall2_lookup_l _ _ _ _ _ Hinv Hgi) as (Fi & HFi & _).
    destruct (Forall2_lookup_l _ _ _ _ _ Hinv Hgj) as (Fj & HFj & _).
    assert (Hi : forall h, h ∈ gs -> h ∈ Fi)
      by (intros h; by apply (replicateGraphs_informs gs i)).
    assert (Hj : forall h, h ∈ gs -> h ∈ Fj)
      by (intros h; by apply (replicateGraphs_informs gs j)).
    split.
    + by apply (informed_is_join gs (rounds (length gs) (seq 0 (length gs))) i gi Fi).
    + by apply (replicas_converge order Hperm gs (rounds (length gs) (seq 0 (length gs)))
                  i j gi gj Fi Fj).
Qed.

Lemma replicateGraphs_converges_witness :
  (forall n l, idorder n l ≡ₚ l)
  /\ Forall graph_wf [g_convA; g_convB; g_convC]
  /\ no_ties [g_convA; g_convB; g_convC]
  /\ length (replicateGraphs [g_convA; g_convB; g_convC]) = 3%nat.
Proof.
  assert (Hwf : Forall graph_wf [g_convA; g_convB; g_convC]).
  { repeat (apply Forall_cons; split; [apply Claims.graph_wf_run, graph_wf_NewGraph|]).
    apply Forall_nil_2. }
  assert (Hnt : no_ties [g_convA; g_convB; g_convC]).
  { apply no_ties_entries_sound. apply (bool_decide_unpack _). vm_compute. reflexivity. }
  split; [intros n l; reflexivity|]. split; [exact Hwf|]. split; [exact Hnt|].
  exact (proj1 (replicateGraphs_converges idorder (fun n l => reflexivity _)
                  [g_convA; g_convB; g_convC] Hwf Hnt)).
Defined.

End ReplicaExtras.

(** ** Sorting *)

Module SortExtras.
Import KeyOrder.

(** The sorted results do not depend on the sorting algorithm: a list of
    strings has one arrangement that is sorted, and so has a list of
    elements whose keys are pairwise distinct, as the lists that
    [Graph.List] sorts are.  Two elements with one key have two. *)
Theorem sorting_is_canonical :
  (forall l l' : list string, l' ≡ₚ l -> Sorted str_le l' -> l' = sort_Strings l)
  /\ (forall l l' : list Element,
        NoDup (GetKey <$> l) -> l' ≡ₚ l -> StronglySorted key_le l' ->
        l' = sort_by_key l)
  /\ (forall (k a b : string), a <> b ->
        let x := VertexElement {| Key := k; Value := a |} in
        let y := VertexElement {| Key := k; Value := b |} in
        StronglySorted key_le [x; y] /\ StronglySorted key_le [y; x]
        /\ [x; y] ≡ₚ [y; x] /\ [x; y] <> [y; x]).
Proof.
  split_and!.
  - intros l l' Hp Hs. unfold sort_Strings. apply (Sorted_unique str_le).
    + done.
    + apply Sorted_merge_sort; apply _.
    + by rewrite merge_sort_Permutation.
  - intros l l' Hnd Hp Hs. unfold sort_by_key.
    apply (StronglySorted_unique_strong key_le).
    + intros x1 x2 H1 H2 Hle1 Hle2.
      assert (Hk : GetKey x1 = GetKey x2) by (by apply (anti_symm str_le)).
      rewrite Hp in H1. rewrite merge_sort_Permutation in H2.
      apply list_elem_of_lookup in H1 as [i Hi], H2 as [j Hj].
      assert (i = j).
      { eapply NoDup_lookup; [exact Hnd| |]; rewrite list_lookup_fmap.
        - by rewrite Hi.
        - rewrite Hj. simpl. by rewrite Hk. }
      congruence.
    + done.
    + apply StronglySorted_merge_sort; apply _.
    + by rewrite merge_sort_Permutation.
  - intros k a b Hne x y.
    assert (Hkk : str_le k k) by (destruct (total str_le k k); done).
    split_and!.
    + repeat constructor; exact Hkk.
    + repeat constructor; exact Hkk.
    + apply Permutation_swap.
    + intros [= H]. done.
Qed.

End SortExtras.

(* ===================================================================== *)
(** * The claims under the liveness of the specification *)
(* ===================================================================== *)

Module SpecLiveness.
Import ElementSet SetFacts LwwGraph GraphFacts TraversalFacts KeyOrder ListFacts.
Import ConnectedFacts PathFacts ConvergenceFacts Scenarios Readded.

(** What the code finds is live in the words of the specification; the
    converse fails for a key that was added again after a removal. *)
Lemma Contains_spec_live s k e :
  set_wf s -> Contains s k = Ok e -> spec_live s k = true.
Proof.
  intros Hwf H. apply Contains_Ok in H as (r & Hr & _ & Hrm).
  apply removed_false in Hrm as [Hn _]. rewrite (Hwf _ _ Hr) in Hn.
  unfold spec_live. by rewrite Hr, Hn.
Qed.

Lemma Lookup_spec_live g k v :
  graph_wf g -> Lookup g k = Ok v -> spec_live (vertices g) k = true.
Proof.
  intros Hwf H. apply Lookup_Ok in H. eapply Contains_spec_live; [apply Hwf|done].
Qed.

Lemma not_spec_live_Contains s k :
  set_wf s -> spec_live s k = false -> is_ok (Contains s k) = false.
Proof.
  intros Hwf H. destruct (Contains s k) as [e|] eqn:E; [|done].
  by rewrite (Contains_spec_live _ _ _ Hwf E) in H.
Qed.

(** *** C1's defect in the graph operations

    [Lookup] goes through [Contains] and so through [removed]: a vertex
    that is added again after its removal is live in the words of the
    specification, and the tests expect it back, but [Lookup] does not find
    it. *)





(** C7 (the code departs from the claim).  In the test "edge for a removed
    vertex re-appears if the vertex was re-added in another replica", after
    the last replication each of the three replicas holds v1 with the add
    of time 5 and the removal of time 2, so v1 is live in the words of the
    specification, and holds the edge v1->v2; yet [List] returns v2 alone
    on each of them, where the test expects v1 with the adjacent key of v2,
    then v2. *)
Theorem C7_readded_vertex_is_not_listed :
  (fun g => (spec_live (vertices g) "vertex1",
             spec_live (adj g "vertex1") "vertex2",
             (LwwGraph.List idorder (g, 0%nat)).1)) <$> intention_ABC
  = [(true, true, Ok (Slice [{| vertex := v2; AdjacentKeys := Slice [] |}]));
     (true, true, Ok (Slice [{| vertex := v2; AdjacentKeys := Slice [] |}]));
     (true, true, Ok (Slice [{| vertex := v2; AdjacentKeys := Slice [] |}]))]
  /\ (LwwGraph.List idorder (g_again, 0%nat)).1 = Ok (Slice []).
Proof. split; vm_compute; reflexivity. Qed.

(** *** C6: the older [FindPath] *)

(** C6 (the code departs from the claim).  In the older revision, on the
    graph that holds v1 alone, the first [FindPath] from v1 panics on the
    zero [Set] that [getAdjacent] returns, leaving an empty adjacency set
    under the key; every later [FindPath] from v1 then runs its loop
    forever: no fuel is enough, whatever the to-key. *)
Theorem C6_older_find_path_does_not_return :
  GraphRev0.FindPath idorder 1 (g_single, 0%nat) "vertex1" "vertex1"
  = Some (GraphRev0.Panics, (Rev0Extras.with_empty "vertex1" g_single, 0%nat))
  /\ (forall (toKey : string) (fuel n : nat),
        GraphRev0.FindPath idorder fuel (Rev0Extras.with_empty "vertex1" g_single, n)
          "vertex1" toKey = None).
Proof.
  split; [vm_compute; reflexivity|].
  intros toKey fuel n.
  assert (HL : Lookup (Rev0Extras.with_empty "vertex1" g_single) "vertex1" = Ok v1)
    by (vm_compute; reflexivity).
  unfold GraphRev0.FindPath, GraphRev0.lookup. cbn [fst]. rewrite HL.
  apply (Rev0Extras.rev0_path_loop_spins idorder toKey _ v1 NewSet).
  - intros m l. reflexivity.
  - vm_compute. reflexivity.
  - vm_compute. reflexivity.
Qed.

(** *** C10: nothing live *)

(** C10.  For every iteration order, on sets and graphs that the operations
    build: [Set.List] returns a non-nil slice, the empty one when no key is
    live; a [FindConnected] that returns without error returns a non-nil
    slice, and from a key that [Lookup] finds (as a call that returns
    without error has) the empty one when no live key of its adjacency set
    is a live vertex; a [Graph.List] that returns without error returns a
    non-nil slice, the empty one when no vertex key is live.  Live is meant
    in the words of the specification. *)
Theorem C10_nothing_live_gives_empty_slices :
  forall order, (forall n l, order n l ≡ₚ l) ->
  (forall (n : nat) (s : ElementSet.t), exists l, ElementSet.List order n s = Slice l)
  /\ (forall (n : nat) (s : ElementSet.t),
         set_wf s -> (forall k, spec_live s k = false) ->
         ElementSet.List order n s = Slice [])
  /\ (forall (fuel : nat) (g : Graph) (n : nat) key c st',
         FindConnected order fuel (g, n) key = Some (Ok c, st') -> exists l, c = Slice l)
  /\ (forall (fuel : nat) (g : Graph) (n : nat) key start,
         (2 <= fuel)%nat -> graph_wf g -> Lookup g key = Ok start ->
         (forall k, spec_live (adj g key) k = true -> spec_live (vertices g) k = false) ->
         exists st', FindConnected order fuel (g, n) key = Some (Ok (Slice []), st'))
  /\ (forall (g : Graph) (n : nat) r st',
         LwwGraph.List order (g, n) = (Ok r, st') -> exists l, r = Slice l)
  /\ (forall (g : Graph) (n : nat),
         graph_wf g -> (forall k, spec_live (vertices g) k = false) ->
         LwwGraph.List order (g, n) = (Ok (Slice []), (g, S n))).
Proof.
  intros order Hperm. split_and!.
  - intros n s. apply List_is_Slice.
  - intros n s Hwf Hnone. apply (List_nothing_live order Hperm). intros k.
    by apply not_spec_live_Contains.
  - intros fuel g n key c st'. unfold FindConnected. cbn [fst].
    destruct (Lookup g key) as [start|e]; [|discriminate].
    by apply Claims.bfs_loop_Slice with (l := []).
  - intros fuel g n key start Hf Hwf HL Hdead. unfold FindConnected. cbn [fst].
    rewrite HL. destruct fuel as [|[|fuel]]; [lia|lia|].
    cbn [bfs_loop queue]. rewrite adjacent_list_eq. cbn [fst visited connected].
    rewrite (Lookup_Key _ _ _ Hwf HL).
    rewrite Claims.connect_range_all_dead; [cbn [queue connected]; eauto|].
    intros e He. rewrite (Lookup_ext _ g) by apply getAdjacent_vertices.
    rewrite (List_live_elements order Hperm n) in He.
    apply (elem_of_live_elements_wf _ _ (adj_wf g key Hwf)) in He.
    apply (Contains_spec_live _ _ _ (adj_wf g key Hwf)) in He.
    specialize (Hdead _ He). apply Lookup_Err_not_live.
    apply not_spec_live_Contains; [apply Hwf|done].
  - intros g n r st'. unfold LwwGraph.List. apply list_range_Slice.
  - intros g n Hwf Hnone. apply (List_no_live_vertex order Hperm). intros k.
    apply not_spec_live_Contains; [apply Hwf|done].
Qed.

Lemma C10_nothing_live_witness :
  (forall n l, idorder n l ≡ₚ l)
  /\ set_wf setA0 /\ (forall k, spec_live setA0 k = false)
  /\ ElementSet.List idorder 0 setA0 = Slice [].
Proof.
  assert (Hwf : set_wf setA0) by (apply set_wf_Remove, set_wf_Add, set_wf_NewSet).
  assert (Hnone : forall k, spec_live setA0 k = false).
  { intros k. unfold spec_live, setA0, Remove, Add, NewSet, e1.
    cbn [additions removals GetKey].
    destruct (decide (k = "element1")) as [->|Hne].
    - rewrite !lookup_insert_eq. reflexivity.
    - rewrite lookup_insert_ne by done. rewrite lookup_empty. reflexivity. }
  split; [intros n l; reflexivity|]. split; [exact Hwf|]. split; [exact Hnone|].
  exact (proj1 (proj2 (C10_nothing_live_gives_empty_slices idorder
                         (fun n l => reflexivity _))) 0%nat setA0 Hwf Hnone).
Defined.

(** *** C2: convergence *)

(** C2 (amended).  Replicas are graphs that the operations build; no two of
    them hold, for one vertex key, different add records with the same
    timestamp.  Then, after any schedule of merges between them (any order,
    any repetition), any two replicas into which every initial state has
    flowed are equivalent and return the same [List], whatever the
    iteration orders; merging A into B and B into A lists the same; and
    merging a replica into itself changes nothing it lists. *)
Theorem C2_informed_replicas_agree :
  forall order, (forall n l, order n l ≡ₚ l) ->
  forall (gs : list Graph) (sched : list (nat * nat)),
    Forall graph_wf gs -> no_ties gs ->
    (forall i j gi gj Fi Fj (n m : nat),
        merge_all sched gs !! i = Some gi -> merge_all sched gs !! j = Some gj ->
        absorbed sched gs !! i = Some Fi -> absorbed sched gs !! j = Some Fj ->
        (forall h, h ∈ gs -> h ∈ Fi) -> (forall h, h ∈ gs -> h ∈ Fj) ->
        graph_equiv gi gj
        /\ (LwwGraph.List order (gi, n)).1 = (LwwGraph.List order (gj, m)).1)
    /\ (forall A B (n m : nat), A ∈ gs -> B ∈ gs ->
          (LwwGraph.List order (Merge A B, n)).1 = (LwwGraph.List order (Merge B A, m)).1)
    /\ (forall A (n m : nat), A ∈ gs ->
          (LwwGraph.List order (Merge A A, n)).1 = (LwwGraph.List order (A, m)).1).
Proof.
  intros order Hperm gs sched Hwf Hnt. pose proof Hwf as Hwf'.
  rewrite Forall_forall in Hwf'. split_and!.
  - intros i j gi gj Fi Fj n m Hgi Hgj HFi HFj Hi Hj.
    by apply (replicas_converge order Hperm gs sched i j gi gj Fi Fj).
  - intros A B n m HA HB.
    apply (Merge_commutes order Hperm A B n m); [by apply Hwf'|by apply Hwf'|].
    eapply no_ties_sub; [|exact Hnt]. intros h Hh.
    apply elem_of_cons in Hh as [->|Hh]; [done|].
    apply elem_of_cons in Hh as [->|Hh]; [done|]. by apply elem_of_nil in Hh.
  - intros A n m HA.
    apply (List_equiv order Hperm order); [done| |apply Merge_idempotent].
    apply graph_wf_Merge; by apply Hwf'.
Qed.

Lemma C2_informed_replicas_agree_witness :
  (forall n l, idorder n l ≡ₚ l)
  /\ Forall graph_wf [g_convA; g_convB] /\ no_ties [g_convA; g_convB]
  /\ (LwwGraph.List idorder (Merge g_convA g_convB, 0%nat)).1
     = (LwwGraph.List idorder (Merge g_convB g_convA, 0%nat)).1.
Proof.
  assert (Hwf : Forall graph_wf [g_convA; g_convB]).
  { repeat (apply Forall_cons; split; [apply Claims.graph_wf_run, graph_wf_NewGraph|]).
    apply Forall_nil_2. }
  assert (Hnt : no_ties [g_convA; g_convB]).
  { apply no_ties_entries_sound. apply (bool_decide_unpack _). vm_compute. reflexivity. }
  split; [intros n l; reflexivity|]. split; [exact Hwf|]. split; [exact Hnt|].
  refine (proj1 (proj2 (C2_informed_replicas_agree idorder (fun n l => reflexivity _)
                          [g_convA; g_convB] [] Hwf Hnt))
            g_convA g_convB 0%nat 0%nat _ _).
  - apply elem_of_cons. left. reflexivity.
  - apply elem_of_cons. right. apply elem_of_cons. left. reflexivity.
Defined.

End SpecLiveness.
